(** * Algo-Catalyst: an event-driven backtesting engine

    A shallow embedding of the C++ sources (Events.h, Indicators.cpp,
    AI_Regime.cpp, Strategy.cpp, Engine.cpp) and the properties of the
    design document checked against it.

    Conventions of the embedding.
    - [double] is IEEE 754 binary64: Rocq's primitive floats, rounding to
      nearest-even, every operation rounded on its own (no fused
      multiply-add, no extended precision).  The indicator engine is written
      once over the interface [DoubleArith], so that it can also be read over
      exact rationals.
    - [std::int64_t] is [Z]; additions wrap modulo 2^64 ([Int64.add]).
    - [std::size_t] values are [nat] (container sizes) or [N] (EMA periods).
    - [std::deque] and [std::vector] are lists, front first.
    - [std::map<std::string, V>] is a key-sorted association list
      ([StdMap]), so that iteration visits keys in increasing order.
    - [std::priority_queue] is the binary heap over a vector that the
      standard prescribes: [push] is [push_back] then [push_heap], [pop] is
      [pop_heap] then [pop_back] (libstdc++'s sift procedures).
    - A raw pointer to a [RegimeClassifier] is an address into a store of
      classifier objects that is threaded through the calls. *)

From Stdlib Require Import ZArith NArith List Bool Lia ZifyNat Floats QArith Lqa String Ascii.
From Stdlib Require Import Permutation Sorted.
From stdpp Require Import base option list gmap.

#[local] Set Warnings "-inexact-float".
#[local] Open Scope Z_scope.

(* ===================================================================== *)
(** * Machine numbers *)
(* ===================================================================== *)

Module Int64.

Definition min_signed : Z := - 2 ^ 63.
Definition max_signed : Z := 2 ^ 63 - 1.

Definition in_range (z : Z) : Prop := min_signed <= z <= max_signed.

Definition in_rangeb (z : Z) : bool := (min_signed <=? z) && (z <=? max_signed).

(** Two's complement wrap-around of a mathematical integer. *)
Definition wrap (z : Z) : Z := (z + 2 ^ 63) mod 2 ^ 64 - 2 ^ 63.

Definition add (a b : Z) : Z := wrap (a + b).

End Int64.

Module Int32.

(** [static_cast<int>] of a non-negative size: reduction modulo 2^32 into
    the signed range. *)
Definition wrap (z : Z) : Z := (z + 2 ^ 31) mod 2 ^ 32 - 2 ^ 31.

End Int32.

(** The arithmetic the sources use on [double]. *)
Class DoubleArith (F : Type) := {
  d_add : F -> F -> F;
  d_sub : F -> F -> F;
  d_mul : F -> F -> F;
  d_div : F -> F -> F;
  d_ltb : F -> F -> bool;
  d_leb : F -> F -> bool;
  d_eqb : F -> F -> bool;
  (** [static_cast<double>] of an integer, and integer literals [2.0]. *)
  d_of_int : Z -> F
}.

Declare Scope dbl_scope.
Delimit Scope dbl_scope with dbl.
Infix "+" := d_add : dbl_scope.
Infix "-" := d_sub : dbl_scope.
Infix "*" := d_mul : dbl_scope.
Infix "/" := d_div : dbl_scope.
Infix "<?" := d_ltb : dbl_scope.
Infix "<=?" := d_leb : dbl_scope.
Infix "=?" := d_eqb : dbl_scope.
Notation "x >? y" := (d_ltb y x) (only parsing) : dbl_scope.
Notation "x >=? y" := (d_leb y x) (only parsing) : dbl_scope.
Notation "x !=? y" := (negb (d_eqb x y)) (at level 70, no associativity) : dbl_scope.

(** Correctly rounded conversion of an integer to binary64. *)
Definition float_of_Z (z : Z) : float :=
  SF2Prim (binary_normalize prec emax z 0 false).

(** [static_cast<std::int64_t>] of a double: truncation towards zero.  The
    source's behaviour is undefined on NaN, infinities and values outside the
    range of [int64_t]; the model answers 0 on NaN and infinities. *)
Definition Z_of_float (f : float) : Z :=
  match Prim2SF f with
  | S754_finite s m e =>
      let v := if 0 <=? e then Z.shiftl (Z.pos m) e else Z.shiftr (Z.pos m) (- e) in
      if s then - v else v
  | _ => 0
  end.

(** The same conversion where the language defines it: the value of a
    finite double with its fractional part discarded, provided the result
    fits [int64_t]; nothing for NaN, infinities and values out of range. *)
Definition double_to_int64 (f : float) : option Z :=
  match Prim2SF f with
  | S754_zero _ => Some 0
  | S754_finite s m e =>
      let magnitude := (Z.pos m * 2 ^ Z.max e 0) / 2 ^ Z.max (- e) 0 in
      let z := if s then - magnitude else magnitude in
      if Int64.in_rangeb z then Some z else None
  | _ => None
  end.

#[export] Instance binary64 : DoubleArith float := {
  d_add := PrimFloat.add;
  d_sub := PrimFloat.sub;
  d_mul := PrimFloat.mul;
  d_div := PrimFloat.div;
  d_ltb := PrimFloat.ltb;
  d_leb := PrimFloat.leb;
  d_eqb := PrimFloat.eqb;
  d_of_int := float_of_Z
}.

(** Exact rational arithmetic: the same operations without rounding. *)
#[export] Instance exactQ : DoubleArith Q := {
  d_add := Qplus;
  d_sub := Qminus;
  d_mul := Qmult;
  d_div := Qdiv;
  d_ltb := fun a b => negb (Qle_bool b a);
  d_leb := Qle_bool;
  d_eqb := Qeq_bool;
  d_of_int := inject_Z
}.

(** [std::min] and [std::max] on doubles. *)
Definition d_min {F} `{DoubleArith F} (a b : F) : F := if (b <? a)%dbl then b else a.
Definition d_max {F} `{DoubleArith F} (a b : F) : F := if (a <? b)%dbl then b else a.

(* ===================================================================== *)
(** * Events.h *)
(* ===================================================================== *)

Record Tick := mkTick {
  timestamp_us : Z;
  price : float;
  volume : Z;
  bid_size : float;
  ask_size : float
}.

Inductive Direction := LONG | SHORT | EXIT.

Definition Direction_eqb (a b : Direction) : bool :=
  match a, b with
  | LONG, LONG | SHORT, SHORT | EXIT, EXIT => true
  | _, _ => false
  end.

(** The four event classes; every event carries the timestamp of its
    [Event] base. *)
Inductive Event :=
| MarketUpdateEvent (ts : Z) (tick : Tick)
| SignalEvent (ts : Z) (symbol : string) (direction : Direction) (quantity price : float)
| OrderEvent (ts : Z) (symbol : string) (direction : Direction) (quantity price : float)
| FillEvent (ts : Z) (symbol : string) (direction : Direction)
            (quantity fill_price commission : float).

Definition getTimestamp (e : Event) : Z :=
  match e with
  | MarketUpdateEvent ts _ => ts
  | SignalEvent ts _ _ _ _ => ts
  | OrderEvent ts _ _ _ _ => ts
  | FillEvent ts _ _ _ _ _ => ts
  end.

(* ===================================================================== *)
(** * Indicators.cpp *)
(* ===================================================================== *)

Section Indicators.

Context {F : Type} `{DoubleArith F}.
#[local] Open Scope dbl_scope.

Record Indicators := mkIndicators {
  (** period -> (current value, alpha) *)
  emas_ : gmap N (F * F);
  ema_12_ : F;
  ema_26_ : F;
  macd_signal_ema_9_ : F;
  macd_histogram_history_ : list F;
  cumulative_price_volume_ : F;
  cumulative_volume_ : Z;
  vwap_session_start_us_ : Z;
  (** (timestamp, volume) *)
  volume_history_ : list (Z * Z);
  prev_close_ : F;
  current_price_ : F;
  open_price_ : F;
  is_first_tick_ : bool
}.

Definition Indicators_ctor : Indicators := {|
  emas_ := ∅;
  ema_12_ := (d_of_int 0); ema_26_ := (d_of_int 0); macd_signal_ema_9_ := (d_of_int 0);
  macd_histogram_history_ := [];
  cumulative_price_volume_ := (d_of_int 0);
  cumulative_volume_ := 0;
  vwap_session_start_us_ := 0;
  volume_history_ := [];
  prev_close_ := (d_of_int 0); current_price_ := (d_of_int 0); open_price_ := (d_of_int 0);
  is_first_tick_ := true
|}.

Definition set_emas (i : Indicators) (m : gmap N (F * F)) : Indicators :=
  mkIndicators m (ema_12_ i) (ema_26_ i) (macd_signal_ema_9_ i)
    (macd_histogram_history_ i) (cumulative_price_volume_ i)
    (cumulative_volume_ i) (vwap_session_start_us_ i) (volume_history_ i)
    (prev_close_ i) (current_price_ i) (open_price_ i) (is_first_tick_ i).

Definition updateEMA (i : Indicators) (price : F) (period : N) : Indicators :=
  match emas_ i !! period with
  | None =>
      let alpha := (d_of_int 2) / (d_of_int (Z.of_N period) + (d_of_int 1)) in
      set_emas i (<[period := (price, alpha)]> (emas_ i))
  | Some (ema_value, alpha) =>
      set_emas i (<[period := (alpha * price + ((d_of_int 1) - alpha) * ema_value, alpha)]> (emas_ i))
  end.

Definition getEMA (i : Indicators) (period : N) : F :=
  match emas_ i !! period with
  | Some (v, _) => v
  | None => (d_of_int 0)
  end.

Definition isPriceAboveEMA (i : Indicators) (price : F) (period : N) : bool :=
  let ema := getEMA i period in
  (ema >? (d_of_int 0)) && (price >? ema).

(** [push_back] on a deque followed by [pop_front] when it outgrows [cap]. *)
Definition push_bounded {A} (cap : nat) (l : list A) (x : A) : list A :=
  let l' := l ++ [x] in
  if (cap <? length l')%nat then tl l' else l'.

Definition updateMACD (i : Indicators) (price : F) : Indicators :=
  let e12 :=
    if ema_12_ i =? (d_of_int 0) then price
    else let alpha_12 := (d_of_int 2) / ((d_of_int 12) + (d_of_int 1)) in
         alpha_12 * price + ((d_of_int 1) - alpha_12) * ema_12_ i in
  let e26 :=
    if ema_26_ i =? (d_of_int 0) then price
    else let alpha_26 := (d_of_int 2) / ((d_of_int 26) + (d_of_int 1)) in
         alpha_26 * price + ((d_of_int 1) - alpha_26) * ema_26_ i in
  let macd_line := e12 - e26 in
  let sig :=
    if macd_signal_ema_9_ i =? (d_of_int 0) then macd_line
    else let alpha_9 := (d_of_int 2) / ((d_of_int 9) + (d_of_int 1)) in
         alpha_9 * macd_line + ((d_of_int 1) - alpha_9) * macd_signal_ema_9_ i in
  let histogram := macd_line - sig in
  mkIndicators (emas_ i) e12 e26 sig
    (push_bounded 10 (macd_histogram_history_ i) histogram)
    (cumulative_price_volume_ i) (cumulative_volume_ i)
    (vwap_session_start_us_ i) (volume_history_ i)
    (prev_close_ i) (current_price_ i) (open_price_ i) (is_first_tick_ i).

Definition getMACD (i : Indicators) : F := ema_12_ i - ema_26_ i.

Definition getMACDSignal (i : Indicators) : F := macd_signal_ema_9_ i.

Definition getMACDHistogram (i : Indicators) : F :=
  match rev (macd_histogram_history_ i) with
  | [] => (d_of_int 0)
  | h :: _ => h
  end.

Definition isMACDHistogramExpanding (i : Indicators) : bool :=
  match rev (macd_histogram_history_ i) with
  | current :: previous :: _ => current >? previous
  | _ => false
  end.

Definition updateVWAP (i : Indicators) (price : F) (volume timestamp_us : Z) : Indicators :=
  let fresh := (vwap_session_start_us_ i =? 0)%Z in
  let start := if fresh then timestamp_us else vwap_session_start_us_ i in
  let cpv := if fresh then (d_of_int 0) else cumulative_price_volume_ i in
  let cv := if fresh then 0 else cumulative_volume_ i in
  mkIndicators (emas_ i) (ema_12_ i) (ema_26_ i) (macd_signal_ema_9_ i)
    (macd_histogram_history_ i)
    (cpv + price * (d_of_int volume)) (Int64.add cv volume) start
    (volume_history_ i)
    (prev_close_ i) (current_price_ i) (open_price_ i) (is_first_tick_ i).

Definition getVWAP (i : Indicators) : F :=
  if (cumulative_volume_ i =? 0)%Z then (d_of_int 0)
  else cumulative_price_volume_ i / d_of_int (cumulative_volume_ i).

Definition isPriceAboveVWAP (i : Indicators) (price : F) : bool :=
  let vwap := getVWAP i in
  (vwap >? (d_of_int 0)) && (price >? vwap).

Definition resetVWAP (i : Indicators) : Indicators :=
  mkIndicators (emas_ i) (ema_12_ i) (ema_26_ i) (macd_signal_ema_9_ i)
    (macd_histogram_history_ i) (d_of_int 0) 0 0 (volume_history_ i)
    (prev_close_ i) (current_price_ i) (open_price_ i) (is_first_tick_ i).

Definition updateVolume (i : Indicators) (volume timestamp_us : Z) : Indicators :=
  mkIndicators (emas_ i) (ema_12_ i) (ema_26_ i) (macd_signal_ema_9_ i)
    (macd_histogram_history_ i) (cumulative_price_volume_ i)
    (cumulative_volume_ i) (vwap_session_start_us_ i)
    (push_bounded 20 (volume_history_ i) (timestamp_us, volume))
    (prev_close_ i) (current_price_ i) (open_price_ i) (is_first_tick_ i).

Definition getAverageVolume (i : Indicators) (lookback : nat) : F :=
  let h := volume_history_ i in
  if (length h <? 2)%nat then (d_of_int 0)
  else
    let count := Nat.min lookback (length h) in
    let sum := fold_left (fun s tv => Int64.add s (snd tv))
                 (skipn (length h - count) h) 0 in
    (d_of_int sum) / d_of_int (Z.of_nat count).

Definition getRelativeVolume (i : Indicators) : F :=
  let avg_vol := getAverageVolume i 20 in
  if avg_vol =? (d_of_int 0) then (d_of_int 0)
  else match rev (volume_history_ i) with
       | [] => (d_of_int 0)
       | (_, current_vol) :: _ => (d_of_int current_vol) / avg_vol
       end.

Definition updatePrice (i : Indicators) (price : F) : Indicators :=
  let first := is_first_tick_ i in
  mkIndicators (emas_ i) (ema_12_ i) (ema_26_ i) (macd_signal_ema_9_ i)
    (macd_histogram_history_ i) (cumulative_price_volume_ i)
    (cumulative_volume_ i) (vwap_session_start_us_ i) (volume_history_ i)
    (if first then price else current_price_ i)
    price
    (if first then price else open_price_ i)
    false.

Definition getGapUpPercent (i : Indicators) : F :=
  if prev_close_ i =? (d_of_int 0) then (d_of_int 0)
  else ((current_price_ i - prev_close_ i) / prev_close_ i) * (d_of_int 100).

Definition reset (i : Indicators) : Indicators :=
  mkIndicators ∅ (d_of_int 0) (d_of_int 0) (d_of_int 0) []
    (d_of_int 0) 0 0 [] (d_of_int 0) (d_of_int 0) (d_of_int 0) true.

(** Sequences of calls on a fresh engine: [updatePrice(price)],
    [updateMACD(price)], [updateVolume(volume, timestamp)] and
    [updateVWAP(price, volume, timestamp)]. *)
Definition price_calls (prices : list F) : Indicators :=
  fold_left updatePrice prices Indicators_ctor.

Definition macd_calls (prices : list F) : Indicators :=
  fold_left updateMACD prices Indicators_ctor.

Definition volume_calls (entries : list (Z * Z)) : Indicators :=
  fold_left (fun i tv => updateVolume i (snd tv) (fst tv)) entries Indicators_ctor.

Definition vwap_calls (updates : list (F * Z * Z)) : Indicators :=
  fold_left (fun i u => updateVWAP i (fst (fst u)) (snd (fst u)) (snd u)) updates
    Indicators_ctor.

(** ** The EMA bound, as the design document states it

    A sequence of [updateEMA(price, period)] calls on a fresh engine;
    [prices_seen p] are the prices passed for period [p]. *)

Definition ema_calls (calls : list (F * N)) : Indicators :=
  fold_left (fun i c => updateEMA i (fst c) (snd c)) calls Indicators_ctor.

Definition prices_seen (p : N) (calls : list (F * N)) : list F :=
  map fst (List.filter (fun c => N.eqb (snd c) p) calls).

(** The textbook recurrence for one period: the first price, then
    [alpha * price + (1 - alpha) * ema] with [alpha = 2 / (period + 1)];
    0 when no price was passed. *)
Definition ema_recurrence (p : N) (prices : list F) : F :=
  match prices with
  | [] => d_of_int 0
  | x :: xs =>
      let alpha := (d_of_int 2) / (d_of_int (Z.of_N p) + (d_of_int 1)) in
      fold_left (fun ema price => alpha * price + ((d_of_int 1) - alpha) * ema) xs x
  end.

Definition ema_within_bounds (calls : list (F * N)) (p : N) : bool :=
  match prices_seen p calls with
  | [] => true
  | x :: xs =>
      let lo := fold_left d_min xs x in
      let hi := fold_left d_max xs x in
      let ema := getEMA (ema_calls calls) p in
      (lo <=? ema) && (ema <=? hi)
  end.

End Indicators.

Arguments Indicators F : clear implicits.

(* ===================================================================== *)
(** * AI_Regime.cpp *)
(* ===================================================================== *)

#[local] Notation "x >? y" := (PrimFloat.ltb y x) (only parsing) : float_scope.
#[local] Notation "x >=? y" := (PrimFloat.leb y x) (only parsing) : float_scope.

(** Conversions used where the sources mix integers and doubles. *)
Definition float_of_nat (n : nat) : float := float_of_Z (Z.of_nat n).

(** [std::numeric_limits<double>::max()]. *)
Definition DBL_MAX : float := 0x1.fffffffffffffp+1023%float.

Module RegimeClassifier.

#[local] Open Scope float_scope.

Inductive Regime := CHOPPY | TRENDING.

Definition Regime_eqb (a b : Regime) : bool :=
  match a, b with
  | CHOPPY, CHOPPY | TRENDING, TRENDING => true
  | _, _ => false
  end.

Record Feature := mkFeature {
  volatility : float;
  direction : float;
  volume_norm : float
}.

Record t := mk {
  tick_history_ : list Tick;
  lookback_ : nat;
  num_clusters_ : nat;
  current_regime_ : Regime;
  centroids_ : list Feature
}.

(** [centroids_.resize(num_clusters_)] value-initialises the features. *)
Definition ctor (lookback num_clusters : nat) : t :=
  mk [] lookback num_clusters CHOPPY (repeat (mkFeature 0 0 0) num_clusters).

Definition getCurrentRegime (rc : t) : Regime := current_regime_ rc.

Definition getPositionMultiplier (rc : t) : float :=
  match current_regime_ rc with
  | CHOPPY => 0.0
  | TRENDING => 1.5
  end.

(** The simple returns [(p_i - p_{i-1}) / p_{i-1}] over consecutive ticks,
    skipping those whose previous price is not positive. *)
Fixpoint returns_of (ticks : list Tick) : list float :=
  match ticks with
  | prev :: ((cur :: _) as rest) =>
      (if price prev >? 0.0
       then [(price cur - price prev) / price prev]
       else []) ++ returns_of rest
  | _ => []
  end.

Definition calculateVolatility (ticks : list Tick) : float :=
  if (length ticks <? 2)%nat then 0.0
  else
    let returns := returns_of ticks in
    match returns with
    | [] => 0.0
    | _ =>
        let mean := fold_left PrimFloat.add returns 0.0 / float_of_nat (length returns) in
        let variance :=
          fold_left (fun v ret => let diff := ret - mean in v + diff * diff) returns 0.0 in
        PrimFloat.sqrt (variance / float_of_nat (length returns))
    end.

Definition calculateDirection (ticks : list Tick) : float :=
  if (length ticks <? 2)%nat then 0.0
  else
    let total_move := fold_left PrimFloat.add (returns_of ticks) 0.0 in
    PrimFloat.abs total_move / float_of_nat (length ticks).

Definition calculateDistance (a b : Feature) : float :=
  let vol_diff := volatility a - volatility b in
  let dir_diff := direction a - direction b in
  let vol_norm_diff := volume_norm a - volume_norm b in
  PrimFloat.sqrt (vol_diff * vol_diff + dir_diff * dir_diff + vol_norm_diff * vol_norm_diff).

(** Called on non-empty clusters only. *)
Definition calculateCentroid (cluster : list Feature) : Feature :=
  let sum_vol := fold_left (fun s f => s + volatility f) cluster 0.0 in
  let sum_dir := fold_left (fun s f => s + direction f) cluster 0.0 in
  let sum_vol_norm := fold_left (fun s f => s + volume_norm f) cluster 0.0 in
  let count := float_of_nat (length cluster) in
  mkFeature (sum_vol / count) (sum_dir / count) (sum_vol_norm / count).

Definition sum_volume (ticks : list Tick) : Z :=
  fold_left (fun s t => Int64.add s (volume t)) ticks 0%Z.

(** [ticks.back().volume]; the sources only take it of non-empty deques. *)
Definition back_volume (ticks : list Tick) : Z :=
  from_option volume 0%Z (last ticks).

(** One feature vector from a window of ticks (the body of the loop of
    [extractFeatures], and its fallback on the entire history). *)
Definition window_feature (window : list Tick) : Feature :=
  let sum_vol := sum_volume window in
  let avg_vol :=
    if (0 <? sum_vol)%Z then float_of_Z sum_vol / float_of_nat (length window) else 1.0 in
  mkFeature (calculateVolatility window) (calculateDirection window)
    (float_of_Z (back_volume window) / avg_vol).

Definition window_size : nat := 10.

Definition extractFeatures (ticks : list Tick) : list Feature :=
  if (length ticks <? 2)%nat then []
  else
    let features :=
      map (fun i => window_feature (firstn (window_size + 1) (skipn (i - window_size) ticks)))
          (seq window_size (length ticks - window_size)) in
    match features with
    | [] => [window_feature ticks]
    | _ => features
    end.

(** Index of the first centroid at minimal distance below [DBL_MAX]. *)
Definition nearest_centroid (centroids : list Feature) (f : Feature) : nat :=
  snd (fold_left
         (fun st ic =>
            let dist := calculateDistance f (snd ic) in
            if dist <? fst st then (dist, fst ic) else st)
         (combine (seq 0 (length centroids)) centroids)
         (DBL_MAX, 0%nat)).

(** [std::sort] of a vector of doubles. *)
Fixpoint sort_insert (x : float) (l : list float) : list float :=
  match l with
  | [] => [x]
  | y :: r => if x <? y then x :: l else y :: sort_insert x r
  end.

Definition sort (l : list float) : list float := fold_right sort_insert [] l.

Definition at_index (l : list float) (i : nat) : float := nth i l 0.0.

Definition assign_clusters (centroids features : list Feature) (k : nat)
  : list (list Feature) :=
  fold_left
    (fun clusters f => alter (fun c => c ++ [f]) (nearest_centroid centroids f) clusters)
    features (repeat [] k).

(** The centroid update of one Lloyd iteration; the boolean is [converged]. *)
Definition update_centroids (centroids : list Feature) (clusters : list (list Feature))
    (k : nat) : list Feature * bool :=
  fold_left
    (fun st i =>
       match clusters !! i with
       | Some ((_ :: _) as cluster) =>
           let new_centroid := calculateCentroid cluster in
           let dist_change :=
             calculateDistance new_centroid (nth i (fst st) (mkFeature 0 0 0)) in
           (<[i := new_centroid]> (fst st),
            if dist_change >? 0.001 then false else snd st)
       | _ => st
       end)
    (seq 0 k) (centroids, true).

Fixpoint kmeans_iterate (iterations : nat) (centroids features : list Feature) (k : nat)
  : list Feature :=
  match iterations with
  | O => centroids
  | S n =>
      let clusters := assign_clusters centroids features k in
      let '(centroids', converged) := update_centroids centroids clusters k in
      if converged then centroids' else kmeans_iterate n centroids' features k
  end.

Definition max_iterations : nat := 10.

(** Returns the new [centroids_].  Writing [centroids_[0]] with
    [num_clusters_ = 0] is out of bounds in the source; the list update
    does nothing there. *)
Definition performKMeans (rc : t) (features : list Feature) : list Feature :=
  match features with
  | [] => centroids_ rc
  | _ =>
      let volatilities := sort (map volatility features) in
      let directions := sort (map direction features) in
      let volumes := sort (map volume_norm features) in
      let n := length features in
      let c0 := <[0%nat := mkFeature (at_index volatilities (n / 4))
                                     (at_index directions (n / 4))
                                     (at_index volumes (n / 4))]> (centroids_ rc) in
      let c1 :=
        if (1 <? num_clusters_ rc)%nat
        then <[1%nat := mkFeature (at_index volatilities (3 * n / 4))
                                  (at_index directions (3 * n / 4))
                                  (at_index volumes (3 * n / 4))]> c0
        else c0 in
      kmeans_iterate max_iterations c1 features (num_clusters_ rc)
  end.

Definition updateAndClassify (rc : t) (tick : Tick) : t :=
  let pushed := tick_history_ rc ++ [tick] in
  let history := if (lookback_ rc <? length pushed)%nat then tl pushed else pushed in
  if (length history <? 20)%nat then
    mk history (lookback_ rc) (num_clusters_ rc) CHOPPY (centroids_ rc)
  else
    let features := extractFeatures history in
    let centroids :=
      performKMeans (mk history (lookback_ rc) (num_clusters_ rc)
                        (current_regime_ rc) (centroids_ rc)) features in
    let current_feature :=
      if (2 <=? length history)%nat then
        let sum_vol := sum_volume history in
        let count := length history in
        let avg_vol :=
          if (0 <? count)%nat then float_of_Z sum_vol / float_of_nat count else 1.0 in
        mkFeature (calculateVolatility history) (calculateDirection history)
          (float_of_Z (volume tick) / avg_vol)
      else from_option id (mkFeature 0 0 0) (last features) in
    let nearest_cluster := nearest_centroid centroids current_feature in
    let regime :=
      if (nearest_cluster =? 0)%nat then
        if (volatility current_feature >? 0.02) && (direction current_feature >? 0.01)
        then TRENDING else CHOPPY
      else TRENDING in
    mk history (lookback_ rc) (num_clusters_ rc) regime centroids.

End RegimeClassifier.

(** The classifier objects a strategy may point to, by address. *)
Definition ClassifierStore := nat -> RegimeClassifier.t.

Definition store_update (store : ClassifierStore) (p : nat) (rc : RegimeClassifier.t)
  : ClassifierStore :=
  fun q => if (q =? p)%nat then rc else store q.

(* ===================================================================== *)
(** * Strategy.h, Strategy.cpp *)
(* ===================================================================== *)

Module Strategy.

#[local] Open Scope float_scope.

(** [NewsMomentumStrategy], with the members of its base [Strategy].
    [regime_classifier_] is [None] for a null pointer. *)
Record NewsMomentumStrategy := mk {
  symbol_ : string;
  position_ : float;
  avg_fill_price_ : float;
  indicators_ : Indicators float;
  regime_classifier_ : option nat;
  min_relative_volume_ : float;
  min_gap_up_percent_ : float;
  min_bid_ask_ratio_ : float;
  base_position_size_ : float;
  was_long_ema_above_short_ : bool;
  entry_timestamp_us_ : Z
}.

Definition ctor (symbol : string) (regime_classifier : option nat) : NewsMomentumStrategy :=
  mk symbol 0.0 0.0 Indicators_ctor regime_classifier 5.0 10.0 1.5 100.0 false 0.

Definition hasPosition (s : NewsMomentumStrategy) : bool := negb (position_ s =? 0.0).
Definition getPosition (s : NewsMomentumStrategy) : float := position_ s.
Definition getAvgFillPrice (s : NewsMomentumStrategy) : float := avg_fill_price_ s.

Definition setMinRelativeVolume (s : NewsMomentumStrategy) (vol : float) :=
  mk (symbol_ s) (position_ s) (avg_fill_price_ s) (indicators_ s) (regime_classifier_ s)
     vol (min_gap_up_percent_ s) (min_bid_ask_ratio_ s) (base_position_size_ s)
     (was_long_ema_above_short_ s) (entry_timestamp_us_ s).
Definition setMinGapUpPercent (s : NewsMomentumStrategy) (percent : float) :=
  mk (symbol_ s) (position_ s) (avg_fill_price_ s) (indicators_ s) (regime_classifier_ s)
     (min_relative_volume_ s) percent (min_bid_ask_ratio_ s) (base_position_size_ s)
     (was_long_ema_above_short_ s) (entry_timestamp_us_ s).
Definition setMinBidAskRatio (s : NewsMomentumStrategy) (ratio : float) :=
  mk (symbol_ s) (position_ s) (avg_fill_price_ s) (indicators_ s) (regime_classifier_ s)
     (min_relative_volume_ s) (min_gap_up_percent_ s) ratio (base_position_size_ s)
     (was_long_ema_above_short_ s) (entry_timestamp_us_ s).
Definition setBasePositionSize (s : NewsMomentumStrategy) (size : float) :=
  mk (symbol_ s) (position_ s) (avg_fill_price_ s) (indicators_ s) (regime_classifier_ s)
     (min_relative_volume_ s) (min_gap_up_percent_ s) (min_bid_ask_ratio_ s) size
     (was_long_ema_above_short_ s) (entry_timestamp_us_ s).

Definition set_indicators (s : NewsMomentumStrategy) (i : Indicators float) :=
  mk (symbol_ s) (position_ s) (avg_fill_price_ s) i (regime_classifier_ s)
     (min_relative_volume_ s) (min_gap_up_percent_ s) (min_bid_ask_ratio_ s)
     (base_position_size_ s) (was_long_ema_above_short_ s) (entry_timestamp_us_ s).
Definition set_was_long_ema_above_short (s : NewsMomentumStrategy) (b : bool) :=
  mk (symbol_ s) (position_ s) (avg_fill_price_ s) (indicators_ s) (regime_classifier_ s)
     (min_relative_volume_ s) (min_gap_up_percent_ s) (min_bid_ask_ratio_ s)
     (base_position_size_ s) b (entry_timestamp_us_ s).
Definition set_entry_timestamp_us (s : NewsMomentumStrategy) (ts : Z) :=
  mk (symbol_ s) (position_ s) (avg_fill_price_ s) (indicators_ s) (regime_classifier_ s)
     (min_relative_volume_ s) (min_gap_up_percent_ s) (min_bid_ask_ratio_ s)
     (base_position_size_ s) (was_long_ema_above_short_ s) ts.

Definition checkVolumeSpike (s : NewsMomentumStrategy) : bool :=
  getRelativeVolume (indicators_ s) >=? min_relative_volume_ s.

Definition checkGapUp (s : NewsMomentumStrategy) : bool :=
  getGapUpPercent (indicators_ s) >=? min_gap_up_percent_ s.

Definition checkEMATrend (s : NewsMomentumStrategy) (price : float) : bool :=
  if price =? 0.0 then false
  else
    let above_90 := isPriceAboveEMA (indicators_ s) price 90 in
    let above_200 := isPriceAboveEMA (indicators_ s) price 200 in
    let ema_90 := getEMA (indicators_ s) 90 in
    let ema_200 := getEMA (indicators_ s) 200 in
    above_90 && above_200 && (ema_90 >? ema_200).

(** Returns the answer and the strategy with its crossover bit as the
    call leaves it. *)
Definition checkEMACrossover (s : NewsMomentumStrategy) : bool * NewsMomentumStrategy :=
  let ema_9 := getEMA (indicators_ s) 9 in
  let ema_90 := getEMA (indicators_ s) 90 in
  if (ema_9 =? 0.0) || (ema_90 =? 0.0) then (false, s)
  else
    let current_long_above := ema_9 >? ema_90 in
    let crossover := current_long_above && negb (was_long_ema_above_short_ s) in
    (crossover || current_long_above,
     set_was_long_ema_above_short s current_long_above).

Definition checkVWAP (s : NewsMomentumStrategy) (price : float) : bool :=
  if price =? 0.0 then false else isPriceAboveVWAP (indicators_ s) price.

Definition checkMACD (s : NewsMomentumStrategy) : bool :=
  isMACDHistogramExpanding (indicators_ s).

Definition checkOrderBookImbalance (s : NewsMomentumStrategy) (tick : Tick) : bool :=
  if ask_size tick =? 0.0 then false
  else
    let bid_ask_ratio := bid_size tick / ask_size tick in
    bid_ask_ratio >=? min_bid_ask_ratio_ s.

(** [regime_classifier_ && regime_classifier_->getCurrentRegime() != TRENDING] *)
Definition regime_not_trending (s : NewsMomentumStrategy) (store : ClassifierStore) : bool :=
  match regime_classifier_ s with
  | Some p =>
      negb (RegimeClassifier.Regime_eqb
              (RegimeClassifier.getCurrentRegime (store p)) RegimeClassifier.TRENDING)
  | None => false
  end.

Definition checkEntryConditions (s : NewsMomentumStrategy) (store : ClassifierStore)
    (tick : Tick) : bool * NewsMomentumStrategy :=
  if negb (checkVolumeSpike s) || negb (checkGapUp s) then (false, s)
  else if negb (checkEMATrend s (price tick)) then (false, s)
  else
    let '(crossed, s1) := checkEMACrossover s in
    if negb crossed then (false, s1)
    else if negb (checkVWAP s1 (price tick)) then (false, s1)
    else if negb (checkMACD s1) then (false, s1)
    else if negb (checkOrderBookImbalance s1 tick) then (false, s1)
    else if regime_not_trending s1 store then (false, s1)
    else (true, s1).

Definition checkExitConditions (s : NewsMomentumStrategy) (store : ClassifierStore)
    (tick : Tick) : bool :=
  if negb (isPriceAboveVWAP (indicators_ s) (price tick)) then true
  else if negb (isMACDHistogramExpanding (indicators_ s))
          && (getMACDHistogram (indicators_ s) <? 0.0) then true
  else match regime_classifier_ s with
       | Some p =>
           RegimeClassifier.Regime_eqb
             (RegimeClassifier.getCurrentRegime (store p)) RegimeClassifier.CHOPPY
       | None => false
       end.

Definition calculatePositionSize (s : NewsMomentumStrategy) (store : ClassifierStore)
  : float :=
  let base_size := base_position_size_ s in
  match regime_classifier_ s with
  | Some p =>
      let multiplier := RegimeClassifier.getPositionMultiplier (store p) in
      if multiplier >? 0.0 then base_size * multiplier else base_size
  | None => base_size
  end.

(** The indicator updates at the head of [processMarketUpdate]. *)
Definition update_indicators (i : Indicators float) (tick : Tick) (timestamp_us : Z)
  : Indicators float :=
  let i := updatePrice i (price tick) in
  let i := updateEMA i (price tick) 9 in
  let i := updateEMA i (price tick) 90 in
  let i := updateEMA i (price tick) 200 in
  let i := updateMACD i (price tick) in
  let i := updateVWAP i (price tick) (volume tick) timestamp_us in
  updateVolume i (volume tick) timestamp_us.

(** [processMarketUpdate(event)] on the event [MarketUpdateEvent ts tick]:
    the strategy and the classifier store after the call, and the vector
    of signals returned. *)
Definition processMarketUpdate (s : NewsMomentumStrategy) (store : ClassifierStore)
    (timestamp_us : Z) (tick : Tick)
  : NewsMomentumStrategy * ClassifierStore * list Event :=
  let store1 :=
    match regime_classifier_ s with
    | Some p =>
        let rc := RegimeClassifier.updateAndClassify (store p) tick in
        store_update store p rc
    | None => store
    end in
  let s1 := set_indicators s (update_indicators (indicators_ s) tick timestamp_us) in
  if hasPosition s1 then
    if checkExitConditions s1 store1 tick then
      (s1, store1,
       [SignalEvent timestamp_us (symbol_ s1) EXIT (PrimFloat.abs (position_ s1)) (price tick)])
    else (s1, store1, [])
  else
    let '(entry, s2) := checkEntryConditions s1 store1 tick in
    if entry then
      let position_size := calculatePositionSize s2 store1 in
      if position_size >? 0.0 then
        (set_entry_timestamp_us s2 timestamp_us, store1,
         [SignalEvent timestamp_us (symbol_ s2) LONG position_size (price tick)])
      else (s2, store1, [])
    else (s2, store1, []).

End Strategy.

(* ===================================================================== *)
(** * Containers of the standard library *)
(* ===================================================================== *)

(** [std::map<std::string, V>]: an association list kept sorted by key, so
    that [begin()] and range-for see the keys in increasing order. *)
Module StdMap.

Section Map.
Context {V : Type}.

Definition t := list (string * V).

Definition empty : t := [].

Fixpoint find (k : string) (m : t) : option V :=
  match m with
  | [] => None
  | (k', v) :: rest => if String.eqb k k' then Some v else find k rest
  end.

Definition contains (k : string) (m : t) : bool :=
  match find k m with Some _ => true | None => false end.

(** [m[k] = v] *)
Fixpoint insert (k : string) (v : V) (m : t) : t :=
  match m with
  | [] => [(k, v)]
  | (k', v') :: rest =>
      match String.compare k k' with
      | Lt => (k, v) :: m
      | Eq => (k, v) :: rest
      | Gt => (k', v') :: insert k v rest
      end
  end.

(** [m[k]] as an rvalue: a missing key is inserted with the
    value-initialised [default]. *)
Definition index (default : V) (k : string) (m : t) : V * t :=
  match find k m with
  | Some v => (v, m)
  | None => (default, insert k default m)
  end.

End Map.

Arguments t V : clear implicits.

End StdMap.

(** [std::push_heap], [std::pop_heap] and [std::priority_queue] over a
    vector, with the comparison [comp] of the queue. *)
Section Heap.

Context {A : Type} (comp : A -> A -> bool).

(** [std::__push_heap(first, holeIndex, topIndex, value, comp)]: the hole
    climbs while its parent compares greater than [value]. *)
Fixpoint push_heap_loop (fuel : nat) (v : list A) (holeIndex topIndex : nat) (value : A)
  : list A :=
  match fuel with
  | O => <[holeIndex := value]> v
  | S fuel' =>
      let parent := ((holeIndex - 1) / 2)%nat in
      match v !! parent with
      | Some p =>
          if (topIndex <? holeIndex)%nat && comp p value
          then push_heap_loop fuel' (<[holeIndex := p]> v) parent topIndex value
          else <[holeIndex := value]> v
      | None => <[holeIndex := value]> v
      end
  end.

Definition push_heap_from (v : list A) (holeIndex topIndex : nat) (value : A) : list A :=
  push_heap_loop holeIndex v holeIndex topIndex value.

(** [std::push_heap(first, last)] *)
Definition push_heap (v : list A) : list A :=
  match last v with
  | Some value => push_heap_from v (length v - 1) 0 value
  | None => v
  end.

(** The [while] loop of [std::__adjust_heap]: the hole sinks to the
    bottom, each time taking the place of its preferred child. *)
Fixpoint adjust_heap_loop (fuel : nat) (v : list A) (holeIndex len : nat) : list A * nat :=
  match fuel with
  | O => (v, holeIndex)
  | S fuel' =>
      if (holeIndex <? (len - 1) / 2)%nat then
        let secondChild := (2 * (holeIndex + 1))%nat in
        match v !! secondChild, v !! (secondChild - 1)%nat with
        | Some r, Some l =>
            if comp r l
            then adjust_heap_loop fuel' (<[holeIndex := l]> v) (secondChild - 1) len
            else adjust_heap_loop fuel' (<[holeIndex := r]> v) secondChild len
        | _, _ => (v, holeIndex)
        end
      else (v, holeIndex)
  end.

(** [std::__adjust_heap(first, holeIndex, len, value, comp)].  The
    distances are signed in the source, so that the test on an only child
    fails for [len = 0]. *)
Definition adjust_heap (v : list A) (holeIndex len : nat) (value : A) : list A :=
  let topIndex := holeIndex in
  let '(v1, hole1) := adjust_heap_loop len v holeIndex len in
  let '(v2, hole2) :=
    if Nat.even len && (2 <=? len)%nat && (hole1 =? (len - 2) / 2)%nat then
      let secondChild := (2 * (hole1 + 1))%nat in
      match v1 !! (secondChild - 1)%nat with
      | Some l => (<[hole1 := l]> v1, (secondChild - 1)%nat)
      | None => (v1, hole1)
      end
    else (v1, hole1) in
  push_heap_from v2 hole2 topIndex value.

(** [std::pop_heap(first, last)]: the first element goes to the back, the
    former last element is sifted in from the top. *)
Definition pop_heap (v : list A) : list A :=
  if (1 <? length v)%nat then
    match last v, head v with
    | Some value, Some top =>
        let n := (length v - 1)%nat in
        adjust_heap (<[n := top]> v) 0 n value
    | _, _ => v
    end
  else v.

(** [priority_queue::push], [priority_queue::top], [priority_queue::pop]. *)
Definition pq_push (v : list A) (x : A) : list A := push_heap (v ++ [x]).
Definition pq_top (v : list A) : option A := head v.
Definition pq_pop (v : list A) : list A := removelast (pop_heap v).

End Heap.

(* ===================================================================== *)
(** * Engine.h, Engine.cpp *)
(* ===================================================================== *)

Module TradeRecord.
Record t := mk {
  entry_timestamp_us : Z;
  exit_timestamp_us : Z;
  symbol : string;
  entry_price : float;
  exit_price : float;
  quantity : float;
  pnl : float;
  regime : string
}.
End TradeRecord.

Module Position.
Record t := mk {
  symbol : string;
  quantity : float;
  avg_price : float;
  direction : Direction;
  entry_timestamp_us : Z;
  entry_regime : string
}.
End Position.

(** [Backtester::EventComparator]: a min-heap on the timestamp. *)
Definition EventComparator (a b : Event) : bool :=
  (getTimestamp a >? getTimestamp b)%Z.

Module Backtester.

#[local] Open Scope float_scope.

Record t := mk {
  event_queue_ : list Event;
  strategies_ : StdMap.t Strategy.NewsMomentumStrategy;
  tick_data_ : StdMap.t (list Tick);
  positions_ : StdMap.t Position.t;
  trade_log_ : list TradeRecord.t;
  latency_ms_ : float;
  current_time_us_ : Z
}.

(** The engine together with the classifier objects its strategies
    point to. *)
Record World := mkWorld {
  engine : t;
  classifiers : ClassifierStore
}.

Definition ctor (latency_ms : float) : t :=
  mk [] StdMap.empty StdMap.empty StdMap.empty [] latency_ms 0.

Definition set_event_queue (b : t) (q : list Event) : t :=
  mk q (strategies_ b) (tick_data_ b) (positions_ b) (trade_log_ b)
     (latency_ms_ b) (current_time_us_ b).
Definition set_strategies (b : t) (m : StdMap.t Strategy.NewsMomentumStrategy) : t :=
  mk (event_queue_ b) m (tick_data_ b) (positions_ b) (trade_log_ b)
     (latency_ms_ b) (current_time_us_ b).
Definition set_tick_data (b : t) (m : StdMap.t (list Tick)) : t :=
  mk (event_queue_ b) (strategies_ b) m (positions_ b) (trade_log_ b)
     (latency_ms_ b) (current_time_us_ b).
Definition set_positions (b : t) (m : StdMap.t Position.t) : t :=
  mk (event_queue_ b) (strategies_ b) (tick_data_ b) m (trade_log_ b)
     (latency_ms_ b) (current_time_us_ b).
Definition set_trade_log (b : t) (l : list TradeRecord.t) : t :=
  mk (event_queue_ b) (strategies_ b) (tick_data_ b) (positions_ b) l
     (latency_ms_ b) (current_time_us_ b).
Definition set_current_time_us (b : t) (ts : Z) : t :=
  mk (event_queue_ b) (strategies_ b) (tick_data_ b) (positions_ b) (trade_log_ b)
     (latency_ms_ b) ts.

Definition push_event (b : t) (e : Event) : t :=
  set_event_queue b (pq_push EventComparator (event_queue_ b) e).

(** [loadTickData] after [TickLoader::loadFromCSV] returned [ticks]; the
    boolean is the return value. *)
Definition loadTickData (b : t) (ticks : list Tick) (symbol : string) : bool * t :=
  match ticks with
  | [] => (false, b)
  | _ =>
      let b1 := set_tick_data b (StdMap.insert symbol ticks (tick_data_ b)) in
      (true,
       fold_left (fun b tick => push_event b (MarketUpdateEvent (timestamp_us tick) tick))
                 ticks b1)
  end.

Definition registerStrategy (b : t) (symbol : string)
    (strategy : Strategy.NewsMomentumStrategy) : t :=
  set_strategies b (StdMap.insert symbol strategy (strategies_ b)).

Definition latency_us (b : t) : Z := Z_of_float (latency_ms_ b * 1000.0).

Definition applyLatency (b : t) (timestamp_us : Z) : Z :=
  Int64.add timestamp_us (latency_us b).

(** The first symbol, in key order, whose first tick is at most 1000
    seconds before the event's tick. *)
Fixpoint match_symbol (event_tick : Tick) (data : StdMap.t (list Tick)) : string :=
  match data with
  | [] => EmptyString
  | (sym, ticks) :: rest =>
      match ticks with
      | [] => match_symbol event_tick rest
      | first_tick :: _ =>
          let likely_match :=
            (timestamp_us event_tick >=? timestamp_us first_tick)%Z
            && (timestamp_us event_tick
                <=? Int64.add (timestamp_us first_tick) 1000000000)%Z in
          if likely_match then sym else match_symbol event_tick rest
      end
  end.

Definition string_empty (s : string) : bool :=
  match s with EmptyString => true | _ => false end.

Definition resolve_symbol (b : t) (event_tick : Tick) : string :=
  let event_symbol := match_symbol event_tick (tick_data_ b) in
  if string_empty event_symbol && negb (length (tick_data_ b) =? 0)%nat then
    if (length (tick_data_ b) =? 1)%nat then
      match tick_data_ b with (sym, _) :: _ => sym | [] => event_symbol end
    else
      match strategies_ b with (sym, _) :: _ => sym | [] => event_symbol end
  else event_symbol.

Definition processMarketUpdate (w : World) (ts : Z) (tick : Tick) : World :=
  let b := engine w in
  let event_symbol := resolve_symbol b tick in
  if string_empty event_symbol then w
  else
    match StdMap.find event_symbol (strategies_ b) with
    | Some strategy =>
        let '(strategy', store', signals) :=
          Strategy.processMarketUpdate strategy (classifiers w) ts tick in
        let b1 := set_strategies b (StdMap.insert event_symbol strategy' (strategies_ b)) in
        mkWorld (fold_left push_event signals b1) store'
    | None => w
    end.

Definition processSignalEvent (b : t) (ts : Z) (symbol : string) (direction : Direction)
    (quantity price : float) : t :=
  push_event b (OrderEvent ts symbol direction quantity price).

(** The price of the first tick at or after [fill_timestamp_us]. *)
Fixpoint price_at (ticks : list Tick) (fill_timestamp_us : Z) (fill_price : float) : float :=
  match ticks with
  | [] => fill_price
  | tick :: rest =>
      if (timestamp_us tick >=? fill_timestamp_us)%Z then price tick
      else price_at rest fill_timestamp_us fill_price
  end.

(** The fill that [processOrderEvent] constructs for an order. *)
Definition fill_of_order (b : t) (ts : Z) (symbol : string) (direction : Direction)
    (quantity price : float) : Event :=
  let fill_timestamp_us := applyLatency b ts in
  let fill_price :=
    match StdMap.find symbol (tick_data_ b) with
    | Some ticks => price_at ticks fill_timestamp_us price
    | None => price
    end in
  let commission := fill_price * quantity * 0.0001 in
  FillEvent fill_timestamp_us symbol direction quantity fill_price commission.

Definition processOrderEvent (b : t) (ts : Z) (symbol : string) (direction : Direction)
    (quantity price : float) : t :=
  push_event b (fill_of_order b ts symbol direction quantity price).

Definition closePosition (b : t) (symbol : string) (exit_price : float) (timestamp_us : Z)
  : t :=
  match StdMap.find symbol (positions_ b) with
  | None => b
  | Some position =>
      if Position.quantity position =? 0.0 then b
      else
        let pnl :=
          if Direction_eqb (Position.direction position) LONG
          then (exit_price - Position.avg_price position) * Position.quantity position
          else (Position.avg_price position - exit_price) * Position.quantity position in
        let trade :=
          TradeRecord.mk (Position.entry_timestamp_us position) timestamp_us symbol
            (Position.avg_price position) exit_price (Position.quantity position) pnl
            (Position.entry_regime position) in
        let position' :=
          Position.mk (Position.symbol position) 0.0 0.0 (Position.direction position) 0
            (Position.entry_regime position) in
        set_positions (set_trade_log b (trade_log_ b ++ [trade]))
          (StdMap.insert symbol position' (positions_ b))
  end.

Definition new_position (symbol : string) : Position.t :=
  Position.mk symbol 0.0 0.0 LONG 0 "UNKNOWN".

Definition updatePosition (b : t) (ts : Z) (symbol : string) (direction : Direction)
    (quantity fill_price : float) : t :=
  let '(position, positions) := StdMap.index (new_position symbol) symbol (positions_ b) in
  let b := set_positions b positions in
  match direction with
  | EXIT =>
      if negb (Position.quantity position =? 0.0)
      then closePosition b symbol fill_price ts
      else b
  | LONG =>
      if Position.quantity position =? 0.0 then
        let entry_regime :=
          if StdMap.contains symbol (strategies_ b) then "TRENDING"%string
          else Position.entry_regime position in
        set_positions b
          (StdMap.insert symbol
             (Position.mk (Position.symbol position) quantity fill_price LONG ts entry_regime)
             positions)
      else
        let total_cost :=
          Position.avg_price position * Position.quantity position
          + fill_price * quantity in
        let quantity' := Position.quantity position + quantity in
        set_positions b
          (StdMap.insert symbol
             (Position.mk (Position.symbol position) quantity' (total_cost / quantity')
                (Position.direction position) (Position.entry_timestamp_us position)
                (Position.entry_regime position))
             positions)
  | SHORT => b
  end.

Definition processFillEvent (b : t) (ts : Z) (symbol : string) (direction : Direction)
    (quantity fill_price : float) : t :=
  updatePosition b ts symbol direction quantity fill_price.

Definition processEvent (w : World) (event : Event) : World :=
  match event with
  | MarketUpdateEvent ts tick => processMarketUpdate w ts tick
  | SignalEvent ts symbol direction quantity price =>
      mkWorld (processSignalEvent (engine w) ts symbol direction quantity price)
              (classifiers w)
  | OrderEvent ts symbol direction quantity price =>
      mkWorld (processOrderEvent (engine w) ts symbol direction quantity price)
              (classifiers w)
  | FillEvent ts symbol direction quantity fill_price _ =>
      mkWorld (processFillEvent (engine w) ts symbol direction quantity fill_price)
              (classifiers w)
  end.

Definition getTradeLog (b : t) : list TradeRecord.t := trade_log_ b.

Definition getTotalPnL (b : t) : float :=
  fold_left (fun total trade => total + TradeRecord.pnl trade) (trade_log_ b) 0.0.

Definition getNumTrades (b : t) : Z := Int32.wrap (Z.of_nat (length (trade_log_ b))).

(** One turn of the loop of [run]: take the top event out of the queue,
    advance the clock, process the event. *)
Definition dispatch (w : World) : option (Event * World) :=
  match pq_top (event_queue_ (engine w)) with
  | None => None
  | Some event =>
      let b := set_event_queue (engine w) (pq_pop EventComparator (event_queue_ (engine w))) in
      let b := set_current_time_us b (getTimestamp event) in
      Some (event, processEvent (mkWorld b (classifiers w)) event)
  end.

(** The [while (!event_queue_.empty())] loop, with the events in the order
    of their dispatch. *)
Fixpoint event_loop (fuel : nat) (w : World) : World * list Event :=
  match fuel with
  | O => (w, [])
  | S fuel' =>
      match dispatch w with
      | None => (w, [])
      | Some (event, w') =>
          let '(w'', trace) := event_loop fuel' w' in
          (w'', event :: trace)
      end
  end.

(** A bound on the events an event can still cause, itself included: a
    market update yields at most one signal, a signal one order, an order
    one fill. *)
Definition event_weight (e : Event) : nat :=
  match e with
  | MarketUpdateEvent _ _ => 4
  | SignalEvent _ _ _ _ _ => 3
  | OrderEvent _ _ _ _ _ => 2
  | FillEvent _ _ _ _ _ _ => 1
  end.

Definition queue_weight (q : list Event) : nat :=
  fold_right (fun e n => (event_weight e + n)%nat) 0%nat q.

(** The body of the loop that closes the remaining positions: an open
    position of a symbol with ticks is closed at the symbol's last tick. *)
Definition close_if_open (b : t) (symbol : string) : t :=
  match StdMap.find symbol (positions_ b) with
  | Some position =>
      if negb (Position.quantity position =? 0.0) then
        let '(ticks, data) := StdMap.index [] symbol (tick_data_ b) in
        let b := set_tick_data b data in
        match last ticks with
        | Some last_tick => closePosition b symbol (price last_tick) (timestamp_us last_tick)
        | None => b
        end
      else b
  | None => b
  end.

(** "Close any remaining positions": the loop over [positions_]. *)
Definition close_remaining (b : t) : t :=
  fold_left (fun b sp => close_if_open b (fst sp)) (positions_ b) b.

(** [run()], without its printing. *)
Definition run_loop (w : World) : World * list Event :=
  event_loop (queue_weight (event_queue_ (engine w))) w.

Definition run (w : World) : World :=
  let w' := fst (run_loop w) in
  mkWorld (close_remaining (engine w')) (classifiers w').

(** The events in the order in which [run] takes them out of the queue. *)
Definition dispatch_trace (w : World) : list Event := snd (run_loop w).

End Backtester.

(* ===================================================================== *)
(** * Runs, and the vocabulary of the properties *)
(* ===================================================================== *)

(** The market updates of a run as the strategy sees them: the event's
    timestamp and its tick. *)
Definition feed (s : Strategy.NewsMomentumStrategy) (store : ClassifierStore)
    (events : list (Z * Tick))
  : Strategy.NewsMomentumStrategy * ClassifierStore * list Event :=
  fold_left
    (fun acc ev =>
       let '(s, store, emitted) := acc in
       let '(s', store', signals) := Strategy.processMarketUpdate s store (fst ev) (snd ev) in
       (s', store', emitted ++ signals))
    events (s, store, []).

Definition is_signal_of (d : Direction) (e : Event) : Prop :=
  match e with
  | SignalEvent _ _ d' _ _ => d' = d
  | _ => False
  end.

(** The public interface of [Backtester] before [run()]. *)
Inductive ApiCall :=
| LoadTickData (ticks : list Tick) (symbol : string)
| RegisterStrategy (symbol : string) (strategy : Strategy.NewsMomentumStrategy).

Definition api_call (b : Backtester.t) (c : ApiCall) : Backtester.t :=
  match c with
  | LoadTickData ticks symbol => snd (Backtester.loadTickData b ticks symbol)
  | RegisterStrategy symbol strategy => Backtester.registerStrategy b symbol strategy
  end.

(** An engine constructed with [latency_ms] and set up by [calls]. *)
Definition setup (latency_ms : float) (calls : list ApiCall) : Backtester.t :=
  fold_left api_call calls (Backtester.ctor latency_ms).

(** The state after [n] turns of the loop of [run()]. *)
Fixpoint dispatch_n (n : nat) (w : Backtester.World) : Backtester.World :=
  match n with
  | O => w
  | S n' =>
      match Backtester.dispatch w with
      | Some (_, w') => dispatch_n n' w'
      | None => w
      end
  end.

Definition position_of (b : Backtester.t) (symbol : string) : option Position.t :=
  StdMap.find symbol (Backtester.positions_ b).

(** Heap order of the first [len] cells of a vector, on integer keys: no
    cell is smaller than its parent. *)
Section HeapOrder.

Context {A : Type} (key : A -> Z).

Definition keyat (v : list A) (i : nat) : Z := from_option key 0 (v !! i).

Definition heap_ordered (len : nat) (v : list A) : Prop :=
  forall i, (0 < i < len)%nat -> keyat v ((i - 1) / 2) <= keyat v i.

Definition is_heap (v : list A) : bool :=
  forallb (fun i => keyat v ((i - 1) / 2) <=? keyat v i) (seq 1 (length v - 1)).

(** The comparison of a min-heap on [key], as [EventComparator] is. *)
Definition greater_key (a b : A) : bool := key a >? key b.

End HeapOrder.

(** An event whose timestamp can take the latency without leaving the
    range of [int64_t]; fills are not shifted any more. *)
Definition event_in_range (latency : Z) (e : Event) : bool :=
  match e with
  | FillEvent _ _ _ _ _ _ => true
  | _ => Int64.in_rangeb (getTimestamp e) && Int64.in_rangeb (getTimestamp e + latency)
  end.

Definition tick_in_range (latency : Z) (t : Tick) : bool :=
  Int64.in_rangeb (timestamp_us t) && Int64.in_rangeb (timestamp_us t + latency).

Definition call_in_range (latency : Z) (c : ApiCall) : bool :=
  match c with
  | LoadTickData ticks _ => forallb (tick_in_range latency) ticks
  | RegisterStrategy _ _ => true
  end.

(** A queue as pushes leave it, with timestamps in range. *)
Definition queue_ok (b : Backtester.t) : bool :=
  is_heap getTimestamp (Backtester.event_queue_ b)
  && forallb (event_in_range (Backtester.latency_us b)) (Backtester.event_queue_ b).

Definition nondecreasing (trace : list Event) : Prop :=
  StronglySorted (fun a b => getTimestamp a <= getTimestamp b) trace.

Definition record_ordered (r : TradeRecord.t) : Prop :=
  TradeRecord.entry_timestamp_us r <= TradeRecord.exit_timestamp_us r.

(** The round-trip bound of the design document: the exit is at least
    twice the latency [latency_us] after the entry. *)
Definition round_trip_latency (latency_us : Z) (r : TradeRecord.t) : Prop :=
  2 * latency_us <= TradeRecord.exit_timestamp_us r - TradeRecord.entry_timestamp_us r.

(** A record stamped with the last tick of its symbol, as the forced close
    at the end of the stream does. *)
Definition closed_at_last_tick (b : Backtester.t) (r : TradeRecord.t) : Prop :=
  exists ticks last_tick,
    StdMap.find (TradeRecord.symbol r) (Backtester.tick_data_ b) = Some ticks
    /\ last ticks = Some last_tick
    /\ TradeRecord.exit_timestamp_us r = timestamp_us last_tick
    /\ TradeRecord.exit_price r = price last_tick.

(** ** The entry predicate in the words of the design document

    Evaluated on the strategy as [processMarketUpdate] leaves it, that is,
    on the indicators updated with the tick. *)
Section EntryPredicate.

#[local] Open Scope float_scope.

Definition spec_indicator_conditions (s : Strategy.NewsMomentumStrategy) (tick : Tick)
  : bool :=
  let i := Strategy.indicators_ s in
  (getRelativeVolume i >=? 5.0)
  && (getGapUpPercent i >=? 10.0)
  && (price tick >? getEMA i 90)
  && (price tick >? getEMA i 200)
  && (getEMA i 90 >? getEMA i 200)
  && (getEMA i 9 >? getEMA i 90)
  && (price tick >? getVWAP i)
  && isMACDHistogramExpanding i
  && negb (ask_size tick =? 0.0)
  && (bid_size tick / ask_size tick >=? 1.5).

(** "current regime is TRENDING" *)
Definition spec_regime_trending (s : Strategy.NewsMomentumStrategy)
    (store : ClassifierStore) : bool :=
  match Strategy.regime_classifier_ s with
  | Some p =>
      RegimeClassifier.Regime_eqb
        (RegimeClassifier.getCurrentRegime (store p)) RegimeClassifier.TRENDING
  | None => false
  end.

(** The same, required only of a strategy that has a classifier. *)
Definition regime_trending_if_classified (s : Strategy.NewsMomentumStrategy)
    (store : ClassifierStore) : bool :=
  match Strategy.regime_classifier_ s with
  | Some p =>
      RegimeClassifier.Regime_eqb
        (RegimeClassifier.getCurrentRegime (store p)) RegimeClassifier.TRENDING
  | None => true
  end.

Definition default_thresholds (s : Strategy.NewsMomentumStrategy) : Prop :=
  Strategy.min_relative_volume_ s = 5.0
  /\ Strategy.min_gap_up_percent_ s = 10.0
  /\ Strategy.min_bid_ask_ratio_ s = 1.5.

End EntryPredicate.

(** ** The fill price in the words of the design document

    The price of the first tick at or after the fill timestamp, the order
    price when there is no such tick. *)
Definition spec_fill_price (ticks : list Tick) (fill_ts : Z) (order_price fill_price : float)
  : Prop :=
  (exists before tick after,
      ticks = before ++ tick :: after
      /\ Forall (fun t => timestamp_us t < fill_ts) before
      /\ fill_ts <= timestamp_us tick
      /\ fill_price = price tick)
  \/ (Forall (fun t => timestamp_us t < fill_ts) ticks /\ fill_price = order_price).

(** The tick array of a symbol; empty for a symbol without data. *)
Definition ticks_of (b : Backtester.t) (symbol : string) : list Tick :=
  from_option id [] (StdMap.find symbol (Backtester.tick_data_ b)).

(** ** First in, first out among equal timestamps

    [enqueued] lists events in the order of their [push]; of two of them
    with one timestamp, the one pushed first is dispatched first. *)
Definition fifo_among_ties (enqueued trace : list Event) : Prop :=
  forall i j e1 e2,
    (i < j)%nat -> enqueued !! i = Some e1 -> enqueued !! j = Some e2 ->
    getTimestamp e1 = getTimestamp e2 ->
    exists i' j', trace !! i' = Some e1 /\ trace !! j' = Some e2 /\ (i' < j')%nat.

(** ** Invariants of the event loop *)

Definition all_values {V : Type} (P : V -> Prop) (m : StdMap.t V) : Prop :=
  Forall (fun kv => P (snd kv)) m.

Definition queue_inv (b : Backtester.t) : Prop :=
  heap_ordered getTimestamp (length (Backtester.event_queue_ b)) (Backtester.event_queue_ b)
  /\ Forall (fun e => event_in_range (Backtester.latency_us b) e = true)
       (Backtester.event_queue_ b).

(** An open position was opened at or before time [t]. *)
Definition position_started_by (t : Z) (p : Position.t) : Prop :=
  PrimFloat.eqb (Position.quantity p) 0 = false -> Position.entry_timestamp_us p <= t.

(** What holds between two turns of the loop, [t] being the timestamp of
    the last event dispatched. *)
Definition loop_inv (t : Z) (b : Backtester.t) : Prop :=
  0 <= Backtester.latency_us b
  /\ queue_inv b
  /\ Forall (fun e => t <= getTimestamp e) (Backtester.event_queue_ b)
  /\ all_values (position_started_by t) (Backtester.positions_ b)
  /\ Forall record_ordered (Backtester.trade_log_ b).

(** An engine as the set-up calls leave it. *)
Definition fresh_engine (latency_ms : float) (b : Backtester.t) : Prop :=
  Backtester.latency_ms_ b = latency_ms
  /\ queue_inv b
  /\ Backtester.positions_ b = []
  /\ Backtester.trade_log_ b = [].

(** ** The EMA over exact rationals *)

Definition ema_alpha (p : N) : Q := (inject_Z 2 / (inject_Z (Z.of_N p) + inject_Z 1))%Q.

(** What the map of EMAs holds for period [p] once the prices [seen] have
    been passed for it. *)
Definition ema_state_ok (p : N) (i : Indicators Q) (seen : list Q) : Prop :=
  match emas_ i !! p with
  | None => seen = []
  | Some (v, a) =>
      a = ema_alpha p /\ seen <> [] /\
      forall lo hi, Forall (fun y => (lo <= y <= hi)%Q) seen -> (lo <= v <= hi)%Q
  end.

(** The label a classifier reports, as the trade log spells regimes. *)
Definition regime_label (r : RegimeClassifier.Regime) : string :=
  match r with
  | RegimeClassifier.CHOPPY => "CHOPPY"
  | RegimeClassifier.TRENDING => "TRENDING"
  end.

(** ** Kinds of events *)

Definition is_market_update (e : Event) : bool :=
  match e with MarketUpdateEvent _ _ => true | _ => false end.

Definition is_signal (e : Event) : bool :=
  match e with SignalEvent _ _ _ _ _ => true | _ => false end.

Definition is_order (e : Event) : bool :=
  match e with OrderEvent _ _ _ _ _ => true | _ => false end.

Definition is_fill (e : Event) : bool :=
  match e with FillEvent _ _ _ _ _ _ => true | _ => false end.

Definition count_events (kind : Event -> bool) (l : list Event) : nat :=
  length (List.filter kind l).

(** The market updates that [loadTickData] pushes for the calls of a
    set-up, in the order of the calls. *)
Definition loaded_updates (calls : list ApiCall) : list Event :=
  flat_map
    (fun c =>
       match c with
       | LoadTickData ticks _ => map (fun t => MarketUpdateEvent (timestamp_us t) t) ticks
       | RegisterStrategy _ _ => []
       end)
    calls.

(** An event that does not ask for an exit. *)
Definition no_exit (e : Event) : bool :=
  match e with
  | MarketUpdateEvent _ _ => true
  | SignalEvent _ _ d _ _ | OrderEvent _ _ d _ _ | FillEvent _ _ d _ _ _ =>
      negb (Direction_eqb d EXIT)
  end.

(** Every registered strategy is flat. *)
Definition strategies_flat (b : Backtester.t) : Prop :=
  all_values (fun s => Strategy.position_ s = 0%float) (Backtester.strategies_ b).

(** Every position the engine tracks is a long one. *)
Definition positions_long (b : Backtester.t) : Prop :=
  all_values (fun p => Position.direction p = LONG) (Backtester.positions_ b).

(** The profit of a long trade: [(exit - entry) * quantity]. *)
Definition long_pnl (r : TradeRecord.t) : Prop :=
  TradeRecord.pnl r
  = ((TradeRecord.exit_price r - TradeRecord.entry_price r) * TradeRecord.quantity r)%float.

(** The events that processing [e] pushes on the queue: the signals of
    the strategy for a market update, the order for a signal, the fill for
    an order, nothing for a fill. *)
Definition emitted (w : Backtester.World) (e : Event) : list Event :=
  match e with
  | MarketUpdateEvent ts tick =>
      let b := Backtester.engine w in
      let event_symbol := Backtester.resolve_symbol b tick in
      if Backtester.string_empty event_symbol then []
      else
        match StdMap.find event_symbol (Backtester.strategies_ b) with
        | Some strategy =>
            snd (Strategy.processMarketUpdate strategy (Backtester.classifiers w) ts tick)
        | None => []
        end
  | SignalEvent ts symbol direction quantity price =>
      [OrderEvent ts symbol direction quantity price]
  | OrderEvent ts symbol direction quantity price =>
      [Backtester.fill_of_order (Backtester.engine w) ts symbol direction quantity price]
  | FillEvent _ _ _ _ _ _ => []
  end.

(** The quantity of the LONG signals of a strategy: the base size, times
    the multiplier 1.5 of the TRENDING regime when it has a classifier. *)
Definition long_quantity (s : Strategy.NewsMomentumStrategy) : float :=
  match Strategy.regime_classifier_ s with
  | Some _ => (Strategy.base_position_size_ s * 1.5)%float
  | None => Strategy.base_position_size_ s
  end.

(** ** Concrete runs

    The set-up of [main]: latency 200 ms, one symbol, one classifier
    [RegimeClassifier(100, 2)] at address 0, one strategy with the default
    thresholds. *)
Module Scenario.

#[local] Open Scope float_scope.

Definition tick_at (i : Z) (p : float) (v : Z) : Tick :=
  mkTick (i * 100000) p v 2.0 1.0.

(** Nineteen quiet ticks, 100 ms apart. *)
Definition quiet : list Tick :=
  map (fun i => tick_at (Z.of_nat i) 100.0 1) (seq 1 19).

(** Three jumps of 30 percent, the last two on heavy volume. *)
Definition rally : list Tick :=
  quiet ++ [tick_at 20 130.0 1; tick_at 21 169.0 1000; tick_at 22 220.0 100000].

(** Two jumps, then a fall back to the quiet price on thin volume. *)
Definition spike : list Tick :=
  quiet ++ [tick_at 20 130.0 1; tick_at 21 169.0 1000; tick_at 22 100.0 1].

(** Four ticks that share one timestamp, told apart by their volumes. *)
Definition simultaneous : list Tick :=
  [mkTick 5 1.0 1 1.0 1.0; mkTick 5 1.0 2 1.0 1.0;
   mkTick 5 1.0 3 1.0 1.0; mkTick 5 1.0 4 1.0 1.0].

Definition classifiers : ClassifierStore := fun _ => RegimeClassifier.ctor 100 2.

Definition strategy : Strategy.NewsMomentumStrategy :=
  Strategy.setBasePositionSize
    (Strategy.setMinBidAskRatio
       (Strategy.setMinGapUpPercent
          (Strategy.setMinRelativeVolume (Strategy.ctor "TICKER" (Some 0%nat)) 5.0)
          10.0)
       1.5)
    100.0.

Definition world (ticks : list Tick) : Backtester.World :=
  Backtester.mkWorld
    (setup 200.0 [LoadTickData ticks "TICKER"; RegisterStrategy "TICKER" strategy])
    classifiers.

(** A strategy constructed without a classifier. *)
Definition unclassified : Strategy.NewsMomentumStrategy := Strategy.ctor "TICKER" None.

Definition as_events (ticks : list Tick) : list (Z * Tick) :=
  map (fun t => (timestamp_us t, t)) ticks.

(** The twenty-first tick of [rally], and the strategies after the first
    twenty. *)
Definition tick21 : Tick := tick_at 21 169.0 1000.

Definition warmed_up :=
  feed strategy classifiers (as_events (firstn 20 rally)).

Definition warmed_up_unclassified :=
  feed unclassified classifiers (as_events (firstn 20 rally)).

(** A quiet tick followed by a jump of 30 percent on the same volume. *)
Definition jump : list Tick := [tick_at 1 100.0 1; tick_at 2 130.0 1].

(** An engine whose queue holds an entry signal and, half a second later,
    an exit signal. *)
Definition round_trip : Backtester.World :=
  Backtester.mkWorld
    (Backtester.push_event
       (Backtester.push_event (Backtester.ctor 200.0)
          (SignalEvent 0 "TICKER" LONG 100.0 10.0))
       (SignalEvent 500000 "TICKER" EXIT 100.0 12.0))
    classifiers.

(** Two symbols whose ticks overlap in time. *)
Definition two_symbols : Backtester.t :=
  setup 200.0 [LoadTickData [tick_at 1 10.0 1; tick_at 3 11.0 1] "AAA";
               LoadTickData [tick_at 2 500.0 1; tick_at 4 510.0 1] "BBB"].

(** The same, with the exit signalled 250 ms after the entry signal, once
    the entry is filled. *)
Definition quick_round_trip : Backtester.World :=
  Backtester.mkWorld
    (Backtester.push_event
       (Backtester.push_event (Backtester.ctor 200.0)
          (SignalEvent 0 "TICKER" LONG 100.0 10.0))
       (SignalEvent 250000 "TICKER" EXIT 100.0 12.0))
    classifiers.

End Scenario.

(* ===================================================================== *)
(** * Binary64 values *)
(* ===================================================================== *)

(** ** Rounding to nearest, ties to even, on integers

    The value of a finite double is an integer multiple of [2^-1074]; in
    these units, and in finer ones, rounding to the format is a function
    from integers to integers. *)

Module Rounding.

(** The integer nearest to [M / 2^g], ties to even. *)
Definition rne (M g : Z) : Z :=
  let q := M / 2 ^ g in
  let r := M mod 2 ^ g in
  if 2 * r <? 2 ^ g then q
  else if 2 ^ g <? 2 * r then q + 1
  else if Z.even q then q else q + 1.

Definition bitlen (M : Z) : Z := Z.log2 M + 1.

(** The exponent at which [M] is rounded: 53 significant bits, but not
    below [c], the exponent of the subnormal numbers. *)
Definition gexp (c M : Z) : Z := Z.max (bitlen M - prec) c.

Definition round (c M : Z) : Z := rne M (gexp c M) * 2 ^ gexp c M.

(** Rounding is symmetric in the sign. *)
Definition sround (c M : Z) : Z := if M <? 0 then - round c (- M) else round c M.

End Rounding.

Module Binary64.

(** The value of a finite double, counted in units of [2^-1074] (the
    least positive double); [0] for zeros, infinities and NaN. *)
Definition value (x : spec_float) : Z :=
  match x with
  | S754_finite s m e => cond_Zopp s (Z.pos m * 2 ^ (e + 1074))
  | _ => 0
  end.

Definition finite (x : spec_float) : bool :=
  match x with
  | S754_zero _ | S754_finite _ _ _ => true
  | _ => false
  end.

Definition with_sign (s : bool) (x : spec_float) : spec_float :=
  match x with
  | S754_zero _ => S754_zero s
  | S754_infinity _ => S754_infinity s
  | S754_nan => S754_nan
  | S754_finite _ m e => S754_finite s m e
  end.

(** [r] is the double of value [R / 2^k], or the infinity of the sign of
    [R] when [R] reaches the bound [B] of the format. *)
Definition rounds_to (r : spec_float) (k R B : Z) : Prop :=
  (finite r = true /\ valid_binary r = true /\ value r * 2 ^ k = R /\ - B < R < B)
  \/ (r = S754_infinity false /\ B <= R)
  \/ (r = S754_infinity true /\ R <= - B).

Definition is_finite (f : float) : bool := finite (Prim2SF f).

(** Finite and not below zero ([-0] included). *)
Definition is_nonneg_finite (f : float) : bool := is_finite f && (0 <=? f)%float.

End Binary64.

(** ** The weights of [updateEMA] in binary64 *)

(** [alpha = 2.0 / (period + 1.0)] and [1.0 - alpha], as [updateEMA]
    computes them, are finite and not below zero. *)
Definition ema_weights_ok (p : N) : bool :=
  let alpha := (d_of_int 2 / (d_of_int (Z.of_N p) + d_of_int 1))%dbl in
  Binary64.is_nonneg_finite alpha && Binary64.is_nonneg_finite (d_of_int 1 - alpha)%dbl.

(* ===================================================================== *)
(** * Properties *)
(* ===================================================================== *)

(** ** Machine numbers *)

Lemma Int64_wrap_in_range (z : Z) : Int64.in_range z -> Int64.wrap z = z.
Proof.
  unfold Int64.in_range, Int64.wrap, Int64.min_signed, Int64.max_signed.
  intros H. rewrite Z.mod_small; lia.
Qed.

Lemma Int64_in_rangeb_spec (z : Z) : Int64.in_rangeb z = true <-> Int64.in_range z.
Proof.
  unfold Int64.in_rangeb, Int64.in_range. rewrite andb_true_iff, !Z.leb_le. reflexivity.
Qed.


(** ** Binary64 arithmetic: rounding is monotone *)

Section RoundingFacts.

Import Rounding.

Lemma pow2_pos (g : Z) : 0 <= g -> 0 < 2 ^ g.
Proof. intros. apply Z.pow_pos_nonneg; lia. Qed.

Lemma rne_bounds (M g : Z) : 0 <= g -> M / 2 ^ g <= rne M g <= M / 2 ^ g + 1.
Proof.
  intros Hg. unfold rne. cbv zeta.
  destruct (_ <? _); [lia|]. destruct (_ <? _); [lia|]. destruct (Z.even _); lia.
Qed.

Lemma rne_mono (M M' g : Z) : 0 <= g -> M <= M' -> rne M g <= rne M' g.
Proof.
  intros Hg Hle. pose proof (pow2_pos g Hg) as Hp.
  pose proof (Z.div_le_mono M M' (2 ^ g) Hp Hle) as Hq.
  pose proof (rne_bounds M g Hg) as Hb. pose proof (rne_bounds M' g Hg) as Hb'.
  destruct (Z.eq_dec (M / 2 ^ g) (M' / 2 ^ g)) as [Heq|Hne]; [|lia].
  pose proof (Z.div_mod M (2 ^ g) ltac:(lia)) as HM.
  pose proof (Z.div_mod M' (2 ^ g) ltac:(lia)) as HM'.
  assert (Hr : M mod 2 ^ g <= M' mod 2 ^ g) by (rewrite Heq in HM; lia).
  unfold rne. cbv zeta. rewrite <- Heq.
  repeat match goal with
         | |- context [?a <? ?b] => destruct (Z.ltb_spec a b)
         end; try lia; destruct (Z.even (M / 2 ^ g)); lia.
Qed.

Lemma rne_multiple (k g : Z) : 0 <= g -> rne (k * 2 ^ g) g = k.
Proof.
  intros Hg. pose proof (pow2_pos g Hg) as Hp. unfold rne. cbv zeta.
  rewrite Z.div_mul, Z.mod_mul by lia.
  destruct (Z.ltb_spec (2 * 0) (2 ^ g)); [reflexivity | lia].
Qed.

Lemma round_mono_same (M M' g : Z) :
  0 <= g -> M <= M' -> rne M g * 2 ^ g <= rne M' g * 2 ^ g.
Proof.
  intros Hg Hle. pose proof (pow2_pos g Hg). pose proof (rne_mono M M' g Hg Hle). nia.
Qed.

Lemma bitlen_bounds (M : Z) : 0 < M -> 2 ^ (bitlen M - 1) <= M < 2 ^ bitlen M.
Proof.
  intros HM. unfold bitlen. pose proof (Z.log2_spec M HM) as H.
  replace (Z.log2 M + 1 - 1) with (Z.log2 M) by lia. exact H.
Qed.

Lemma bitlen_pos (M : Z) : 1 <= bitlen M.
Proof. unfold bitlen. pose proof (Z.log2_nonneg M). lia. Qed.

Lemma gexp_nonneg (c M : Z) : 0 <= c -> 0 <= gexp c M.
Proof. unfold gexp. lia. Qed.

Lemma pow2_split (a b : Z) : 0 <= b <= a -> 2 ^ a = 2 ^ (a - b) * 2 ^ b.
Proof. intros. rewrite <- Z.pow_add_r by lia. f_equal. lia. Qed.

(** Rounding is monotone. *)
Lemma round_mono (c M M' : Z) : 0 <= c -> 0 <= M <= M' -> round c M <= round c M'.
Proof.
  intros Hc [HM Hle]. unfold round.
  pose proof (gexp_nonneg c M Hc) as Hg. pose proof (gexp_nonneg c M' Hc) as Hg'.
  assert (HL : bitlen M <= bitlen M') by (unfold bitlen; pose proof (Z.log2_le_mono M M' Hle); lia).
  destruct (Z.eq_dec (gexp c M) (gexp c M')) as [Heq|Hne].
  - rewrite <- Heq. apply round_mono_same; assumption.
  - assert (Hlt : gexp c M < gexp c M') by (unfold gexp in *; lia).
    assert (Hg'eq : gexp c M' = bitlen M' - prec) by (unfold gexp in *; lia).
    assert (HLlt : bitlen M < bitlen M') by (unfold gexp in *; lia).
    assert (HM' : 0 < M').
    { destruct (Z.eq_dec M' 0) as [->|]; [|lia].
      assert (M = 0) by lia. subst M. lia. }
    set (T := 2 ^ (bitlen M' - 1)).
    assert (Hprec : 1 <= prec) by (unfold prec; lia).
    assert (HTM' : T <= M') by (apply bitlen_bounds; exact HM').
    assert (HMT : M <= T).
    { destruct (Z.eq_dec M 0) as [->|]; [unfold T; apply Z.lt_le_incl, pow2_pos; pose proof (bitlen_pos M'); lia|].
      pose proof (bitlen_bounds M ltac:(lia)) as [_ Hup].
      assert (2 ^ bitlen M <= T) by (unfold T; apply Z.pow_le_mono_r; lia).
      lia. }
    assert (HT1 : T = 2 ^ (bitlen M' - 1 - gexp c M) * 2 ^ gexp c M)
      by (unfold T; apply pow2_split; lia).
    assert (HT2 : T = 2 ^ (bitlen M' - 1 - gexp c M') * 2 ^ gexp c M')
      by (unfold T; apply pow2_split; lia).
    transitivity T.
    + pose proof (round_mono_same M T (gexp c M) Hg HMT) as H.
      rewrite HT1 in H. rewrite rne_multiple in H by lia. rewrite <- HT1 in H. exact H.
    + pose proof (round_mono_same T M' (gexp c M') Hg' HTM') as H.
      rewrite HT2 in H. rewrite rne_multiple in H by lia. rewrite <- HT2 in H. exact H.
Qed.

Lemma round_zero (c : Z) : 0 <= c -> round c 0 = 0.
Proof.
  intros Hc. unfold round. pose proof (gexp_nonneg c 0 Hc) as Hg.
  replace 0 with (0 * 2 ^ gexp c 0) at 1 by lia. rewrite rne_multiple by lia. lia.
Qed.

Lemma round_nonneg (c M : Z) : 0 <= c -> 0 <= M -> 0 <= round c M.
Proof.
  intros Hc HM. rewrite <- (round_zero c Hc). apply round_mono; lia.
Qed.

End RoundingFacts.

Section ShiftFacts.

Import Rounding.

Lemma digits2_pos_bounds (m : positive) :
  2 ^ (Z.pos (digits2_pos m) - 1) <= Z.pos m < 2 ^ Z.pos (digits2_pos m).
Proof.
  induction m as [m IH|m IH|]; cbn [digits2_pos].
  - rewrite Pos2Z.inj_succ.
    replace (Z.succ (Z.pos (digits2_pos m)) - 1) with (Z.succ (Z.pos (digits2_pos m) - 1)) by lia.
    rewrite !Z.pow_succ_r by lia. lia.
  - rewrite Pos2Z.inj_succ.
    replace (Z.succ (Z.pos (digits2_pos m)) - 1) with (Z.succ (Z.pos (digits2_pos m) - 1)) by lia.
    rewrite !Z.pow_succ_r by lia. lia.
  - cbn. lia.
Qed.

Lemma digits2_pos_bitlen (m : positive) : Z.pos (digits2_pos m) = bitlen (Z.pos m).
Proof.
  unfold bitlen. symmetry.
  pose proof (digits2_pos_bounds m) as H.
  rewrite (Z.log2_unique (Z.pos m) (Z.pos (digits2_pos m) - 1)); [lia | lia |].
  replace (Z.succ (Z.pos (digits2_pos m) - 1)) with (Z.pos (digits2_pos m)) by lia. exact H.
Qed.

Lemma bitlen_mul_pow2 (M k : Z) : 0 < M -> 0 <= k -> bitlen (M * 2 ^ k) = bitlen M + k.
Proof. intros. unfold bitlen. rewrite Z.log2_mul_pow2 by lia. lia. Qed.

Lemma iter_pos_iter {A : Type} (f : A -> A) (p : positive) (x : A) :
  SpecFloat.iter_pos f p x = Nat.iter (Pos.to_nat p) f x.
Proof.
  revert x. induction p as [p IH|p IH|]; intros x; cbn [SpecFloat.iter_pos].
  - rewrite !IH, Pos2Nat.inj_xI, Nat.iter_succ_r.
    replace (2 * Pos.to_nat p)%nat with (Pos.to_nat p + Pos.to_nat p)%nat by lia.
    rewrite Nat.iter_add. reflexivity.
  - rewrite !IH, Pos2Nat.inj_xO.
    replace (2 * Pos.to_nat p)%nat with (Pos.to_nat p + Pos.to_nat p)%nat by lia.
    rewrite Nat.iter_add. reflexivity.
  - reflexivity.
Qed.

Lemma shr_1_spec (m : Z) (r s : bool) :
  0 <= m ->
  shr_1 (Build_shr_record m r s) = Build_shr_record (m / 2) (Z.odd m) (r || s).
Proof.
  intros Hm. rewrite <- Z.div2_div.
  destruct m as [|p|p]; [reflexivity | | lia].
  destruct p; reflexivity.
Qed.

Lemma mod_pow2_succ (m k : Z) :
  0 <= k -> m mod 2 ^ (k + 1) = m mod 2 ^ k + 2 ^ k * ((m / 2 ^ k) mod 2).
Proof.
  intros Hk. rewrite Z.pow_add_r by lia. change (2 ^ 1) with 2.
  apply Z.rem_mul_r; [pose proof (pow2_pos k Hk); lia | lia].
Qed.

Lemma shr_iter (m : Z) (k : nat) :
  0 <= m ->
  Nat.iter (S k) shr_1 (Build_shr_record m false false)
  = Build_shr_record (m / 2 ^ (Z.of_nat k + 1)) (Z.odd (m / 2 ^ Z.of_nat k))
      (negb (m mod 2 ^ Z.of_nat k =? 0)).
Proof.
  intros Hm. induction k as [|k IH].
  - cbn [Nat.iter]. rewrite shr_1_spec by lia. cbn [Z.of_nat].
    rewrite Z.pow_0_r, Z.div_1_r, Z.mod_1_r. reflexivity.
  - change (Nat.iter (S (S k)) shr_1 ?x) with (shr_1 (Nat.iter (S k) shr_1 x)).
    rewrite IH. pose proof (pow2_pos (Z.of_nat k) ltac:(lia)) as Hp.
    pose proof (pow2_pos (Z.of_nat k + 1) ltac:(lia)) as Hp1.
    rewrite shr_1_spec by (apply Z.div_pos; lia).
    replace (Z.of_nat (S k)) with (Z.of_nat k + 1) by lia.
    f_equal.
    + rewrite Z.div_div by lia. f_equal. rewrite (Z.pow_add_r 2 (Z.of_nat k + 1) 1) by lia.
      reflexivity.
    + rewrite mod_pow2_succ by lia. rewrite Zmod_odd.
      pose proof (Z.mod_pos_bound m (2 ^ Z.of_nat k) Hp) as Hb.
      destruct (Z.odd (m / 2 ^ Z.of_nat k)); cbn [orb].
      * symmetry. apply negb_true_iff, Z.eqb_neq. lia.
      * rewrite Z.mul_0_r, Z.add_0_r. reflexivity.
Qed.

(** Shifting right by [n >= 1] and rounding to nearest even is [rne]. *)
Lemma shr_rne (m e : Z) (n : positive) :
  0 <= m ->
  let '(mrs, e') := shr (Build_shr_record m false false) e (Z.pos n) in
  round_nearest_even (shr_m mrs) (loc_of_shr_record mrs) = rne m (Z.pos n)
  /\ e' = e + Z.pos n.
Proof.
  intros Hm. cbn [shr]. split; [|reflexivity].
  rewrite iter_pos_iter.
  destruct (Pos2Nat.is_succ n) as [k Hk]. rewrite Hk, shr_iter by lia.
  assert (Hn : Z.pos n = Z.of_nat k + 1) by lia. rewrite Hn.
  pose proof (pow2_pos (Z.of_nat k) ltac:(lia)) as Hp.
  unfold rne. cbv zeta. rewrite (mod_pow2_succ m (Z.of_nat k)) by lia.
  rewrite (Z.pow_add_r 2 (Z.of_nat k) 1) by lia. change (2 ^ 1) with 2.
  rewrite Zmod_odd.
  pose proof (Z.mod_pos_bound m (2 ^ Z.of_nat k) Hp) as Hb.
  cbn [shr_m loc_of_shr_record].
  destruct (Z.odd (m / 2 ^ Z.of_nat k)); destruct (Z.eqb_spec (m mod 2 ^ Z.of_nat k) 0) as [Hz|Hz];
    cbn [negb round_nearest_even];
    repeat match goal with
           | |- context [?a <? ?b] => destruct (Z.ltb_spec a b)
           end; try lia; try reflexivity.
Qed.

Lemma shr_m_exact (m e : Z) (n : positive) :
  0 <= m ->
  shr_m (fst (shr (Build_shr_record m false false) e (Z.pos n))) = m / 2 ^ Z.pos n
  /\ snd (shr (Build_shr_record m false false) e (Z.pos n)) = e + Z.pos n.
Proof.
  intros Hm. cbn [shr fst snd]. split; [|reflexivity].
  rewrite iter_pos_iter.
  destruct (Pos2Nat.is_succ n) as [k Hk]. rewrite Hk, shr_iter by lia.
  cbn [shr_m]. f_equal. f_equal. lia.
Qed.

End ShiftFacts.

Section RoundAux.

Import Rounding.

Lemma fexp_eq (k : Z) : fexp prec emax k = Z.max (k - 53) (-1074).
Proof. reflexivity. Qed.

Lemma rne_scale (m n k : Z) : 0 <= n -> 0 <= k -> rne (m * 2 ^ k) (n + k) = rne m n.
Proof.
  intros Hn Hk. pose proof (pow2_pos n Hn) as Hpn. pose proof (pow2_pos k Hk) as Hpk.
  unfold rne. cbv zeta. rewrite Z.pow_add_r by lia.
  rewrite Z.div_mul_cancel_r, Z.mul_mod_distr_r by lia.
  pose proof (Z.mod_pos_bound m (2 ^ n) Hpn) as Hb.
  repeat match goal with
         | |- context [?a <? ?b] => destruct (Z.ltb_spec a b)
         end; try reflexivity; nia.
Qed.

Lemma rne_zero_shift (m : Z) : rne m 0 = m.
Proof.
  unfold rne. cbv zeta. rewrite Z.pow_0_r, Z.div_1_r, Z.mod_1_r. reflexivity.
Qed.

(** The first stage of [binary_round_aux]: shift to the exponent of the
    format and round. *)
Lemma shr_fexp_round (m : positive) (e : Z) :
  e <= fexp prec emax (Z.pos (digits2_pos m) + e) ->
  round_nearest_even
    (shr_m (fst (shr_fexp prec emax (Z.pos m) e loc_Exact)))
    (loc_of_shr_record (fst (shr_fexp prec emax (Z.pos m) e loc_Exact)))
  = rne (Z.pos m) (fexp prec emax (Z.pos (digits2_pos m) + e) - e)
  /\ snd (shr_fexp prec emax (Z.pos m) e loc_Exact)
     = fexp prec emax (Z.pos (digits2_pos m) + e).
Proof.
  intros Hn. unfold shr_fexp. cbn [Zdigits2 shr_record_of_loc].
  set (E := fexp prec emax (Z.pos (digits2_pos m) + e)) in *.
  destruct (E - e) as [|n|n] eqn:Hd; [| |lia].
  - cbn [shr fst snd shr_m loc_of_shr_record round_nearest_even].
    rewrite rne_zero_shift. split; [reflexivity | lia].
  - pose proof (shr_rne (Z.pos m) e n ltac:(lia)) as H.
    destruct (shr _ e (Z.pos n)) as [mrs e']. cbn [fst snd]. destruct H as [H1 H2].
    split; [exact H1 | lia].
Qed.

(** The second stage: the rounded mantissa is shifted once more only
    when rounding carried into [2^prec]. *)
Lemma shr_fexp_again (m1 E : Z) :
  0 <= m1 ->
  fexp prec emax (Zdigits2 m1 + E) = E ->
  shr_fexp prec emax m1 E loc_Exact = (Build_shr_record m1 false false, E).
Proof.
  intros Hm Hf. unfold shr_fexp. rewrite Hf, Z.sub_diag. reflexivity.
Qed.

Lemma shr_fexp_carry (E : Z) :
  -1074 <= E ->
  shr_m (fst (shr_fexp prec emax (2 ^ 53) E loc_Exact)) = 2 ^ 52
  /\ snd (shr_fexp prec emax (2 ^ 53) E loc_Exact) = E + 1.
Proof.
  intros HE. unfold shr_fexp.
  assert (Hd : Zdigits2 (2 ^ 53) = 54) by reflexivity.
  rewrite Hd, fexp_eq. replace (Z.max (54 + E - 53) (-1074) - E) with 1 by lia.
  cbn [shr_record_of_loc].
  destruct (shr_m_exact (2 ^ 53) E 1 ltac:(lia)) as [H1 H2].
  rewrite H1, H2. split; reflexivity.
Qed.

Lemma Zdigits2_bitlen (m : Z) : 0 < m -> Zdigits2 m = bitlen m.
Proof.
  intros Hm. destruct m as [|p|p]; try lia. cbn [Zdigits2]. apply digits2_pos_bitlen.
Qed.

Lemma bitlen_unique (m d : Z) : 1 <= d -> 2 ^ (d - 1) <= m < 2 ^ d -> bitlen m = d.
Proof.
  intros Hd H. unfold bitlen. rewrite (Z.log2_unique m (d - 1)); [lia | lia |].
  replace (Z.succ (d - 1)) with d by lia. exact H.
Qed.

Lemma bitlen_le (m d : Z) : 0 <= d -> m <= 2 ^ d -> bitlen m <= d + 1.
Proof.
  intros Hd Hle. unfold bitlen.
  pose proof (Z.log2_le_mono m (2 ^ d) Hle) as H. rewrite Z.log2_pow2 in H by lia. lia.
Qed.

End RoundAux.

Section RoundAuxCases.

Import Rounding.

Lemma binary_round_aux_unfold (m e : Z) :
  binary_round_aux prec emax false m e loc_Exact
  = let first := shr_fexp prec emax m e loc_Exact in
    let second :=
      shr_fexp prec emax
        (round_nearest_even (shr_m (fst first)) (loc_of_shr_record (fst first)))
        (snd first) loc_Exact in
    match shr_m (fst second) with
    | Z0 => S754_zero false
    | Zpos m' =>
        if snd second <=? emax - prec then S754_finite false m' (snd second)
        else S754_infinity false
    | Zneg _ => S754_nan
    end.
Proof.
  unfold binary_round_aux. destruct (shr_fexp prec emax m e loc_Exact) as [mrs' e'].
  cbn [fst snd]. destruct (shr_fexp prec emax _ e' loc_Exact) as [mrs'' e'']. reflexivity.
Qed.

(** What [binary_round_aux] returns on a positive mantissa that is not
    coarser than the format: the mantissa [m1] rounded at the exponent [E]
    of the format, renormalised when rounding carried. *)
Lemma binary_round_aux_cases (m : positive) (e : Z) :
  let E := fexp prec emax (Z.pos (digits2_pos m) + e) in
  let m1 := rne (Z.pos m) (E - e) in
  e <= E ->
  (m1 = 0 /\ E = -1074
   /\ binary_round_aux prec emax false (Z.pos m) e loc_Exact = S754_zero false)
  \/ (0 < m1 < 2 ^ 53 /\ (E = -1074 \/ 2 ^ 52 <= m1)
      /\ binary_round_aux prec emax false (Z.pos m) e loc_Exact
         = if E <=? 971 then S754_finite false (Z.to_pos m1) E else S754_infinity false)
  \/ (m1 = 2 ^ 53 /\ -1074 <= E
      /\ binary_round_aux prec emax false (Z.pos m) e loc_Exact
         = if E + 1 <=? 971 then S754_finite false (Z.to_pos (2 ^ 52)) (E + 1)
           else S754_infinity false).
Proof.
  intros E m1 Hn.
  pose proof (shr_fexp_round m e Hn) as [Hr He].
  fold E in Hr, He. fold m1 in Hr.
  rewrite binary_round_aux_unfold. cbv zeta. rewrite Hr, He. clear Hr He.
  pose proof (digits2_pos_bounds m) as Hd.
  set (d := Z.pos (digits2_pos m)) in *.
  assert (HE : E = Z.max (d + e - 53) (-1074)) by (unfold E; apply fexp_eq).
  set (n := E - e) in *. assert (Hn0 : 0 <= n) by (unfold n; lia).
  pose proof (pow2_pos n Hn0) as Hpn.
  pose proof (rne_bounds (Z.pos m) n Hn0) as Hb. fold m1 in Hb.
  assert (Hq0 : 0 <= Z.pos m / 2 ^ n) by (apply Z.div_pos; lia).
  assert (Hcase : (E = d + e - 53 /\ 2 ^ 52 <= Z.pos m / 2 ^ n < 2 ^ 53)
                  \/ (E = -1074 /\ Z.pos m / 2 ^ n < 2 ^ 52)).
  { destruct (Z.le_gt_cases (-1074) (d + e - 53)) as [Hge|Hlt].
    - left. split; [lia|]. assert (Hdn : d = 53 + n) by (unfold n; lia).
      rewrite Hdn in Hd. replace (53 + n - 1) with (52 + n) in Hd by lia.
      rewrite !Z.pow_add_r in Hd by lia. split.
      + apply Z.div_le_lower_bound; lia.
      + apply Z.div_lt_upper_bound; lia.
    - right. split; [lia|]. apply Z.div_lt_upper_bound; [lia|].
      assert (Hdn : d <= 52 + n) by (unfold n; lia).
      assert (2 ^ d <= 2 ^ (52 + n)) by (apply Z.pow_le_mono_r; lia).
      rewrite Z.pow_add_r in H by lia. lia. }
  assert (Hm1 : m1 = 0 /\ E = -1074 \/ 0 < m1 < 2 ^ 53 /\ (E = -1074 \/ 2 ^ 52 <= m1)
                \/ m1 = 2 ^ 53 /\ -1074 <= E) by lia.
  destruct Hm1 as [[Hz Hmin]|[[Hpos Hnorm]|[Hcarry HEm]]].
  - left. split; [exact Hz|]. split; [exact Hmin|].
    rewrite Hz, shr_fexp_again; [reflexivity | lia |].
    cbn [Zdigits2]. rewrite fexp_eq. lia.
  - right. left. split; [exact Hpos|]. split; [exact Hnorm|].
    rewrite shr_fexp_again; [| lia |].
    + cbn [fst snd shr_m]. destruct m1 as [|p|p]; try lia. reflexivity.
    + rewrite Zdigits2_bitlen by lia. rewrite fexp_eq.
      destruct Hnorm as [Hmin|Hbig].
      * pose proof (bitlen_le m1 53 ltac:(lia) ltac:(lia)).
        destruct (Z.eq_dec m1 (2 ^ 53)); [lia|].
        assert (bitlen m1 <= 53); [|lia].
        unfold bitlen. assert (Z.log2 m1 < 53); [|lia]. apply Z.log2_lt_pow2; lia.
      * rewrite (bitlen_unique m1 53); [lia | lia |]. change (53 - 1) with 52. lia.
  - right. right. split; [exact Hcarry|]. split; [exact HEm|].
    rewrite Hcarry. destruct (shr_fexp_carry E HEm) as [H1 H2]. rewrite H1, H2.
    reflexivity.
Qed.

End RoundAuxCases.

Section RoundAuxValue.

Import Rounding.

Lemma pow2_add (a b : Z) : 0 <= a -> 0 <= b -> 2 ^ (a + b) = 2 ^ a * 2 ^ b.
Proof. intros. apply Z.pow_add_r; lia. Qed.

Lemma scaled_le (a b x y : Z) :
  0 < a -> a <= b -> 0 < x -> 0 < y -> a * y <= b * (x * y).
Proof.
  intros Ha Hab Hx Hy. apply Z.le_trans with (b * y); [nia|].
  assert (0 <= b * y * (x - 1)) by (apply Z.mul_nonneg_nonneg; nia). nia.
Qed.

(** [binary_round_aux] rounds the value: with values counted in units of
    [2^t], [t] at most the least exponent, the result is [round] of the
    exact value, and it overflows exactly when that reaches [2^emax]. *)
Lemma binary_round_aux_round (m : positive) (e t : Z) :
  e <= fexp prec emax (Z.pos (digits2_pos m) + e) ->
  t <= e -> t <= -1074 ->
  let R := round (-1074 - t) (Z.pos m * 2 ^ (e - t)) in
  (binary_round_aux prec emax false (Z.pos m) e loc_Exact = S754_zero false /\ R = 0)
  \/ (exists m'' e'',
         binary_round_aux prec emax false (Z.pos m) e loc_Exact = S754_finite false m'' e''
         /\ bounded prec emax m'' e'' = true
         /\ Z.pos m'' * 2 ^ (e'' - t) = R /\ R < 2 ^ (1024 - t))
  \/ (binary_round_aux prec emax false (Z.pos m) e loc_Exact = S754_infinity false
      /\ 2 ^ (1024 - t) <= R).
Proof.
  intros Hn Hte Ht R.
  set (E := fexp prec emax (Z.pos (digits2_pos m) + e)) in *.
  assert (HE : E = Z.max (Z.pos (digits2_pos m) + e - 53) (-1074)) by (unfold E; apply fexp_eq).
  assert (Hg : gexp (-1074 - t) (Z.pos m * 2 ^ (e - t)) = E - t).
  { unfold gexp. rewrite bitlen_mul_pow2, <- digits2_pos_bitlen by lia.
    change prec with 53. lia. }
  assert (HR : R = rne (Z.pos m) (E - e) * 2 ^ (E - t)).
  { unfold R, round. rewrite Hg. f_equal.
    replace (E - t) with ((E - e) + (e - t)) by lia. apply rne_scale; lia. }
  clearbody R. subst R.
  pose proof (pow2_pos (E - t) ltac:(lia)) as HpE.
  destruct (binary_round_aux_cases m e Hn) as [(Hz & Hmin & ->)|[(Hpos & Hnorm & ->)|(Hc & HEm & ->)]];
    fold E in Hz || fold E in Hpos, Hnorm || fold E in Hc.
  - left. split; [reflexivity|]. fold E. rewrite Hz. reflexivity.
  - fold E. set (m1 := rne (Z.pos m) (E - e)) in *.
    destruct (Z.leb_spec E 971) as [Hfin|Hinf].
    + right. left. exists (Z.to_pos m1), E. split; [reflexivity|].
      rewrite Z2Pos.id by lia. split; [|split; [reflexivity|]].
      * unfold bounded, canonical_mantissa. rewrite digits2_pos_bitlen, Z2Pos.id by lia.
        apply andb_true_intro. split; [|apply Z.leb_le; change (emax - prec) with 971; lia].
        apply Z.eqb_eq. rewrite fexp_eq.
        destruct Hnorm as [Hmin|Hbig].
        -- assert (bitlen m1 <= 53); [|lia].
           unfold bitlen. assert (Z.log2 m1 < 53); [|lia]. apply Z.log2_lt_pow2; lia.
        -- rewrite (bitlen_unique m1 53); [lia | lia |]. change (53 - 1) with 52. lia.
      * replace (1024 - t) with (53 + (971 - E) + (E - t)) by lia.
        rewrite !pow2_add by lia.
        pose proof (pow2_pos (971 - E) ltac:(lia)). nia.
    + right. right. split; [reflexivity|].
      destruct Hnorm as [Hmin|Hbig]; [lia|].
      replace (E - t) with ((E - 972) + (1024 - t - 52)) by lia.
      replace (1024 - t) with (52 + (1024 - t - 52)) at 1 by lia.
      rewrite !pow2_add by lia.
      pose proof (pow2_pos (E - 972) ltac:(lia)).
      pose proof (pow2_pos (1024 - t - 52) ltac:(lia)).
      apply scaled_le; lia.
  - fold E. rewrite Hc.
    destruct (Z.leb_spec (E + 1) 971) as [Hfin|Hinf].
    + right. left. exists (Z.to_pos (2 ^ 52)), (E + 1). split; [reflexivity|].
      split; [|split].
      * unfold bounded, canonical_mantissa.
        apply andb_true_intro. split; [|apply Z.leb_le; change (emax - prec) with 971; lia].
        apply Z.eqb_eq. rewrite fexp_eq.
        change (Z.pos (digits2_pos (Z.to_pos (2 ^ 52)))) with 53. lia.
      * change (Z.pos (Z.to_pos (2 ^ 52))) with (2 ^ 52).
        replace (E + 1 - t) with (1 + (E - t)) by lia. rewrite pow2_add by lia.
        change (2 ^ 53) with (2 ^ 52 * 2 ^ 1). ring.
      * replace (1024 - t) with (53 + (970 - E) + 1 + (E - t)) by lia.
        rewrite !pow2_add by lia.
        pose proof (pow2_pos (970 - E) ltac:(lia)). change (2 ^ 1) with 2. nia.
    + right. right. split; [reflexivity|].
      replace (E - t) with ((E - 971) + (1024 - t - 53)) by lia.
      replace (1024 - t) with (53 + (1024 - t - 53)) at 1 by lia.
      rewrite !pow2_add by lia.
      pose proof (pow2_pos (E - 971) ltac:(lia)).
      pose proof (pow2_pos (1024 - t - 53) ltac:(lia)).
      apply scaled_le; lia.
Qed.

End RoundAuxValue.

Section SpecFloatOrder.

Import Rounding Binary64.

Lemma bounded_spec (m : positive) (e : Z) :
  bounded prec emax m e = true ->
  -1074 <= e <= 971 /\ Z.pos m < 2 ^ 53 /\ (e = -1074 \/ 2 ^ 52 <= Z.pos m).
Proof.
  unfold bounded, canonical_mantissa. intros H.
  apply andb_prop in H. destruct H as [Hc He].
  apply Z.eqb_eq in Hc. apply Z.leb_le in He. change (emax - prec) with 971 in He.
  rewrite fexp_eq, digits2_pos_bitlen in Hc.
  pose proof (bitlen_bounds (Z.pos m) ltac:(lia)) as [Hlo Hhi].
  split; [lia|]. split.
  - apply Z.lt_le_trans with (2 ^ bitlen (Z.pos m)); [exact Hhi|].
    apply Z.pow_le_mono_r; lia.
  - destruct (Z.eq_dec e (-1074)) as [|Hne]; [left; assumption|right].
    assert (Hd : bitlen (Z.pos m) = 53) by lia.
    rewrite Hd in Hlo. exact Hlo.
Qed.

Lemma magnitude_pos (m : positive) (e : Z) : -1074 <= e -> 0 < Z.pos m * 2 ^ (e + 1074).
Proof. intros He. pose proof (pow2_pos (e + 1074) ltac:(lia)). nia. Qed.

Lemma magnitude_bound (m : positive) (e : Z) :
  bounded prec emax m e = true -> Z.pos m * 2 ^ (e + 1074) < 2 ^ 2098.
Proof.
  intros Hv. destruct (bounded_spec m e Hv) as (He & Hm & _).
  set (k := e + 1074) in *.
  replace 2098 with (53 + (971 - e) + k) by lia.
  rewrite !pow2_add by lia.
  pose proof (pow2_pos (971 - e) ltac:(lia)).
  pose proof (pow2_pos k ltac:(lia)).
  apply Z.lt_le_trans with (2 ^ 53 * 2 ^ k).
  - apply Z.mul_lt_mono_pos_r; lia.
  - apply Z.mul_le_mono_nonneg_r; [lia|].
    apply Z.le_trans with (2 ^ 53 * 1); [lia|].
    apply Z.mul_le_mono_nonneg_l; lia.
Qed.

Lemma magnitude_lt (m1 m2 : positive) (e1 e2 : Z) :
  bounded prec emax m1 e1 = true -> bounded prec emax m2 e2 = true -> e1 < e2 ->
  Z.pos m1 * 2 ^ (e1 + 1074) < Z.pos m2 * 2 ^ (e2 + 1074).
Proof.
  intros Hv1 Hv2 Hlt.
  destruct (bounded_spec m1 e1 Hv1) as (He1 & Hm1 & Hn1).
  destruct (bounded_spec m2 e2 Hv2) as (He2 & Hm2 & Hn2).
  set (k1 := e1 + 1074) in *. set (k2 := e2 + 1074) in *.
  pose proof (pow2_pos k1 ltac:(lia)) as Hp1.
  destruct Hn2 as [Hn2|Hn2]; [lia|].
  replace k2 with ((e2 - e1 - 1) + 1 + k1) by lia.
  rewrite !pow2_add by lia. change (2 ^ 1) with 2.
  pose proof (pow2_pos (e2 - e1 - 1) ltac:(lia)).
  apply Z.lt_le_trans with (2 ^ 53 * 2 ^ k1).
  - apply Z.mul_lt_mono_pos_r; lia.
  - change (2 ^ 53) with (2 ^ 52 * 2).
    rewrite !Z.mul_assoc. apply Z.mul_le_mono_nonneg_r; [lia|].
    apply Z.le_trans with (Z.pos m2 * 1 * 2); [lia|].
    apply Z.mul_le_mono_nonneg_r; [lia|].
    apply Z.mul_le_mono_nonneg_l; lia.
Qed.

Lemma magnitude_compare (m1 m2 : positive) (e1 e2 : Z) :
  bounded prec emax m1 e1 = true -> bounded prec emax m2 e2 = true ->
  match e1 ?= e2 with
  | Lt => Lt
  | Gt => Gt
  | Eq => Pos.compare_cont Eq m1 m2
  end = (Z.pos m1 * 2 ^ (e1 + 1074) ?= Z.pos m2 * 2 ^ (e2 + 1074)).
Proof.
  intros Hv1 Hv2. symmetry.
  destruct (Z.compare_spec e1 e2) as [Heq|Hlt|Hgt].
  - subst e2. destruct (bounded_spec m1 e1 Hv1) as (He1 & _).
    pose proof (pow2_pos (e1 + 1074) ltac:(lia)) as Hp.
    rewrite Pos.compare_cont_spec. cbn [Pos.switch_Eq].
    destruct (Pos.compare_spec m1 m2) as [Hm|Hm|Hm].
    + subst m2. apply Z.compare_refl.
    + apply Z.compare_lt_iff. apply Z.mul_lt_mono_pos_r; lia.
    + apply Z.compare_gt_iff. apply Z.mul_lt_mono_pos_r; lia.
  - apply Z.compare_lt_iff. apply magnitude_lt; assumption.
  - apply Z.compare_gt_iff. apply magnitude_lt; assumption.
Qed.

(** On finite doubles the comparison of the format is the comparison of
    the values. *)
Lemma SFcompare_value (x y : spec_float) :
  valid_binary x = true -> valid_binary y = true ->
  finite x = true -> finite y = true ->
  SFcompare x y = Some (value x ?= value y).
Proof.
  intros Hvx Hvy Hx Hy.
  destruct x as [sx| | |sx mx ex]; try discriminate Hx;
    destruct y as [sy| | |sy my ey]; try discriminate Hy; cbn in Hvx, Hvy.
  - reflexivity.
  - destruct (bounded_spec my ey Hvy) as (He & _).
    pose proof (magnitude_pos my ey ltac:(lia)) as Hp.
    cbn [SFcompare value]. f_equal. symmetry.
    destruct sy; cbn [cond_Zopp]; [apply Z.compare_gt_iff|apply Z.compare_lt_iff]; lia.
  - destruct (bounded_spec mx ex Hvx) as (He & _).
    pose proof (magnitude_pos mx ex ltac:(lia)) as Hp.
    cbn [SFcompare value]. f_equal. symmetry.
    destruct sx; cbn [cond_Zopp]; [apply Z.compare_lt_iff|apply Z.compare_gt_iff]; lia.
  - destruct (bounded_spec mx ex Hvx) as (Hex & _).
    destruct (bounded_spec my ey Hvy) as (Hey & _).
    pose proof (magnitude_pos mx ex ltac:(lia)) as Hpx.
    pose proof (magnitude_pos my ey ltac:(lia)) as Hpy.
    cbn [SFcompare value]. f_equal.
    destruct sx, sy; cbn [cond_Zopp].
    + rewrite Z.compare_opp, <- (magnitude_compare my mx ey ex Hvy Hvx).
      rewrite (Z.compare_antisym ex ey).
      destruct (ex ?= ey); cbn [CompOpp]; try reflexivity.
      rewrite Pos.compare_cont_antisym. reflexivity.
    + symmetry. apply Z.compare_lt_iff. lia.
    + symmetry. apply Z.compare_gt_iff. lia.
    + apply magnitude_compare; assumption.
Qed.

Lemma SFleb_value (x y : spec_float) :
  valid_binary x = true -> valid_binary y = true ->
  finite x = true -> finite y = true ->
  SFleb x y = true <-> value x <= value y.
Proof.
  intros Hvx Hvy Hx Hy. unfold SFleb. rewrite SFcompare_value by assumption.
  unfold Z.le. destruct (value x ?= value y); split; congruence.
Qed.

End SpecFloatOrder.

Section SpecFloatArith.

Import Rounding Binary64.

Lemma sround_mono (c M M' : Z) : 0 <= c -> M <= M' -> sround c M <= sround c M'.
Proof.
  intros Hc Hle. unfold sround.
  destruct (Z.ltb_spec M 0) as [Hn|Hp]; destruct (Z.ltb_spec M' 0) as [Hn'|Hp']; try lia.
  - pose proof (round_mono c (- M') (- M) Hc ltac:(lia)). lia.
  - pose proof (round_nonneg c (- M) Hc ltac:(lia)).
    pose proof (round_nonneg c M' Hc Hp'). lia.
  - apply round_mono; lia.
Qed.

Lemma sround_cond_Zopp (c : Z) (s : bool) (P : Z) :
  0 <= c -> 0 <= P -> sround c (cond_Zopp s P) = cond_Zopp s (round c P).
Proof.
  intros Hc HP. unfold sround.
  destruct s; cbn [cond_Zopp].
  - destruct (Z.ltb_spec (- P) 0) as [Hn|Hz].
    + rewrite Z.opp_involutive. reflexivity.
    + assert (P = 0) by lia. subst P. change (- 0) with 0.
      rewrite (round_zero c Hc). reflexivity.
  - destruct (Z.ltb_spec P 0); [lia|reflexivity].
Qed.

Lemma round_magnitude (m : positive) (e : Z) :
  bounded prec emax m e = true ->
  round 0 (Z.pos m * 2 ^ (e + 1074)) = Z.pos m * 2 ^ (e + 1074).
Proof.
  intros Hv. destruct (bounded_spec m e Hv) as (He & Hm & Hn).
  set (k := e + 1074).
  assert (Hg : gexp 0 (Z.pos m * 2 ^ k) = k).
  { unfold gexp. rewrite bitlen_mul_pow2 by lia. change prec with 53.
    pose proof (bitlen_bounds (Z.pos m) ltac:(lia)) as [Hlo Hhi].
    destruct Hn as [Hn|Hn].
    - assert (bitlen (Z.pos m) <= 53); [|lia].
      unfold bitlen. assert (Z.log2 (Z.pos m) < 53); [|lia].
      apply Z.log2_lt_pow2; lia.
    - rewrite (bitlen_unique (Z.pos m) 53); [lia | lia |].
      change (53 - 1) with 52. lia. }
  unfold round. rewrite Hg, rne_multiple by lia. reflexivity.
Qed.

Lemma value_bounds (x : spec_float) :
  valid_binary x = true -> - 2 ^ 2098 < value x < 2 ^ 2098.
Proof.
  pose proof (pow2_pos 2098 ltac:(lia)) as HB.
  destruct x as [s| | |s m e]; cbn [value SpecFloat.valid_binary]; intros Hv; try lia.
  pose proof (magnitude_bound m e Hv).
  destruct (bounded_spec m e Hv) as (He & _).
  pose proof (magnitude_pos m e ltac:(lia)).
  destruct s; cbn [cond_Zopp]; lia.
Qed.

Lemma sround_value (x : spec_float) :
  valid_binary x = true -> sround 0 (value x) = value x.
Proof.
  destruct x as [s| | |s m e]; cbn [value SpecFloat.valid_binary]; intros Hv;
    try (unfold sround; cbn; apply round_zero; lia).
  destruct (bounded_spec m e Hv) as (He & _).
  pose proof (magnitude_pos m e ltac:(lia)).
  rewrite sround_cond_Zopp, round_magnitude by (assumption || lia). reflexivity.
Qed.

Lemma rounds_to_zero (s : bool) (k R B : Z) :
  R = 0 -> 0 < B -> rounds_to (S754_zero s) k R B.
Proof. intros -> HB. left. repeat split; lia. Qed.

Lemma binary_round_aux_sign (s : bool) (m e : Z) (l : location) :
  binary_round_aux prec emax s m e l = with_sign s (binary_round_aux prec emax false m e l).
Proof.
  unfold binary_round_aux. destruct (shr_fexp prec emax m e l) as [mrs' e'].
  destruct (shr_fexp prec emax _ e' loc_Exact) as [mrs'' e''].
  destruct (shr_m mrs''); [reflexivity| |reflexivity].
  destruct (e'' <=? emax - prec); reflexivity.
Qed.

Lemma binary_round_sign (s : bool) (m : positive) (e : Z) :
  binary_round prec emax s m e = with_sign s (binary_round prec emax false m e).
Proof.
  unfold binary_round. destruct (shl_align m e _) as [mz ez].
  apply binary_round_aux_sign.
Qed.

(** From the result on magnitudes to the signed result. *)
Lemma with_sign_rounds_to (s : bool) (r0 : spec_float) (R0 t : Z) :
  t <= -1074 ->
  (r0 = S754_zero false /\ R0 = 0)
  \/ (exists m e,
         r0 = S754_finite false m e /\ bounded prec emax m e = true
         /\ Z.pos m * 2 ^ (e - t) = R0 /\ R0 < 2 ^ (1024 - t))
  \/ (r0 = S754_infinity false /\ 2 ^ (1024 - t) <= R0) ->
  rounds_to (with_sign s r0) (-1074 - t) (cond_Zopp s R0) (2 ^ (1024 - t)).
Proof.
  intros Ht H. pose proof (pow2_pos (1024 - t) ltac:(lia)) as HB.
  destruct H as [(-> & ->)|[(m & e & -> & Hb & HR & Hlt)|(-> & Hge)]]; cbn [with_sign].
  - apply rounds_to_zero; [destruct s; reflexivity|exact HB].
  - left. destruct (bounded_spec m e Hb) as (He & _).
    pose proof (magnitude_pos m e ltac:(lia)) as Hpos.
    pose proof (pow2_pos (-1074 - t) ltac:(lia)) as Hpk.
    assert (HR' : Z.pos m * 2 ^ (e + 1074) * 2 ^ (-1074 - t) = R0).
    { rewrite <- HR. replace (e - t) with ((e + 1074) + (-1074 - t)) by lia.
      rewrite (pow2_add (e + 1074) (-1074 - t)) by lia. ring. }
    assert (0 < R0) by (rewrite <- HR'; apply Z.mul_pos_pos; assumption).
    split; [reflexivity|]. split; [exact Hb|]. cbn [value].
    destruct s; cbn [cond_Zopp]; (split; [|lia]).
    + rewrite Z.mul_opp_l, HR'. reflexivity.
    + exact HR'.
  - destruct s; cbn [cond_Zopp].
    + right. right. split; [reflexivity|lia].
    + right. left. split; [reflexivity|lia].
Qed.

(** The product of two finite doubles is the rounded exact product, or
    an infinity when that reaches [2^1024]. *)
Lemma SFmul_value (x y : spec_float) :
  valid_binary x = true -> valid_binary y = true ->
  finite x = true -> finite y = true ->
  rounds_to (SFmul prec emax x y) 1074 (sround 1074 (value x * value y)) (2 ^ 3172).
Proof.
  intros Hvx Hvy Hx Hy.
  pose proof (pow2_pos 3172 ltac:(lia)) as HB.
  destruct x as [sx| | |sx mx ex]; try discriminate Hx;
    destruct y as [sy| | |sy my ey]; try discriminate Hy;
    try (cbn [SFmul value]; apply rounds_to_zero; [|exact HB];
         rewrite ?Z.mul_0_l, ?Z.mul_0_r; unfold sround; cbn [Z.ltb Z.compare];
         apply round_zero; lia).
  cbn in Hvx, Hvy.
  destruct (bounded_spec mx ex Hvx) as (Hex & Hmx & Hnx).
  destruct (bounded_spec my ey Hvy) as (Hey & Hmy & Hny).
  pose proof (magnitude_pos mx ex ltac:(lia)) as Hpx.
  pose proof (magnitude_pos my ey ltac:(lia)) as Hpy.
  cbn [SFmul value]. rewrite binary_round_aux_sign.
  set (P := Z.pos mx * 2 ^ (ex + 1074) * (Z.pos my * 2 ^ (ey + 1074))).
  assert (HP : 0 < P) by (apply Z.mul_pos_pos; assumption).
  assert (Hprod : cond_Zopp sx (Z.pos mx * 2 ^ (ex + 1074)) * cond_Zopp sy (Z.pos my * 2 ^ (ey + 1074))
                  = cond_Zopp (xorb sx sy) P).
  { unfold P. destruct sx, sy; cbn [cond_Zopp xorb]; ring. }
  rewrite Hprod, sround_cond_Zopp by lia.
  assert (HM : Z.pos (mx * my) * 2 ^ (ex + ey - -2148) = P).
  { unfold P. rewrite Pos2Z.inj_mul.
    replace (ex + ey - -2148) with ((ex + 1074) + (ey + 1074)) by lia.
    rewrite (pow2_add (ex + 1074) (ey + 1074)) by lia. ring. }
  assert (Hn : ex + ey <= fexp prec emax (Z.pos (digits2_pos (mx * my)) + (ex + ey))).
  { rewrite fexp_eq, digits2_pos_bitlen.
    destruct (Z.le_gt_cases (ex + ey) (-1074)) as [|Hbig]; [lia|].
    assert (53 <= bitlen (Z.pos (mx * my))); [|lia].
    assert (Hge : 2 ^ 52 <= Z.pos (mx * my)).
    { rewrite Pos2Z.inj_mul. destruct Hnx as [Hnx|Hnx].
      - destruct Hny as [Hny|Hny]; [lia|]. nia.
      - nia. }
    unfold bitlen. assert (52 <= Z.log2 (Z.pos (mx * my))); [|lia].
    apply Z.log2_le_pow2; lia. }
  pose proof (binary_round_aux_round (mx * my) (ex + ey) (-2148) Hn ltac:(lia) ltac:(lia)) as H.
  cbn zeta in H. rewrite HM in H.
  apply (with_sign_rounds_to (xorb sx sy) _ _ (-2148) ltac:(lia)) in H.
  exact H.
Qed.

Lemma Pos_iter_xO (m d : positive) : Z.pos (Pos.iter xO m d) = Z.pos m * 2 ^ Z.pos d.
Proof.
  induction d as [|d IH] using Pos.peano_ind.
  - cbn [Pos.iter]. change (2 ^ 1) with 2. lia.
  - rewrite Pos.iter_succ, Pos2Z.inj_xO, IH, Pos2Z.inj_succ, Z.pow_succ_r by lia. ring.
Qed.

Lemma shl_align_spec (m : positive) (e e' : Z) :
  e' <= e -> shl_align m e e' = (Z.to_pos (Z.pos m * 2 ^ (e - e')), e').
Proof.
  intros Hle. unfold shl_align.
  destruct (e' - e) as [|d|d] eqn:Hd.
  - assert (e' = e) by lia. subst e'. rewrite Z.sub_diag.
    change (2 ^ 0) with 1. rewrite Z.mul_1_r. reflexivity.
  - lia.
  - replace (e - e') with (Z.pos d) by lia.
    rewrite <- Pos_iter_xO. reflexivity.
Qed.

Lemma shl_align_skip (m : positive) (e e' : Z) :
  e <= e' -> shl_align m e e' = (m, e).
Proof.
  intros Hle. unfold shl_align.
  destruct (e' - e) as [|d|d] eqn:Hd; try reflexivity. lia.
Qed.

(** [binary_round] of a positive integer multiple of [2^e], [e] not below
    the least exponent. *)
Lemma binary_round_round (s : positive) (e : Z) :
  -1074 <= e ->
  let R := round 0 (Z.pos s * 2 ^ (e + 1074)) in
  (binary_round prec emax false s e = S754_zero false /\ R = 0)
  \/ (exists m'' e'',
         binary_round prec emax false s e = S754_finite false m'' e''
         /\ bounded prec emax m'' e'' = true
         /\ Z.pos m'' * 2 ^ (e'' - -1074) = R /\ R < 2 ^ (1024 - -1074))
  \/ (binary_round prec emax false s e = S754_infinity false /\ 2 ^ (1024 - -1074) <= R).
Proof.
  intros He R. unfold binary_round.
  set (E0 := fexp prec emax (Z.pos (digits2_pos s) + e)).
  assert (HE0 : E0 = Z.max (bitlen (Z.pos s) + e - 53) (-1074)).
  { unfold E0. rewrite fexp_eq, digits2_pos_bitlen. reflexivity. }
  destruct (Z.le_gt_cases e E0) as [Hle|Hgt].
  - rewrite shl_align_skip by exact Hle.
    pose proof (binary_round_aux_round s e (-1074) Hle ltac:(lia) ltac:(lia)) as H.
    cbn zeta in H. change (-1074 - -1074) with 0 in H.
    replace (e - -1074) with (e + 1074) in H by lia. exact H.
  - rewrite shl_align_spec by lia.
    pose proof (pow2_pos (e - E0) ltac:(lia)) as Hp.
    set (mz := Z.to_pos (Z.pos s * 2 ^ (e - E0))).
    assert (Hmz : Z.pos mz = Z.pos s * 2 ^ (e - E0)) by (unfold mz; rewrite Z2Pos.id; nia).
    assert (Hn : E0 <= fexp prec emax (Z.pos (digits2_pos mz) + E0)).
    { rewrite fexp_eq, digits2_pos_bitlen, Hmz, bitlen_mul_pow2 by lia. lia. }
    pose proof (binary_round_aux_round mz E0 (-1074) Hn ltac:(lia) ltac:(lia)) as H.
    cbn zeta in H. change (-1074 - -1074) with 0 in H.
    assert (HM : Z.pos mz * 2 ^ (E0 - -1074) = Z.pos s * 2 ^ (e + 1074)).
    { rewrite Hmz. replace (e + 1074) with ((e - E0) + (E0 - -1074)) by lia.
      rewrite (pow2_add (e - E0)) by lia. ring. }
    rewrite HM in H. exact H.
Qed.

(** The sum of two finite doubles is the rounded exact sum, or an
    infinity when that reaches [2^1024]. *)
Lemma SFadd_value (x y : spec_float) :
  valid_binary x = true -> valid_binary y = true ->
  finite x = true -> finite y = true ->
  rounds_to (SFadd prec emax x y) 0 (sround 0 (value x + value y)) (2 ^ 2098).
Proof.
  intros Hvx Hvy Hx Hy.
  pose proof (pow2_pos 2098 ltac:(lia)) as HB.
  assert (Hself : forall z, valid_binary z = true -> finite z = true ->
                            rounds_to z 0 (sround 0 (value z)) (2 ^ 2098)).
  { intros z Hvz Hz. left. rewrite (sround_value z Hvz).
    split; [exact Hz|]. split; [exact Hvz|]. split; [cbn; lia|].
    apply value_bounds. exact Hvz. }
  destruct x as [sx| | |sx mx ex]; try discriminate Hx;
    destruct y as [sy| | |sy my ey]; try discriminate Hy.
  - cbn [value Z.add]. destruct sx, sy; cbn [SFadd];
      (apply rounds_to_zero; [unfold sround; cbn [Z.ltb Z.compare]; apply round_zero; lia|exact HB]).
  - cbn [SFadd]. change (value (S754_zero sx)) with 0. rewrite Z.add_0_l.
    apply Hself; assumption.
  - cbn [SFadd]. change (value (S754_zero sy)) with 0. rewrite Z.add_0_r.
    apply Hself; assumption.
  - clear Hself. cbn in Hvx, Hvy.
    destruct (bounded_spec mx ex Hvx) as (Hex & Hmx & Hnx).
    destruct (bounded_spec my ey Hvy) as (Hey & Hmy & Hny).
    cbn [SFadd value].
    set (ez := Z.min ex ey).
    rewrite !shl_align_spec by (unfold ez; lia). cbn [fst].
    pose proof (pow2_pos (ex - ez) ltac:(unfold ez; lia)) as Hpx.
    pose proof (pow2_pos (ey - ez) ltac:(unfold ez; lia)) as Hpy.
    rewrite !Z2Pos.id by nia.
    set (sum := cond_Zopp sx (Z.pos mx * 2 ^ (ex - ez)) + cond_Zopp sy (Z.pos my * 2 ^ (ey - ez))).
    pose proof (pow2_pos (ez + 1074) ltac:(unfold ez; lia)) as Hpz.
    assert (HM : cond_Zopp sx (Z.pos mx * 2 ^ (ex + 1074)) + cond_Zopp sy (Z.pos my * 2 ^ (ey + 1074))
                 = sum * 2 ^ (ez + 1074)).
    { unfold sum.
      replace (ex + 1074) with ((ex - ez) + (ez + 1074)) by lia.
      replace (ey + 1074) with ((ey - ez) + (ez + 1074)) by lia.
      rewrite (pow2_add (ex - ez)), (pow2_add (ey - ez)) by (unfold ez; lia).
      destruct sx, sy; cbn [cond_Zopp]; ring. }
    rewrite HM. clearbody sum.
    destruct sum as [|s|s]; cbn [binary_normalize].
    + apply rounds_to_zero; [|exact HB]. cbn [Z.mul]. unfold sround. cbn [Z.ltb Z.compare].
      apply round_zero; lia.
    + pose proof (binary_round_round s ez ltac:(unfold ez; lia)) as H. cbn zeta in H.
      apply (with_sign_rounds_to false _ _ (-1074) ltac:(lia)) in H.
      rewrite <- binary_round_sign in H.
      change (sround 0 (Z.pos s * 2 ^ (ez + 1074)))
        with (sround 0 (cond_Zopp false (Z.pos s * 2 ^ (ez + 1074)))).
      rewrite (sround_cond_Zopp 0 false) by lia.
      exact H.
    + pose proof (binary_round_round s ez ltac:(unfold ez; lia)) as H. cbn zeta in H.
      apply (with_sign_rounds_to true _ _ (-1074) ltac:(lia)) in H.
      rewrite <- binary_round_sign in H.
      rewrite <- Pos2Z.opp_pos, Z.mul_opp_l.
      change (- (Z.pos s * 2 ^ (ez + 1074))) with (cond_Zopp true (Z.pos s * 2 ^ (ez + 1074))).
      rewrite (sround_cond_Zopp 0 true) by lia.
      exact H.
Qed.

End SpecFloatArith.

Section Binary64Monotone.

Import Rounding Binary64.

Lemma rounds_to_finite (r : spec_float) (k R B : Z) :
  rounds_to r k R B -> finite r = true -> value r * 2 ^ k = R /\ - B < R < B.
Proof.
  intros [(_ & _ & HR & Hb)|[(-> & _)|(-> & _)]] Hf; try discriminate Hf.
  split; assumption.
Qed.

Lemma rounds_to_inside (r : spec_float) (k R B : Z) :
  rounds_to r k R B -> - B < R < B -> finite r = true /\ value r * 2 ^ k = R.
Proof.
  intros [(Hf & _ & HR & _)|[(_ & Hge)|(_ & Hle)]] Hb; try lia.
  split; assumption.
Qed.

Lemma SFmul_finite_inv (x y : spec_float) :
  finite (SFmul prec emax x y) = true -> finite x = true /\ finite y = true.
Proof.
  destruct x as [sx|sx| |sx mx ex], y as [sy|sy| |sy my ey];
    try (intros _; split; reflexivity); cbn [SFmul finite]; discriminate.
Qed.

Lemma SFadd_finite_inv (x y : spec_float) :
  finite (SFadd prec emax x y) = true -> finite x = true /\ finite y = true.
Proof.
  destruct x as [sx|sx| |sx mx ex], y as [sy|sy| |sy my ey];
    try (intros _; split; reflexivity); cbn [SFadd finite]; try discriminate.
  destruct sx, sy; cbn [finite]; discriminate.
Qed.

Lemma leb_value (x y : float) :
  is_finite x = true -> is_finite y = true ->
  (x <=? y)%float = true <-> value (Prim2SF x) <= value (Prim2SF y).
Proof.
  intros Hx Hy. rewrite leb_spec. apply SFleb_value; auto using Prim2SF_valid.
Qed.

Lemma finite_between (l x h : float) :
  is_finite l = true -> is_finite h = true ->
  (l <=? x)%float = true -> (x <=? h)%float = true -> is_finite x = true.
Proof.
  unfold is_finite. rewrite !leb_spec.
  destruct (Prim2SF x) as [sx|sx| |sx mx ex]; try reflexivity; intros Hl Hh Hlx Hxh; exfalso.
  - destruct sx.
    + destruct (Prim2SF l) as [s|s| |s m e]; try discriminate Hl; discriminate Hlx.
    + destruct (Prim2SF h) as [s|s| |s m e]; try discriminate Hh; discriminate Hxh.
  - destruct (Prim2SF l) as [s|s| |s m e]; discriminate.
Qed.

Lemma nonneg_finite_value (a : float) :
  is_nonneg_finite a = true -> is_finite a = true /\ 0 <= value (Prim2SF a).
Proof.
  unfold is_nonneg_finite. intros H. apply andb_prop in H. destruct H as [Hf Hle].
  split; [exact Hf|]. apply (leb_value 0 a) in Hle; [exact Hle|reflexivity|exact Hf].
Qed.

Lemma mul_between (a l x h : float) :
  is_nonneg_finite a = true ->
  is_finite l = true -> is_finite x = true -> is_finite h = true ->
  value (Prim2SF l) <= value (Prim2SF x) <= value (Prim2SF h) ->
  is_finite (a * l) = true -> is_finite (a * h) = true ->
  is_finite (a * x) = true
  /\ value (Prim2SF (a * l)) <= value (Prim2SF (a * x)) <= value (Prim2SF (a * h)).
Proof.
  intros Ha Hl Hx Hh [Hlx Hxh]. unfold is_finite in *. rewrite !mul_spec.
  destruct (nonneg_finite_value a Ha) as [Hfa Hva]. unfold is_finite in Hfa.
  pose proof (SFmul_value _ _ (Prim2SF_valid a) (Prim2SF_valid l) Hfa Hl) as Rl.
  pose proof (SFmul_value _ _ (Prim2SF_valid a) (Prim2SF_valid x) Hfa Hx) as Rx.
  pose proof (SFmul_value _ _ (Prim2SF_valid a) (Prim2SF_valid h) Hfa Hh) as Rh.
  unfold SF64mul. intros Hfl Hfh.
  destruct (rounds_to_finite _ _ _ _ Rl Hfl) as [El Bl].
  destruct (rounds_to_finite _ _ _ _ Rh Hfh) as [Eh Bh].
  pose proof (sround_mono 1074 _ _ ltac:(lia) (Z.mul_le_mono_nonneg_l _ _ _ Hva Hlx)) as M1.
  pose proof (sround_mono 1074 _ _ ltac:(lia) (Z.mul_le_mono_nonneg_l _ _ _ Hva Hxh)) as M2.
  destruct (rounds_to_inside _ _ _ _ Rx ltac:(lia)) as [Hfx Ex].
  split; [exact Hfx|].
  pose proof (pow2_pos 1074 ltac:(lia)) as Hp.
  rewrite <- El, <- Ex in M1. rewrite <- Ex, <- Eh in M2.
  apply Z.mul_le_mono_pos_r in M1; [|exact Hp].
  apply Z.mul_le_mono_pos_r in M2; [|exact Hp].
  split; assumption.
Qed.

Lemma add_between (ul u uh vl v vh : float) :
  is_finite ul = true -> is_finite u = true -> is_finite uh = true ->
  is_finite vl = true -> is_finite v = true -> is_finite vh = true ->
  value (Prim2SF ul) <= value (Prim2SF u) <= value (Prim2SF uh) ->
  value (Prim2SF vl) <= value (Prim2SF v) <= value (Prim2SF vh) ->
  is_finite (ul + vl) = true -> is_finite (uh + vh) = true ->
  is_finite (u + v) = true
  /\ value (Prim2SF (ul + vl)) <= value (Prim2SF (u + v)) <= value (Prim2SF (uh + vh)).
Proof.
  intros Hul Hu Huh Hvl Hv Hvh [Hu1 Hu2] [Hv1 Hv2]. unfold is_finite in *. rewrite !add_spec.
  pose proof (SFadd_value _ _ (Prim2SF_valid ul) (Prim2SF_valid vl) Hul Hvl) as Rl.
  pose proof (SFadd_value _ _ (Prim2SF_valid u) (Prim2SF_valid v) Hu Hv) as Rx.
  pose proof (SFadd_value _ _ (Prim2SF_valid uh) (Prim2SF_valid vh) Huh Hvh) as Rh.
  unfold SF64add. intros Hfl Hfh.
  destruct (rounds_to_finite _ _ _ _ Rl Hfl) as [El Bl].
  destruct (rounds_to_finite _ _ _ _ Rh Hfh) as [Eh Bh].
  pose proof (sround_mono 0 (value (Prim2SF ul) + value (Prim2SF vl))
                (value (Prim2SF u) + value (Prim2SF v)) ltac:(lia) ltac:(lia)) as M1.
  pose proof (sround_mono 0 (value (Prim2SF u) + value (Prim2SF v))
                (value (Prim2SF uh) + value (Prim2SF vh)) ltac:(lia) ltac:(lia)) as M2.
  destruct (rounds_to_inside _ _ _ _ Rx ltac:(lia)) as [Hfx Ex].
  split; [exact Hfx|].
  change (2 ^ 0) with 1 in El, Ex, Eh. rewrite Z.mul_1_r in El, Ex, Eh.
  lia.
Qed.

(** One step of the EMA recurrence with weights [a] and [b]. *)
Lemma step_finite_inv (a b e x : float) :
  is_finite (a * x + b * e) = true -> is_finite x = true /\ is_finite e = true.
Proof.
  unfold is_finite. rewrite add_spec, !mul_spec. intros H.
  apply SFadd_finite_inv in H. destruct H as [H1 H2].
  apply SFmul_finite_inv in H1. apply SFmul_finite_inv in H2. tauto.
Qed.

Lemma step_between (a b l x h el e eh : float) :
  is_nonneg_finite a = true -> is_nonneg_finite b = true ->
  is_finite x = true -> is_finite e = true ->
  value (Prim2SF l) <= value (Prim2SF x) <= value (Prim2SF h) ->
  value (Prim2SF el) <= value (Prim2SF e) <= value (Prim2SF eh) ->
  is_finite (a * l + b * el) = true -> is_finite (a * h + b * eh) = true ->
  is_finite (a * x + b * e) = true
  /\ value (Prim2SF (a * l + b * el)) <= value (Prim2SF (a * x + b * e))
     <= value (Prim2SF (a * h + b * eh)).
Proof.
  intros Ha Hb Hx He Hxs Hes Hfl Hfh.
  destruct (step_finite_inv _ _ _ _ Hfl) as [Hl Hel].
  destruct (step_finite_inv _ _ _ _ Hfh) as [Hh Heh].
  assert (Hml : is_finite (a * l) = true /\ is_finite (b * el) = true).
  { unfold is_finite in *. rewrite add_spec in Hfl. apply SFadd_finite_inv in Hfl. exact Hfl. }
  assert (Hmh : is_finite (a * h) = true /\ is_finite (b * eh) = true).
  { unfold is_finite in *. rewrite add_spec in Hfh. apply SFadd_finite_inv in Hfh. exact Hfh. }
  destruct Hml as [Hal Hbl], Hmh as [Hah Hbh].
  destruct (mul_between a l x h Ha Hl Hx Hh Hxs Hal Hah) as [Hax Hxo].
  destruct (mul_between b el e eh Hb Hel He Heh Hes Hbl Hbh) as [Hbe Heo].
  apply add_between; assumption.
Qed.

Lemma fold_finite_start (a b : float) (xs : list float) (e : float) :
  is_finite (fold_left (fun ema price => a * price + b * ema)%float xs e) = true ->
  is_finite e = true.
Proof.
  revert e. induction xs as [|x xs IH]; intros e Hf; [exact Hf|].
  cbn [fold_left] in Hf. apply IH in Hf. apply step_finite_inv in Hf. tauto.
Qed.

Lemma fold_between (a b lo hi : float) (xs : list float) :
  is_nonneg_finite a = true -> is_nonneg_finite b = true ->
  Forall (fun x => is_finite x = true
                   /\ value (Prim2SF lo) <= value (Prim2SF x) <= value (Prim2SF hi)) xs ->
  forall el e eh : float,
    is_finite e = true ->
    value (Prim2SF el) <= value (Prim2SF e) <= value (Prim2SF eh) ->
    let run ys start := fold_left (fun ema price => a * price + b * ema)%float ys start in
    is_finite (run (repeat lo (length xs)) el) = true ->
    is_finite (run (repeat hi (length xs)) eh) = true ->
    is_finite (run xs e) = true
    /\ value (Prim2SF (run (repeat lo (length xs)) el)) <= value (Prim2SF (run xs e))
       <= value (Prim2SF (run (repeat hi (length xs)) eh)).
Proof.
  intros Ha Hb Hall. induction Hall as [|x xs [Hx Hxs] Hall IH]; intros el e eh He Hes run.
  - cbn. intros _ _. split; [exact He|exact Hes].
  - cbn [length repeat]. unfold run. cbn [fold_left]. intros Hfl Hfh.
    pose proof (fold_finite_start _ _ _ _ Hfl) as Hsl.
    pose proof (fold_finite_start _ _ _ _ Hfh) as Hsh.
    destruct (step_between a b lo x hi el e eh Ha Hb Hx He Hxs Hes Hsl Hsh) as [Hfx Ho].
    apply IH; assumption.
Qed.

End Binary64Monotone.

Section EMAWeights.

Import Rounding Binary64.

Lemma round_pow2 (c k : Z) : 0 <= c <= k -> round c (2 ^ k) = 2 ^ k.
Proof.
  intros Hk. unfold round, gexp.
  pose proof (pow2_pos k ltac:(lia)) as Hp.
  assert (Hb : bitlen (2 ^ k) = k + 1) by (unfold bitlen; rewrite Z.log2_pow2; lia).
  rewrite Hb. change prec with 53.
  set (g := Z.max (k + 1 - 53) c).
  replace (2 ^ k) with (2 ^ (k - g) * 2 ^ g) at 1
    by (rewrite <- pow2_add by lia; f_equal; lia).
  rewrite rne_multiple by lia. rewrite <- pow2_add by lia. f_equal. lia.
Qed.

(** [binary_round_aux] on a mantissa that already has the width of the
    format: the mantissa, or the next one, at the same exponent. *)
Lemma binary_round_aux_in_place (m e : Z) (l : location) :
  0 < m ->
  fexp prec emax (Zdigits2 m + e) = e ->
  fexp prec emax (Zdigits2 (m + 1) + e) = e ->
  e <= 971 ->
  exists m1 : positive,
    binary_round_aux prec emax false m e l = S754_finite false m1 e
    /\ m <= Z.pos m1 <= m + 1 /\ bounded prec emax m1 e = true.
Proof.
  intros Hm H0 H1 He. unfold binary_round_aux. unfold shr_fexp at 1.
  rewrite H0, Z.sub_diag. cbn [shr].
  set (m1 := round_nearest_even (shr_m (shr_record_of_loc m l))
               (loc_of_shr_record (shr_record_of_loc m l))).
  assert (Hm1 : m1 = m \/ m1 = m + 1).
  { unfold m1. destruct l as [|[| |]]; cbn; auto. destruct (Z.even m); auto. }
  assert (Hf : fexp prec emax (Zdigits2 m1 + e) = e) by (destruct Hm1 as [->| ->]; assumption).
  rewrite (shr_fexp_again m1 e) by (lia || exact Hf). cbn [shr_m].
  destruct m1 as [|q|q] eqn:Hq; try lia.
  assert (Hle : (e <=? emax - prec) = true) by (apply Z.leb_le; change (emax - prec) with 971; lia).
  rewrite Hle. exists q. split; [reflexivity|]. split; [lia|].
  unfold bounded, canonical_mantissa. apply andb_true_intro. split; [|exact Hle].
  apply Z.eqb_eq. exact Hf.
Qed.

Lemma float_of_Z_cases (z : Z) :
  1 <= z ->
  (is_finite (float_of_Z z) = true /\ 2 ^ 1074 <= value (Prim2SF (float_of_Z z)))
  \/ Prim2SF (float_of_Z z) = S754_infinity false.
Proof.
  intros Hz. destruct z as [|q|q]; try lia.
  unfold float_of_Z, is_finite. cbn [binary_normalize].
  pose proof (binary_round_round q 0 ltac:(lia)) as H. cbn zeta in H.
  pose proof (pow2_pos 1074 ltac:(lia)) as HU.
  assert (HR : 2 ^ 1074 <= round 0 (Z.pos q * 2 ^ (0 + 1074))).
  { rewrite <- (round_pow2 0 1074) at 1 by lia. apply round_mono; [lia|].
    change (0 + 1074) with 1074. nia. }
  destruct H as [(_ & H0)|[(m & e & -> & Hb & Hv & _)|(-> & _)]].
  - lia.
  - left. rewrite Prim2SF_SF2Prim by exact Hb. split; [reflexivity|].
    cbn [value cond_Zopp]. replace (e + 1074) with (e - -1074) by lia. rewrite Hv. exact HR.
  - right. apply Prim2SF_SF2Prim. reflexivity.
Qed.

Lemma Prim2SF_one : Prim2SF (float_of_Z 1) = S754_finite false 4503599627370496 (-52).
Proof. vm_compute. reflexivity. Qed.

Lemma Prim2SF_two : Prim2SF (float_of_Z 2) = S754_finite false 4503599627370496 (-51).
Proof. vm_compute. reflexivity. Qed.

Lemma value_one : value (S754_finite false 4503599627370496 (-52)) = 2 ^ 1074.
Proof. vm_compute. reflexivity. Qed.

Lemma valid_one : valid_binary (S754_finite false 4503599627370496 (-52)) = true.
Proof. reflexivity. Qed.

Lemma period_plus_one_cases (z : Z) :
  1 <= z ->
  let y := (float_of_Z z + float_of_Z 1)%float in
  (is_finite y = true /\ 2 ^ 1075 <= value (Prim2SF y))
  \/ Prim2SF y = S754_infinity false.
Proof.
  intros Hz y. unfold y, is_finite. rewrite add_spec, Prim2SF_one.
  destruct (float_of_Z_cases z Hz) as [[Hf Hv]| ->]; [|right; reflexivity].
  pose proof (SFadd_value _ _ (Prim2SF_valid (float_of_Z z)) valid_one Hf eq_refl) as HR.
  rewrite value_one in HR.
  pose proof (pow2_pos 1074 ltac:(lia)) as HU.
  pose proof (pow2_pos 2098 ltac:(lia)) as HB.
  assert (Hlow : 2 ^ 1075 <= sround 0 (value (Prim2SF (float_of_Z z)) + 2 ^ 1074)).
  { replace (2 ^ 1075) with (sround 0 (2 ^ 1074 + 2 ^ 1074)).
    - apply sround_mono; lia.
    - replace (2 ^ 1074 + 2 ^ 1074) with (2 ^ 1075)
        by (change 1075 with (1 + 1074); rewrite pow2_add by lia; change (2 ^ 1) with 2; lia).
      unfold sround. pose proof (pow2_pos 1075 ltac:(lia)).
      destruct (Z.ltb_spec (2 ^ 1075) 0); [lia|]. apply round_pow2. lia. }
  unfold SF64add. destruct HR as [(Hfr & _ & Hvr & _)|[(-> & _)|(_ & Hneg)]].
  - left. split; [exact Hfr|]. change (2 ^ 0) with 1 in Hvr. rewrite Z.mul_1_r in Hvr.
    rewrite Hvr. exact Hlow.
  - right. reflexivity.
  - lia.
Qed.

(** [2.0 / y] for a finite [y >= 2.0] is finite, between 0 and 1. *)
Lemma two_over_cases (y : spec_float) :
  valid_binary y = true -> finite y = true -> 2 ^ 1075 <= value y ->
  let r := SFdiv prec emax (S754_finite false 4503599627370496 (-51)) y in
  finite r = true /\ 0 <= value r <= 2 ^ 1074.
Proof.
  intros Hv Hf Hy.
  pose proof (pow2_pos 1075 ltac:(lia)) as HU.
  destruct y as [s| | |s my ey]; try discriminate Hf; cbn [value] in Hy; try lia.
  cbn in Hv. destruct (bounded_spec my ey Hv) as (He & Hmy & Hn).
  pose proof (magnitude_pos my ey ltac:(lia)) as Hpos.
  destruct s; cbn [cond_Zopp] in Hy; [lia|].
  (* y is normal, with exponent at least -51 *)
  assert (Hey : -51 <= ey).
  { destruct (Z.le_gt_cases (-51) ey) as [|Hlt]; [assumption|exfalso].
    assert (Z.pos my * 2 ^ (ey + 1074) < 2 ^ 53 * 2 ^ 1022); [|change (2 ^ 53 * 2 ^ 1022) with (2 ^ 1075) in *; lia].
    apply Z.lt_le_trans with (2 ^ 53 * 2 ^ (ey + 1074)).
    - apply Z.mul_lt_mono_pos_r; [apply pow2_pos|]; lia.
    - apply Z.mul_le_mono_nonneg_l; [lia|]. apply Z.pow_le_mono_r; lia. }
  assert (Hnorm : 2 ^ 52 <= Z.pos my) by (destruct Hn; lia).
  assert (Hd : Zdigits2 (Z.pos my) = 53).
  { rewrite Zdigits2_bitlen by lia. apply bitlen_unique; [lia|]. change (53 - 1) with 52. lia. }
  intros r. subst r. cbn [SFdiv xorb]. unfold SFdiv_core_binary.
  change (Zdigits2 (Z.pos 4503599627370496)) with 53. rewrite Hd.
  set (D := -51 - ey).
  replace (53 + -51 - (53 + ey)) with D by (unfold D; lia).
  rewrite fexp_eq.
  set (e' := Z.min (Z.max (D - 53) (-1074)) D).
  assert (He' : e' = Z.max (D - 53) (-1074)) by (unfold e', D; lia).
  set (s := D - e').
  assert (Hs : s = 53 /\ e' = D - 53 \/ s = 52 /\ e' = -1074 /\ D = -1022) by (unfold s, D in *; lia).
  assert (Hm' : match s with
                | 0 => Z.pos 4503599627370496
                | Z.pos _ => Z.shiftl (Z.pos 4503599627370496) s
                | Z.neg _ => 0
                end = 2 ^ (52 + s)).
  { destruct Hs as [[-> _]|[-> _]]; reflexivity. }
  rewrite Hm'. clear Hm'.
  pose proof (Z.div_mod (2 ^ (52 + s)) (Z.pos my) ltac:(lia)) as Hdm.
  pose proof (Z.mod_pos_bound (2 ^ (52 + s)) (Z.pos my) ltac:(lia)) as Hmod.
  unfold Z.div, Z.modulo in Hdm, Hmod.
  destruct (Z.div_eucl (2 ^ (52 + s)) (Z.pos my)) as [q rm]. cbn [fst snd] in Hdm, Hmod.
  pose proof (pow2_pos s ltac:(lia)) as Hps.
  assert (Hpow : 2 ^ (52 + s) = 2 ^ 52 * 2 ^ s) by (apply pow2_add; lia).
  assert (Hq_hi : q <= 2 ^ s) by nia.
  assert (Hq_lo : 2 ^ s <= 2 * q + 1).
  { assert (2 ^ 52 * 2 ^ s < 2 ^ 53 * (q + 1)); [nia|].
    change (2 ^ 53) with (2 * 2 ^ 52) in H. nia. }
  assert (HUe : 2 ^ s * 2 ^ (e' + 1074) <= 2 ^ 1074).
  { rewrite <- pow2_add by lia. apply Z.pow_le_mono_r; [lia|]. unfold s, D. lia. }
  pose proof (pow2_pos (e' + 1074) ltac:(lia)) as Hpe.
  destruct (Z.eq_dec (Z.pos my) (2 ^ 52)) as [Hpow2|Hnp].
  - (* y is a power of two: the quotient is exact *)
    assert (Hq : q = 2 ^ s) by nia. assert (Hr0 : rm = 0) by nia. subst q rm.
    assert (Hloc : new_location (Z.pos my) 0 = loc_Exact).
    { unfold new_location, new_location_even, new_location_odd.
      destruct (Z.even (Z.pos my)); reflexivity. }
    rewrite Hloc.
    assert (Hqpos : 2 ^ s = Z.pos (Z.to_pos (2 ^ s))) by (rewrite Z2Pos.id; lia).
    assert (Hdig : bitlen (2 ^ s) = s + 1) by (unfold bitlen; rewrite Z.log2_pow2; lia).
    assert (Hn' : e' <= fexp prec emax (Z.pos (digits2_pos (Z.to_pos (2 ^ s))) + e')).
    { rewrite fexp_eq, digits2_pos_bitlen, <- Hqpos, Hdig. lia. }
    pose proof (binary_round_aux_round (Z.to_pos (2 ^ s)) e' (-1074) Hn' ltac:(lia) ltac:(lia)) as H.
    cbn zeta in H. rewrite <- Hqpos in H. change (-1074 - -1074) with 0 in H.
    replace (e' - -1074) with (e' + 1074) in H by lia.
    rewrite <- pow2_add, round_pow2 in H by lia.
    rewrite <- pow2_add in HUe by lia.
    pose proof (pow2_pos (s + (e' + 1074)) ltac:(lia)) as Hpv.
    destruct H as [(_ & H0)|[(m1 & e1 & -> & Hb & Hval & _)|(_ & Hge)]].
    + lia.
    + split; [reflexivity|]. cbn [value cond_Zopp].
      replace (e1 + 1074) with (e1 - -1074) by lia. rewrite Hval. lia.
    + exfalso. assert (2 ^ 1074 < 2 ^ (1024 - -1074)); [|lia].
      apply Z.pow_lt_mono_r; lia.
  - (* otherwise the quotient has the width of the format *)
    assert (Hmy1 : 2 ^ 52 + 1 <= Z.pos my) by lia.
    assert (Hq_lt : q < 2 ^ s) by nia.
    assert (Hq1 : s = 53 -> q + 1 < 2 ^ 53).
    { intros Hs53. rewrite Hs53 in *. change (2 ^ (52 + 53)) with (2 ^ 52 * 2 ^ 53) in Hdm.
      destruct (Z.le_gt_cases (2 ^ 53 - 1) q) as [Hbig|]; [exfalso|lia].
      assert ((2 ^ 53 - 1) * (2 ^ 52 + 1) <= Z.pos my * q); [|lia].
      rewrite (Z.mul_comm (Z.pos my) q). apply Z.mul_le_mono_nonneg; lia. }
    assert (Hq0 : 0 < q).
    { destruct Hs as [[Hs53 _]|[Hs52 _]]; rewrite ?Hs53, ?Hs52 in Hq_lo; lia. }
    assert (Hfit : forall m, q <= m <= q + 1 -> fexp prec emax (Zdigits2 m + e') = e').
    { intros m Hm. rewrite fexp_eq, Zdigits2_bitlen by lia.
      destruct Hs as [[Hs53 He53]|[Hs52 [He52 _]]].
      - rewrite (bitlen_unique m 53); [lia | lia |].
        change (53 - 1) with 52. rewrite Hs53 in *. specialize (Hq1 eq_refl).
        change (2 ^ 53) with (2 * 2 ^ 52) in Hq_lo. lia.
      - assert (bitlen m <= 53); [|lia].
        rewrite Hs52 in *. apply (bitlen_le m 52); lia. }
    destruct (binary_round_aux_in_place q e' (new_location (Z.pos my) rm) Hq0
                (Hfit q ltac:(lia)) (Hfit (q + 1) ltac:(lia)) ltac:(unfold D in *; lia))
      as (m1 & -> & Hm1 & Hb).
    split; [reflexivity|]. cbn [value cond_Zopp]. split; [nia|].
    apply Z.le_trans with (2 ^ s * 2 ^ (e' + 1074)); [|exact HUe].
    apply Z.mul_le_mono_nonneg_r; lia.
Qed.

(** [1.0 - a] for a finite [a] between 0 and 1 is finite and not below 0. *)
Lemma one_minus_cases (a : spec_float) :
  valid_binary a = true -> finite a = true -> 0 <= value a <= 2 ^ 1074 ->
  let r := SFsub prec emax (S754_finite false 4503599627370496 (-52)) a in
  finite r = true /\ 0 <= value r.
Proof.
  intros Hv Hf Ha r. subst r.
  pose proof (pow2_pos 1074 ltac:(lia)) as HU.
  destruct a as [s| | |s ma ea]; try discriminate Hf.
  - cbn [SFsub]. split; [reflexivity|]. rewrite value_one. lia.
  - assert (Hs : s = false).
    { destruct s; [|reflexivity]. cbn in Hv. destruct (bounded_spec ma ea Hv) as (He & _).
      pose proof (magnitude_pos ma ea ltac:(lia)). cbn [value cond_Zopp] in Ha. lia. }
    subst s.
    change (SFsub prec emax (S754_finite false 4503599627370496 (-52)) (S754_finite false ma ea))
      with (SFadd prec emax (S754_finite false 4503599627370496 (-52)) (S754_finite true ma ea)).
    pose proof (SFadd_value (S754_finite false 4503599627370496 (-52)) (S754_finite true ma ea)
                  valid_one Hv eq_refl eq_refl) as HR.
    rewrite value_one in HR. cbn [value cond_Zopp] in HR, Ha.
    set (d := 2 ^ 1074 + - (Z.pos ma * 2 ^ (ea + 1074))) in *.
    assert (Hd : 0 <= d <= 2 ^ 1074) by (unfold d; lia).
    assert (H0 : 0 <= sround 0 d).
    { replace 0 with (sround 0 0) at 1 by (unfold sround; cbn; apply round_zero; lia).
      apply sround_mono; lia. }
    assert (H1 : sround 0 d <= 2 ^ 1074).
    { apply Z.le_trans with (sround 0 (2 ^ 1074)); [apply sround_mono; lia|].
      unfold sround. destruct (Z.ltb_spec (2 ^ 1074) 0); [lia|].
      rewrite round_pow2 by lia. lia. }
    assert (HB : 2 ^ 1074 < 2 ^ 2098) by (apply Z.pow_lt_mono_r; lia).
    destruct HR as [(Hfr & _ & Hvr & _)|[(_ & Hge)|(_ & Hle)]]; try lia.
    split; [exact Hfr|]. change (2 ^ 0) with 1 in Hvr. rewrite Z.mul_1_r in Hvr. lia.
Qed.

(** The weights of [updateEMA] are finite and not below zero for every
    period [p >= 1]. *)
Lemma ema_weights_ok_all (p : N) : (1 <= p)%N -> ema_weights_ok p = true.
Proof.
  intros Hp. unfold ema_weights_ok. cbn zeta.
  change (@d_of_int float binary64) with float_of_Z.
  change (@d_div float binary64) with PrimFloat.div.
  change (@d_add float binary64) with PrimFloat.add.
  change (@d_sub float binary64) with PrimFloat.sub.
  set (y := (float_of_Z (Z.of_N p) + float_of_Z 1)%float).
  set (alpha := (float_of_Z 2 / y)%float).
  pose proof (pow2_pos 1074 ltac:(lia)) as HU.
  assert (Ha : finite (Prim2SF alpha) = true /\ 0 <= value (Prim2SF alpha) <= 2 ^ 1074).
  { unfold alpha. rewrite div_spec, Prim2SF_two. unfold SF64div.
    destruct (period_plus_one_cases (Z.of_N p) ltac:(lia)) as [[Hf Hv]|Hinf]; fold y in Hf, Hv || fold y in Hinf.
    - apply two_over_cases; [apply Prim2SF_valid | exact Hf | exact Hv].
    - rewrite Hinf. cbn. lia. }
  destruct Ha as [Hfa Hva].
  assert (Hb : finite (Prim2SF (float_of_Z 1 - alpha)) = true
               /\ 0 <= value (Prim2SF (float_of_Z 1 - alpha))).
  { rewrite sub_spec, Prim2SF_one. unfold SF64sub.
    apply one_minus_cases; [apply Prim2SF_valid | exact Hfa | exact Hva]. }
  destruct Hb as [Hfb Hvb].
  unfold is_nonneg_finite, is_finite. rewrite Hfa, Hfb. cbn [andb].
  apply andb_true_intro.
  split.
  - apply (leb_value 0 alpha); [reflexivity | exact Hfa |].
    change (value (Prim2SF 0)) with 0. lia.
  - apply (leb_value 0 (float_of_Z 1 - alpha)); [reflexivity | exact Hfb |].
    change (value (Prim2SF 0)) with 0. lia.
Qed.

End EMAWeights.

(** ** The EMA bound *)

Section ExactEMA.

#[local] Open Scope Q_scope.

Lemma ema_alpha_unit (p : N) : (1 <= p)%N -> 0 <= ema_alpha p <= 1.
Proof.
  intros Hp. unfold ema_alpha.
  assert (Hd : inject_Z 1 <= inject_Z (Z.of_N p)) by (rewrite <- Zle_Qle; lia).
  change (inject_Z 1) with 1 in *. change (inject_Z 2) with 2.
  set (n := inject_Z (Z.of_N p)) in *.
  split.
  - apply Qle_shift_div_l; lra.
  - apply Qle_shift_div_r; lra.
Qed.

Lemma convex_between (a x e lo hi : Q) :
  0 <= a <= 1 -> lo <= x <= hi -> lo <= e <= hi ->
  lo <= a * x + (1 - a) * e <= hi.
Proof. intros. split; nra. Qed.

Lemma updateEMA_state_ok (p : N) (i : Indicators Q) (seen : list Q) (x : Q) (q : N) :
  (1 <= p)%N -> ema_state_ok p i seen ->
  ema_state_ok p (updateEMA i x q) (seen ++ (if N.eqb q p then [x] else [])).
Proof.
  intros Hp Hok. unfold ema_state_ok in *. unfold updateEMA.
  destruct (N.eqb_spec q p) as [->|Hne].
  - destruct (emas_ i !! p) as [[v a]|] eqn:E; cbn [emas_ set_emas].
    + rewrite lookup_insert_eq. destruct Hok as (-> & Hne & Hb).
      split; [reflexivity|]. split; [destruct seen; discriminate|].
      intros lo hi Hall. apply Forall_app in Hall as [Hs Hx].
      apply Forall_cons in Hx as [Hx _].
      apply convex_between; auto using ema_alpha_unit.
    + rewrite lookup_insert_eq. subst seen. split; [reflexivity|].
      split; [discriminate|]. intros lo hi Hall.
      apply Forall_cons in Hall as [Hx _]. exact Hx.
  - rewrite app_nil_r.
    destruct (emas_ i !! q) as [[v a]|] eqn:E; cbn [emas_ set_emas];
      rewrite lookup_insert_ne by congruence; exact Hok.
Qed.

Lemma prices_seen_app (p : N) (calls : list (Q * N)) (c : Q * N) :
  prices_seen p (calls ++ [c]) = prices_seen p calls ++ (if N.eqb (snd c) p then [fst c] else []).
Proof.
  unfold prices_seen. rewrite List.filter_app, map_app. cbn.
  destruct (N.eqb (snd c) p); reflexivity.
Qed.

Lemma ema_calls_state_ok (p : N) (calls : list (Q * N)) :
  (1 <= p)%N -> ema_state_ok p (ema_calls calls) (prices_seen p calls).
Proof.
  intros Hp. induction calls as [|c calls IH] using rev_ind.
  - unfold ema_state_ok. cbn. reflexivity.
  - unfold ema_calls in *. rewrite fold_left_app. cbn [fold_left].
    rewrite prices_seen_app. apply updateEMA_state_ok; assumption.
Qed.

Lemma fold_min_le (xs : list Q) (x : Q) :
  fold_left d_min xs x <= x /\ Forall (fun y => fold_left d_min xs x <= y) xs.
Proof.
  revert x. induction xs as [|y xs IH]; intros x; cbn.
  - split; [lra | constructor].
  - destruct (IH (d_min x y)) as [H1 H2].
    assert (Hm : d_min x y <= x /\ d_min x y <= y).
    { unfold d_min. cbn. destruct (Qle_bool x y) eqn:E; cbn.
      - apply Qle_bool_iff in E. split; lra.
      - assert (~ x <= y) by (rewrite <- Qle_bool_iff; congruence). split; lra. }
    split; [lra|]. constructor; [lra | exact H2].
Qed.

Lemma fold_max_ge (xs : list Q) (x : Q) :
  x <= fold_left d_max xs x /\ Forall (fun y => y <= fold_left d_max xs x) xs.
Proof.
  revert x. induction xs as [|y xs IH]; intros x; cbn.
  - split; [lra | constructor].
  - destruct (IH (d_max x y)) as [H1 H2].
    assert (Hm : x <= d_max x y /\ y <= d_max x y).
    { unfold d_max. cbn. destruct (Qle_bool y x) eqn:E; cbn.
      - apply Qle_bool_iff in E. split; lra.
      - assert (~ y <= x) by (rewrite <- Qle_bool_iff; congruence). split; lra. }
    split; [lra|]. constructor; [lra | exact H2].
Qed.

End ExactEMA.

(** The bound of the design document over exact rational arithmetic, for
    comparison: for every period [p >= 1] and every sequence of [updateEMA]
    calls on a fresh engine that passes at least one price for [p],
    [getEMA(p)] lies between the least and the greatest of the prices passed
    for [p].  What binary64 adds is rounding alone. *)
Theorem updateEMA_within_bounds_exact (calls : list (Q * N)) (p : N) :
  (1 <= p)%N -> prices_seen p calls <> [] ->
  ema_within_bounds (F := Q) calls p = true.
Proof.
  intros Hp Hne. unfold ema_within_bounds.
  pose proof (ema_calls_state_ok p calls Hp) as Hok.
  destruct (prices_seen p calls) as [|x xs] eqn:Hseen; [congruence|].
  unfold ema_state_ok, getEMA in *.
  destruct (emas_ (ema_calls calls) !! p) as [[v a]|]; [|discriminate].
  destruct Hok as (_ & _ & Hb).
  destruct (fold_min_le xs x) as [Hlo Hlos], (fold_max_ge xs x) as [Hhi Hhis].
  destruct (Hb (fold_left d_min xs x) (fold_left d_max xs x)) as [H1 H2].
  { constructor; [split; assumption|].
    rewrite Forall_forall in *. intros y Hy. split; auto. }
  apply andb_true_intro. split; apply Qle_bool_iff; assumption.
Qed.

Lemma updateEMA_within_bounds_exact_witness :
  ema_within_bounds (F := Q) [(3 # 1, 9%N); (5 # 1, 12%N); (7 # 2, 9%N); (3 # 1, 9%N)] 9 = true.
Proof.
  apply (updateEMA_within_bounds_exact
           [(3 # 1, 9%N); (5 # 1, 12%N); (7 # 2, 9%N); (3 # 1, 9%N)] 9).
  - lia.
  - vm_compute. discriminate.
Defined.

Section EMALookup.

Context {F : Type} `{DoubleArith F}.

Lemma ema_calls_lookup (p : N) (calls : list (F * N)) :
  emas_ (ema_calls calls) !! p
  = match prices_seen p calls with
    | [] => None
    | _ :: _ =>
        Some (ema_recurrence p (prices_seen p calls),
              ((d_of_int 2) / (d_of_int (Z.of_N p) + (d_of_int 1)))%dbl)
    end.
Proof.
  induction calls as [|[x q] calls IH] using rev_ind; [reflexivity|].
  unfold ema_calls in *. rewrite fold_left_app. cbn [fold_left fst snd].
  unfold prices_seen in *. rewrite List.filter_app, map_app. cbn [List.filter snd].
  set (i := fold_left _ calls Indicators_ctor) in *.
  set (seen := map fst (List.filter _ calls)) in *.
  unfold updateEMA. destruct (N.eqb_spec q p) as [->|Hne].
  - cbn [map fst]. rewrite IH.
    destruct seen as [|y ys]; cbn [emas_ set_emas app]; rewrite lookup_insert_eq.
    + reflexivity.
    + unfold ema_recurrence. cbn [app]. rewrite fold_left_app. reflexivity.
  - cbn [map]. rewrite app_nil_r.
    destruct (emas_ i !! q) as [[v a]|]; cbn [emas_ set_emas];
      rewrite lookup_insert_ne by congruence; exact IH.
Qed.

Lemma prices_seen_repeat (v : F) (p : N) (n : nat) :
  prices_seen p (repeat (v, p) n) = repeat v n.
Proof.
  unfold prices_seen. induction n as [|n IH]; [reflexivity|].
  cbn [repeat List.filter snd]. rewrite N.eqb_refl. cbn [map fst]. f_equal. exact IH.
Qed.

End EMALookup.

Section EMABinary64.

Import Binary64.

Lemma getEMA_fold (calls : list (float * N)) (p : N) (x : float) (xs : list float) :
  prices_seen p calls = x :: xs ->
  getEMA (ema_calls calls) p
  = fold_left
      (fun ema price =>
         (float_of_Z 2 / (float_of_Z (Z.of_N p) + float_of_Z 1)) * price
         + (float_of_Z 1 - float_of_Z 2 / (float_of_Z (Z.of_N p) + float_of_Z 1)) * ema)%float
      xs x.
Proof.
  intros Hs. unfold getEMA. rewrite ema_calls_lookup, Hs. reflexivity.
Qed.

End EMABinary64.




(** Why the bounding values must be finite: with the prices [+inf] and
    [-inf] the EMA is NaN, below and above which nothing lies. *)
Lemma updateEMA_infinite_prices_binary64 :
  let calls := [(infinity, 9%N); (neg_infinity, 9%N)] in
  Forall (fun x => (neg_infinity <=? x)%float = true /\ (x <=? infinity)%float = true)
    (prices_seen 9 calls)
  /\ ema_within_bounds calls 9 = false
  /\ (getEMA (ema_calls (repeat (neg_infinity, 9%N) 2)) 9 <=? getEMA (ema_calls calls) 9)%float
     = false.
Proof.
  cbv zeta. split; [|split].
  - vm_compute. repeat constructor.
  - vm_compute. reflexivity.
  - vm_compute. reflexivity.
Qed.

(** ** The regime classifier *)

Lemma updateAndClassify_history_length (rc : RegimeClassifier.t) (tick : Tick) :
  (length (RegimeClassifier.tick_history_ (RegimeClassifier.updateAndClassify rc tick))
   <= S (length (RegimeClassifier.tick_history_ rc)))%nat.
Proof.
  unfold RegimeClassifier.updateAndClassify.
  set (pushed := RegimeClassifier.tick_history_ rc ++ [tick]).
  assert (Hp : length pushed = S (length (RegimeClassifier.tick_history_ rc))).
  { unfold pushed. rewrite length_app. cbn. lia. }
  set (history := if (RegimeClassifier.lookback_ rc <? length pushed)%nat then tl pushed else pushed).
  assert (Hh : (length history <= length pushed)%nat).
  { unfold history. destruct (_ <? _)%nat; [|lia]. destruct pushed; cbn; lia. }
  destruct (length history <? 20)%nat; cbn [RegimeClassifier.tick_history_]; lia.
Qed.

Lemma updateAndClassify_warmup (rc : RegimeClassifier.t) (tick : Tick) :
  (S (length (RegimeClassifier.tick_history_ rc)) < 20)%nat ->
  RegimeClassifier.getCurrentRegime (RegimeClassifier.updateAndClassify rc tick)
  = RegimeClassifier.CHOPPY.
Proof.
  intros Hlen. unfold RegimeClassifier.updateAndClassify, RegimeClassifier.getCurrentRegime.
  set (pushed := RegimeClassifier.tick_history_ rc ++ [tick]).
  assert (Hp : length pushed = S (length (RegimeClassifier.tick_history_ rc))).
  { unfold pushed. rewrite length_app. cbn. lia. }
  set (history := if (RegimeClassifier.lookback_ rc <? length pushed)%nat then tl pushed else pushed).
  assert (Hh : (length history <= length pushed)%nat).
  { unfold history. destruct (_ <? _)%nat; [|lia]. destruct pushed; cbn; lia. }
  destruct (Nat.ltb_spec (length history) 20) as [_|Hge]; [reflexivity | lia].
Qed.

Lemma classify_all_history_length (rc : RegimeClassifier.t) (ticks : list Tick) :
  (length (RegimeClassifier.tick_history_ (fold_left RegimeClassifier.updateAndClassify ticks rc))
   <= length (RegimeClassifier.tick_history_ rc) + length ticks)%nat.
Proof.
  revert rc. induction ticks as [|t ticks IH]; intros rc; cbn [fold_left length].
  - lia.
  - specialize (IH (RegimeClassifier.updateAndClassify rc t)).
    pose proof (updateAndClassify_history_length rc t). lia.
Qed.

(** C9.  While fewer than 20 ticks have been fed to [updateAndClassify],
    the classifier's current regime is CHOPPY, whatever its lookback and
    number of clusters. *)
Theorem regime_choppy_during_warmup (lookback num_clusters : nat) (ticks : list Tick) :
  (length ticks < 20)%nat ->
  RegimeClassifier.getCurrentRegime
    (fold_left RegimeClassifier.updateAndClassify ticks
       (RegimeClassifier.ctor lookback num_clusters))
  = RegimeClassifier.CHOPPY.
Proof.
  intros Hlen. destruct ticks as [|t ticks] using rev_ind; [reflexivity|].
  rewrite fold_left_app. cbn [fold_left].
  apply updateAndClassify_warmup.
  pose proof (classify_all_history_length (RegimeClassifier.ctor lookback num_clusters) ticks) as H.
  cbn [RegimeClassifier.ctor RegimeClassifier.tick_history_ length] in H.
  rewrite length_app in Hlen. cbn in Hlen. lia.
Qed.

Lemma regime_choppy_during_warmup_witness :
  RegimeClassifier.getCurrentRegime
    (fold_left RegimeClassifier.updateAndClassify Scenario.quiet (RegimeClassifier.ctor 100 2))
  = RegimeClassifier.CHOPPY.
Proof. apply regime_choppy_during_warmup. vm_compute. lia. Defined.

(** ** The strategy *)

Lemma checkEMACrossover_frame (s : Strategy.NewsMomentumStrategy) :
  let s' := snd (Strategy.checkEMACrossover s) in
  Strategy.position_ s' = Strategy.position_ s
  /\ Strategy.indicators_ s' = Strategy.indicators_ s
  /\ Strategy.regime_classifier_ s' = Strategy.regime_classifier_ s
  /\ Strategy.min_relative_volume_ s' = Strategy.min_relative_volume_ s
  /\ Strategy.min_gap_up_percent_ s' = Strategy.min_gap_up_percent_ s
  /\ Strategy.min_bid_ask_ratio_ s' = Strategy.min_bid_ask_ratio_ s.
Proof.
  unfold Strategy.checkEMACrossover.
  destruct (_ || _); cbn; repeat split; reflexivity.
Qed.

Lemma checkEntryConditions_frame (s : Strategy.NewsMomentumStrategy)
    (store : ClassifierStore) (tick : Tick) :
  let s' := snd (Strategy.checkEntryConditions s store tick) in
  Strategy.position_ s' = Strategy.position_ s
  /\ Strategy.indicators_ s' = Strategy.indicators_ s
  /\ Strategy.regime_classifier_ s' = Strategy.regime_classifier_ s
  /\ Strategy.min_relative_volume_ s' = Strategy.min_relative_volume_ s
  /\ Strategy.min_gap_up_percent_ s' = Strategy.min_gap_up_percent_ s
  /\ Strategy.min_bid_ask_ratio_ s' = Strategy.min_bid_ask_ratio_ s.
Proof.
  unfold Strategy.checkEntryConditions.
  pose proof (checkEMACrossover_frame s) as Hc.
  destruct (Strategy.checkEMACrossover s) as [crossed s1]. cbn [snd] in Hc.
  repeat match goal with
         | |- context [if ?c then _ else _] => destruct c
         end; cbn [snd]; auto; repeat split; reflexivity.
Qed.

Lemma processMarketUpdate_position (s : Strategy.NewsMomentumStrategy)
    (store : ClassifierStore) (ts : Z) (tick : Tick) :
  Strategy.position_ (fst (fst (Strategy.processMarketUpdate s store ts tick)))
  = Strategy.position_ s.
Proof.
  unfold Strategy.processMarketUpdate.
  set (store1 := match Strategy.regime_classifier_ s with Some _ => _ | None => _ end).
  set (s1 := Strategy.set_indicators s _).
  pose proof (checkEntryConditions_frame s1 store1 tick) as (Hp & _).
  destruct (Strategy.checkEntryConditions s1 store1 tick) as [entry s2]. cbn [snd] in Hp.
  repeat match goal with
         | |- context [if ?c then _ else _] => destruct c
         end; cbn [fst Strategy.position_ Strategy.set_entry_timestamp_us]; auto.
Qed.

Lemma processMarketUpdate_signals_long (s : Strategy.NewsMomentumStrategy)
    (store : ClassifierStore) (ts : Z) (tick : Tick) :
  Strategy.position_ s = 0%float ->
  Forall (is_signal_of LONG) (snd (Strategy.processMarketUpdate s store ts tick)).
Proof.
  intros Hflat. unfold Strategy.processMarketUpdate.
  set (store1 := match Strategy.regime_classifier_ s with Some _ => _ | None => _ end).
  set (s1 := Strategy.set_indicators s _).
  assert (Hno : Strategy.hasPosition s1 = false).
  { unfold Strategy.hasPosition, s1. cbn [Strategy.position_ Strategy.set_indicators].
    rewrite Hflat. reflexivity. }
  rewrite Hno.
  destruct (Strategy.checkEntryConditions s1 store1 tick) as [entry s2].
  repeat match goal with
         | |- context [if ?c then _ else _] => destruct c
         end; cbn [snd]; repeat constructor.
Qed.

Lemma feed_snoc (s : Strategy.NewsMomentumStrategy) (store : ClassifierStore)
    (events : list (Z * Tick)) (ev : Z * Tick) :
  feed s store (events ++ [ev])
  = let '(s1, store1, emitted) := feed s store events in
    let '(s2, store2, signals) := Strategy.processMarketUpdate s1 store1 (fst ev) (snd ev) in
    (s2, store2, emitted ++ signals).
Proof. unfold feed. rewrite fold_left_app. reflexivity. Qed.

(** C2.  Whatever market updates a strategy that was constructed flat
    ([position_ = 0.0]) is fed, [position_] is still 0.0 afterwards,
    [hasPosition()] answers false, and every signal it has emitted is a
    LONG signal; in particular it never emits EXIT. *)
Theorem strategy_position_never_assigned (s0 : Strategy.NewsMomentumStrategy)
    (store0 : ClassifierStore) (events : list (Z * Tick)) :
  Strategy.position_ s0 = 0%float ->
  let '(s, _, signals) := feed s0 store0 events in
  Strategy.position_ s = 0%float
  /\ Strategy.hasPosition s = false
  /\ Forall (is_signal_of LONG) signals
  /\ ~ Exists (is_signal_of EXIT) signals.
Proof.
  intros Hflat.
  assert (H : let '(s, _, signals) := feed s0 store0 events in
              Strategy.position_ s = 0%float /\ Forall (is_signal_of LONG) signals).
  { induction events as [|ev events IH] using rev_ind.
    - cbn. split; [assumption | constructor].
    - rewrite feed_snoc. destruct (feed s0 store0 events) as [[s1 store1] emitted].
      destruct IH as [Hs1 Hem].
      pose proof (processMarketUpdate_position s1 store1 (fst ev) (snd ev)) as Hp.
      pose proof (processMarketUpdate_signals_long s1 store1 (fst ev) (snd ev) Hs1) as Hl.
      destruct (Strategy.processMarketUpdate s1 store1 (fst ev) (snd ev)) as [[s2 store2] signals].
      cbn [fst snd] in *. split; [congruence|]. apply Forall_app. split; assumption. }
  destruct (feed s0 store0 events) as [[s store] signals]. destruct H as [Hs Hl].
  split; [assumption|]. split.
  - unfold Strategy.hasPosition. rewrite Hs. reflexivity.
  - split; [assumption|]. rewrite Exists_exists. intros (e & Hin & He).
    rewrite Forall_forall in Hl. specialize (Hl e Hin).
    destruct e; cbn in *; try contradiction. congruence.
Qed.

Lemma strategy_position_never_assigned_witness :
  let '(s, _, signals) :=
    feed Scenario.strategy Scenario.classifiers (Scenario.as_events Scenario.rally) in
  Strategy.position_ s = 0%float
  /\ Strategy.hasPosition s = false
  /\ Forall (is_signal_of LONG) signals
  /\ ~ Exists (is_signal_of EXIT) signals.
Proof.
  apply (strategy_position_never_assigned Scenario.strategy Scenario.classifiers
           (Scenario.as_events Scenario.rally)).
  reflexivity.
Defined.

Lemma checkVolumeSpike_default (s : Strategy.NewsMomentumStrategy) :
  Strategy.min_relative_volume_ s = 5%float -> Strategy.checkVolumeSpike s = true ->
  PrimFloat.leb 5 (getRelativeVolume (Strategy.indicators_ s)) = true.
Proof. unfold Strategy.checkVolumeSpike. intros ->. exact (fun H => H). Qed.

Lemma checkGapUp_default (s : Strategy.NewsMomentumStrategy) :
  Strategy.min_gap_up_percent_ s = 10%float -> Strategy.checkGapUp s = true ->
  PrimFloat.leb 10 (getGapUpPercent (Strategy.indicators_ s)) = true.
Proof. unfold Strategy.checkGapUp. intros ->. exact (fun H => H). Qed.

Lemma checkEMATrend_true (s : Strategy.NewsMomentumStrategy) (p : float) :
  Strategy.checkEMATrend s p = true ->
  PrimFloat.ltb (getEMA (Strategy.indicators_ s) 90) p = true
  /\ PrimFloat.ltb (getEMA (Strategy.indicators_ s) 200) p = true
  /\ PrimFloat.ltb (getEMA (Strategy.indicators_ s) 200) (getEMA (Strategy.indicators_ s) 90)
     = true.
Proof.
  unfold Strategy.checkEMATrend, isPriceAboveEMA.
  destruct (PrimFloat.eqb p 0); [discriminate|].
  intros H. apply andb_prop in H as [H H3]. apply andb_prop in H as [H1 H2].
  apply andb_prop in H1 as [_ H1]. apply andb_prop in H2 as [_ H2].
  repeat split; assumption.
Qed.

Lemma checkVWAP_true (s : Strategy.NewsMomentumStrategy) (p : float) :
  Strategy.checkVWAP s p = true ->
  PrimFloat.ltb (getVWAP (Strategy.indicators_ s)) p = true.
Proof.
  unfold Strategy.checkVWAP, isPriceAboveVWAP.
  destruct (PrimFloat.eqb p 0); [discriminate|].
  intros H. apply andb_prop in H as [_ H]. exact H.
Qed.

Lemma checkOrderBookImbalance_default (s : Strategy.NewsMomentumStrategy) (tick : Tick) :
  Strategy.min_bid_ask_ratio_ s = 1.5%float ->
  Strategy.checkOrderBookImbalance s tick = true ->
  PrimFloat.eqb (ask_size tick) 0 = false
  /\ PrimFloat.leb 1.5 (bid_size tick / ask_size tick) = true.
Proof.
  unfold Strategy.checkOrderBookImbalance. intros ->.
  destruct (PrimFloat.eqb (ask_size tick) 0); [discriminate|].
  intros H. split; [reflexivity | exact H].
Qed.

(** What a successful [checkEntryConditions] has checked. *)
Lemma checkEntryConditions_true (s s' : Strategy.NewsMomentumStrategy)
    (store : ClassifierStore) (tick : Tick) :
  Strategy.checkEntryConditions s store tick = (true, s') ->
  Strategy.checkVolumeSpike s = true
  /\ Strategy.checkGapUp s = true
  /\ Strategy.checkEMATrend s (price tick) = true
  /\ Strategy.checkEMACrossover s = (true, s')
  /\ Strategy.checkVWAP s' (price tick) = true
  /\ Strategy.checkMACD s' = true
  /\ Strategy.checkOrderBookImbalance s' tick = true
  /\ Strategy.regime_not_trending s' store = false.
Proof.
  unfold Strategy.checkEntryConditions.
  destruct (Strategy.checkVolumeSpike s); cbn [negb orb]; [|discriminate].
  destruct (Strategy.checkGapUp s); cbn [negb]; [|discriminate].
  destruct (Strategy.checkEMATrend s (price tick)); cbn [negb]; [|discriminate].
  destruct (Strategy.checkEMACrossover s) as [crossed s1].
  destruct crossed; cbn [negb]; [|discriminate].
  destruct (Strategy.checkVWAP s1 (price tick)) eqn:Hw; cbn [negb]; [|discriminate].
  destruct (Strategy.checkMACD s1) eqn:Hm; cbn [negb]; [|discriminate].
  destruct (Strategy.checkOrderBookImbalance s1 tick) eqn:Ho; cbn [negb]; [|discriminate].
  destruct (Strategy.regime_not_trending s1 store) eqn:Hr; [discriminate|].
  intros [= <-]. repeat split; first [reflexivity | assumption].
Qed.

Lemma checkEMACrossover_true (s s' : Strategy.NewsMomentumStrategy) :
  Strategy.checkEMACrossover s = (true, s') ->
  PrimFloat.ltb (getEMA (Strategy.indicators_ s) 90) (getEMA (Strategy.indicators_ s) 9) = true.
Proof.
  unfold Strategy.checkEMACrossover.
  destruct (_ || _); [discriminate|].
  destruct (PrimFloat.ltb _ _); [reflexivity|].
  cbn. discriminate.
Qed.

(** The entry predicate of the design document follows from the checks of
    the code, on any strategy with the default thresholds. *)
Lemma entry_checks_imply_spec (s s' : Strategy.NewsMomentumStrategy)
    (store : ClassifierStore) (tick : Tick) :
  default_thresholds s ->
  Strategy.checkEntryConditions s store tick = (true, s') ->
  Strategy.indicators_ s' = Strategy.indicators_ s
  /\ spec_indicator_conditions s' tick = true
  /\ regime_trending_if_classified s' store = true.
Proof.
  intros (Hvol & Hgap & Hratio) Hentry.
  apply checkEntryConditions_true in Hentry as (Hv & Hg & Ht & Hc & Hw & Hm & Ho & Hr).
  pose proof (checkEMACrossover_frame s) as Hf. rewrite Hc in Hf. cbn [snd] in Hf.
  destruct Hf as (_ & Hind & _ & _ & _ & Hratio').
  apply (checkVolumeSpike_default s Hvol) in Hv.
  apply (checkGapUp_default s Hgap) in Hg.
  apply checkEMATrend_true in Ht as (H1 & H2 & H3).
  apply checkEMACrossover_true in Hc.
  apply checkVWAP_true in Hw.
  apply (checkOrderBookImbalance_default s' tick) in Ho as [Ha Ho]; [|congruence].
  unfold Strategy.checkMACD in Hm.
  split; [exact Hind|]. split.
  - unfold spec_indicator_conditions. rewrite Hind in *.
    rewrite Hv, Hg, H1, H2, H3, Hc, Hw, Hm, Ha, Ho. reflexivity.
  - unfold regime_trending_if_classified. unfold Strategy.regime_not_trending in Hr.
    destruct (Strategy.regime_classifier_ s'); [|reflexivity].
    apply negb_false_iff in Hr. exact Hr.
Qed.

(** C6, amended.  A LONG signal comes out of [processMarketUpdate] with the
    default thresholds only if, on the indicators updated with that tick,
    relative volume >= 5.0, gap-up percent >= 10.0, the price is above
    EMA(90) and EMA(200) with EMA(90) > EMA(200), EMA(9) is above EMA(90),
    the price is above VWAP, the MACD histogram is expanding, [ask_size] is
    not 0 and bid_size / ask_size >= 1.5, and, when the strategy has a regime
    classifier, its current regime is TRENDING. *)
Theorem long_signal_entry_conditions (s : Strategy.NewsMomentumStrategy)
    (store : ClassifierStore) (ts : Z) (tick : Tick) (e : Event) :
  default_thresholds s ->
  In e (snd (Strategy.processMarketUpdate s store ts tick)) ->
  is_signal_of LONG e ->
  let '(s', store', _) := Strategy.processMarketUpdate s store ts tick in
  Strategy.indicators_ s' = Strategy.update_indicators (Strategy.indicators_ s) tick ts
  /\ spec_indicator_conditions s' tick = true
  /\ regime_trending_if_classified s' store' = true.
Proof.
  intros Hdef. unfold Strategy.processMarketUpdate.
  set (store1 := match Strategy.regime_classifier_ s with Some _ => _ | None => _ end).
  set (s1 := Strategy.set_indicators s _).
  assert (Hdef1 : default_thresholds s1) by exact Hdef.
  destruct (Strategy.hasPosition s1).
  { destruct (Strategy.checkExitConditions s1 store1 tick); cbn [snd In].
    - intros [<-|[]]. cbn. discriminate.
    - intros []. }
  destruct (Strategy.checkEntryConditions s1 store1 tick) as [entry s2] eqn:Hentry.
  destruct entry; [|cbn [snd In]; intros []].
  destruct (PrimFloat.ltb _ _); [|cbn [snd In]; intros []].
  intros _ _.
  destruct (entry_checks_imply_spec s1 s2 store1 tick Hdef1 Hentry) as (Hind & Hspec & Hreg).
  split; [exact Hind|]. split; [exact Hspec | exact Hreg].
Qed.

Lemma long_signal_entry_conditions_witness :
  let s := fst (fst Scenario.warmed_up) in
  let store := snd (fst Scenario.warmed_up) in
  let '(s', store', _) :=
    Strategy.processMarketUpdate s store (timestamp_us Scenario.tick21) Scenario.tick21 in
  Strategy.indicators_ s'
  = Strategy.update_indicators (Strategy.indicators_ s) Scenario.tick21
      (timestamp_us Scenario.tick21)
  /\ spec_indicator_conditions s' Scenario.tick21 = true
  /\ regime_trending_if_classified s' store' = true.
Proof.
  apply (long_signal_entry_conditions
           (fst (fst Scenario.warmed_up)) (snd (fst Scenario.warmed_up))
           (timestamp_us Scenario.tick21) Scenario.tick21
           (SignalEvent 2100000 "TICKER" LONG 150 169)).
  - vm_compute. repeat split; reflexivity.
  - vm_compute. left. reflexivity.
  - reflexivity.
Defined.

(** C6, as stated, fails: a strategy constructed without a classifier
    skips the regime check.  Fed the ticks of [rally], it signals LONG on the
    twenty-first, where every indicator condition holds and no regime is
    TRENDING. *)
Lemma long_signal_without_regime :
  let s := fst (fst Scenario.warmed_up_unclassified) in
  let store := snd (fst Scenario.warmed_up_unclassified) in
  let '(s', store', signals) :=
    Strategy.processMarketUpdate s store (timestamp_us Scenario.tick21) Scenario.tick21 in
  signals = [SignalEvent 2100000 "TICKER" LONG 100 169]
  /\ spec_indicator_conditions s' Scenario.tick21 = true
  /\ spec_regime_trending s' store' = false.
Proof. vm_compute. repeat split; reflexivity. Qed.

(** C7: the crossover bit is not updated on every market update.  After
    the two ticks of [jump], EMA(9) = 106 is above EMA(90), yet
    [was_long_ema_above_short_] is still false: the volume check failed
    first and [checkEMACrossover] was never reached. *)
Lemma crossover_bit_not_updated :
  let s := fst (fst (feed Scenario.strategy Scenario.classifiers
                       (Scenario.as_events Scenario.jump))) in
  getEMA (Strategy.indicators_ s) 9 = 106%float
  /\ PrimFloat.ltb (getEMA (Strategy.indicators_ s) 90) (getEMA (Strategy.indicators_ s) 9)
     = true
  /\ Strategy.checkVolumeSpike s = false
  /\ Strategy.was_long_ema_above_short_ s = false.
Proof. cbv zeta. repeat split; vm_compute; reflexivity. Qed.

(** ** The binary heap *)

Section HeapFacts.

Context {A : Type} (key : A -> Z).

#[local] Abbreviation comp := (greater_key key).
#[local] Abbreviation par i := ((i - 1) / 2)%nat.

Lemma keyat_lookup (v : list A) (i : nat) (x : A) :
  v !! i = Some x -> keyat key v i = key x.
Proof. unfold keyat. intros ->. reflexivity. Qed.

Lemma keyat_insert_eq (v : list A) (i : nat) (x : A) :
  (i < length v)%nat -> keyat key (<[i := x]> v) i = key x.
Proof. intros H. apply keyat_lookup, list_lookup_insert_eq, H. Qed.

Lemma keyat_insert_ne (v : list A) (i j : nat) (x : A) :
  i <> j -> keyat key (<[i := x]> v) j = keyat key v j.
Proof. intros H. unfold keyat. rewrite list_lookup_insert_ne by exact H. reflexivity. Qed.

(** Writing into cell [i] the content of cell [j], and the value [x]
    into cell [j], holds what [v] with [x] in cell [i] holds. *)
Lemma insert_swap_perm (v : list A) (i j : nat) (c x : A) :
  i <> j -> (i < length v)%nat -> v !! j = Some c ->
  <[j := x]> (<[i := c]> v) ≡ₚ <[i := x]> v.
Proof.
  intros Hij Hi Hj.
  destruct (lookup_lt_is_Some_2 v i Hi) as [a Ha].
  assert (P1 : forall (w : list A) k y z, w !! k = Some y -> y :: <[k := z]> w ≡ₚ z :: w).
  { intros w k y z Hk.
    pose proof (lookup_lt_Some _ _ _ Hk) as Hlt.
    rewrite (insert_take_drop w k z Hlt).
    rewrite <- (take_drop_middle w k y Hk) at 3.
    rewrite <- !Permutation_middle. apply perm_swap. }
  assert (Hwj : <[i := c]> v !! j = Some c) by (rewrite list_lookup_insert_ne; auto).
  pose proof (P1 _ j c x Hwj) as E1.
  pose proof (P1 v i a c Ha) as E2.
  pose proof (P1 v i a x Ha) as E3.
  apply (Permutation_cons_inv (a := a)), (Permutation_cons_inv (a := c)).
  etransitivity; [apply perm_swap|].
  etransitivity; [apply perm_skip, E1|].
  etransitivity; [apply perm_swap|].
  etransitivity; [apply perm_skip, E2|].
  etransitivity; [apply perm_swap|].
  apply perm_skip. symmetry. exact E3.
Qed.

(** *** The climb of [__push_heap] *)

Lemma push_heap_loop_length (fuel : nat) (v : list A) (hole : nat) (value : A) :
  length (push_heap_loop comp fuel v hole 0 value) = length v.
Proof.
  revert v hole. induction fuel as [|fuel IH]; intros v hole; cbn [push_heap_loop].
  - apply length_insert.
  - destruct (v !! par hole) as [p|]; [|apply length_insert].
    destruct (_ && _); [|apply length_insert].
    rewrite IH. apply length_insert.
Qed.

Lemma push_heap_loop_frame (fuel : nat) (v : list A) (hole : nat) (value : A) (j : nat) :
  (hole < j)%nat -> push_heap_loop comp fuel v hole 0 value !! j = v !! j.
Proof.
  revert v hole. induction fuel as [|fuel IH]; intros v hole Hj; cbn [push_heap_loop].
  - apply list_lookup_insert_ne. lia.
  - destruct (v !! par hole) as [p|]; [|apply list_lookup_insert_ne; lia].
    destruct (_ && _); [|apply list_lookup_insert_ne; lia].
    rewrite IH by lia. apply list_lookup_insert_ne. lia.
Qed.

Lemma push_heap_loop_perm (fuel : nat) (v : list A) (hole : nat) (value : A) :
  (hole < length v)%nat ->
  push_heap_loop comp fuel v hole 0 value ≡ₚ <[hole := value]> v.
Proof.
  revert v hole. induction fuel as [|fuel IH]; intros v hole Hh; cbn [push_heap_loop].
  - reflexivity.
  - destruct (v !! par hole) as [p|] eqn:Hp; [|reflexivity].
    destruct (Nat.ltb_spec 0 hole) as [Hpos|]; cbn [andb]; [|reflexivity].
    destruct (comp p value); [|reflexivity].
    rewrite IH by (rewrite length_insert; lia).
    apply insert_swap_perm; [lia | assumption | assumption].
Qed.

Lemma push_heap_loop_ordered (fuel : nat) (v : list A) (hole : nat) (value : A) (len : nat) :
  (hole <= fuel)%nat -> (hole < len)%nat -> (len <= length v)%nat ->
  (forall i, (0 < i < len)%nat -> i <> hole -> keyat key v (par i) <= keyat key v i) ->
  (forall c, (0 < c < len)%nat -> par c = hole -> key value <= keyat key v c) ->
  (forall c, (0 < c < len)%nat -> par c = hole -> (0 < hole)%nat ->
             keyat key v (par hole) <= keyat key v c) ->
  heap_ordered key len (push_heap_loop comp fuel v hole 0 value).
Proof.
  revert v hole. induction fuel as [|fuel IH]; intros v hole Hf Hh Hlen H1 H2 H3;
    cbn [push_heap_loop].
  - assert (hole = 0)%nat as -> by lia. intros i Hi.
    rewrite (keyat_insert_ne _ 0%nat i) by lia.
    destruct (Nat.eq_dec (par i) 0%nat) as [E|E].
    + rewrite E, keyat_insert_eq by lia. apply H2; lia.
    + rewrite keyat_insert_ne by lia. apply H1; lia.
  - destruct (lookup_lt_is_Some_2 v (par hole)) as [p Hp]; [lia|]. rewrite Hp.
    pose proof (keyat_lookup _ _ _ Hp) as Kp.
    assert (Hfinal : ((0 < hole)%nat -> key p <= key value) ->
                     heap_ordered key len (<[hole := value]> v)).
    { intros Hle i Hi. destruct (Nat.eq_dec i hole) as [->|Hne].
      - rewrite keyat_insert_eq by lia. rewrite keyat_insert_ne by lia.
        rewrite Kp. apply Hle. lia.
      - rewrite (keyat_insert_ne _ hole i) by lia.
        destruct (Nat.eq_dec (par i) hole) as [E|E].
        + rewrite E, keyat_insert_eq by lia. apply H2; lia.
        + rewrite keyat_insert_ne by lia. apply H1; lia. }
    destruct (Nat.ltb_spec 0 hole) as [Hpos|Hz]; cbn [andb]; [|apply Hfinal; lia].
    unfold greater_key at 1. destruct (Z.gtb_spec (key p) (key value)) as [Hgt|Hle];
      [|apply Hfinal; lia].
    assert (Hge : forall c, (0 < c < len)%nat -> par c = par hole ->
                            key p <= keyat key (<[hole := p]> v) c).
    { intros c Hc Hpc. destruct (Nat.eq_dec c hole) as [->|Hne].
      - rewrite keyat_insert_eq by lia. lia.
      - rewrite keyat_insert_ne by lia. rewrite <- Kp, <- Hpc. apply H1; lia. }
    apply IH.
    + lia.
    + lia.
    + rewrite length_insert. lia.
    + intros i Hi Hne. destruct (Nat.eq_dec i hole) as [->|Hih].
      * rewrite keyat_insert_eq by lia. rewrite keyat_insert_ne by lia. lia.
      * rewrite (keyat_insert_ne _ hole i) by lia.
        destruct (Nat.eq_dec (par i) hole) as [E|E].
        -- rewrite E, keyat_insert_eq by lia. rewrite <- Kp. apply H3; lia.
        -- rewrite keyat_insert_ne by lia. apply H1; lia.
    + intros c Hc Hpc. specialize (Hge c Hc Hpc). lia.
    + intros c Hc Hpc Hpp. specialize (Hge c Hc Hpc).
      rewrite keyat_insert_ne by lia.
      assert (keyat key v (par (par hole)) <= keyat key v (par hole)) by (apply H1; lia).
      lia.
Qed.

(** *** The descent of [__adjust_heap] *)

Lemma adjust_heap_loop_shape (fuel : nat) (v : list A) (hole len : nat)
    (v1 : list A) (hole1 : nat) :
  adjust_heap_loop comp fuel v hole len = (v1, hole1) ->
  (hole < length v)%nat -> (len <= length v)%nat ->
  length v1 = length v
  /\ (hole <= hole1)%nat
  /\ (hole1 < length v)%nat
  /\ (hole < len -> hole1 < len)%nat
  /\ (forall j, (len <= j)%nat -> v1 !! j = v !! j)
  /\ (forall x, <[hole1 := x]> v1 ≡ₚ <[hole := x]> v).
Proof.
  revert v hole. induction fuel as [|fuel IH]; intros v hole Heq Hh Hlen;
    cbn [adjust_heap_loop] in Heq.
  - injection Heq as <- <-. repeat split; auto.
  - destruct (Nat.ltb_spec hole ((len - 1) / 2)) as [Hc|Hc];
      [|injection Heq as <- <-; repeat split; auto].
    destruct (v !! (2 * (hole + 1))%nat) as [r|] eqn:Hr;
      [|injection Heq as <- <-; repeat split; auto].
    destruct (v !! (2 * (hole + 1) - 1)%nat) as [l|] eqn:Hl;
      [|injection Heq as <- <-; repeat split; auto].
    pose proof (lookup_lt_Some _ _ _ Hr) as Hrlt.
    destruct (comp r l).
    + apply IH in Heq; [|rewrite length_insert; lia ..].
      destruct Heq as (E1 & E2 & E3 & E4 & E5 & E6). rewrite length_insert in *.
      repeat split; try lia.
      * intros j Hj. rewrite E5 by exact Hj. apply list_lookup_insert_ne. lia.
      * intros x. rewrite E6. apply insert_swap_perm; [lia | lia | exact Hl].
    + apply IH in Heq; [|rewrite length_insert; lia ..].
      destruct Heq as (E1 & E2 & E3 & E4 & E5 & E6). rewrite length_insert in *.
      repeat split; try lia.
      * intros j Hj. rewrite E5 by exact Hj. apply list_lookup_insert_ne. lia.
      * intros x. rewrite E6. apply insert_swap_perm; [lia | lia | exact Hr].
Qed.

(** The order left behind by a hole that has taken the place of its
    children on its way down: every cell but the hole and its children
    respects its parent, and the children respect the hole's parent. *)
Lemma sink_step_ordered (v : list A) (hole child len : nat) (c : A) :
  (hole < child < len)%nat -> (len <= length v)%nat ->
  par child = hole -> v !! child = Some c ->
  (forall i, (0 < i < len)%nat -> par i = hole -> key c <= keyat key v i) ->
  (forall i, (0 < i < len)%nat -> i <> hole -> par i <> hole ->
             keyat key v (par i) <= keyat key v i) ->
  (forall i, (0 < i < len)%nat -> par i = hole -> (0 < hole)%nat ->
             keyat key v (par hole) <= keyat key v i) ->
  (forall i, (0 < i < len)%nat -> i <> child -> par i <> child ->
             keyat key (<[hole := c]> v) (par i) <= keyat key (<[hole := c]> v) i)
  /\ (forall i, (0 < i < len)%nat -> par i = child -> (0 < child)%nat ->
                keyat key (<[hole := c]> v) (par child) <= keyat key (<[hole := c]> v) i).
Proof.
  intros Hch Hlen Hpar Hc Hmin D1 D2.
  pose proof (keyat_lookup _ _ _ Hc) as Kc. split.
  - intros i Hi Hne Hpne. destruct (Nat.eq_dec i hole) as [->|Hih].
    + rewrite keyat_insert_eq by lia. rewrite keyat_insert_ne by lia.
      rewrite <- Kc. apply D2; lia.
    + rewrite (keyat_insert_ne _ hole i) by lia.
      destruct (Nat.eq_dec (par i) hole) as [E|E].
      * rewrite E, keyat_insert_eq by lia. apply Hmin; lia.
      * rewrite keyat_insert_ne by lia. apply D1; lia.
  - intros i Hi Hpi _. rewrite Hpar, keyat_insert_eq by lia.
    rewrite keyat_insert_ne by lia. rewrite <- Kc, <- Hpi. apply D1; lia.
Qed.

Lemma adjust_heap_loop_ordered (fuel : nat) (v : list A) (hole len : nat)
    (v1 : list A) (hole1 : nat) :
  adjust_heap_loop comp fuel v hole len = (v1, hole1) ->
  (len - hole <= fuel)%nat -> (hole < len)%nat -> (len <= length v)%nat ->
  (forall i, (0 < i < len)%nat -> i <> hole -> par i <> hole ->
             keyat key v (par i) <= keyat key v i) ->
  (forall i, (0 < i < len)%nat -> par i = hole -> (0 < hole)%nat ->
             keyat key v (par hole) <= keyat key v i) ->
  ((len - 1) / 2 <= hole1)%nat
  /\ (forall i, (0 < i < len)%nat -> i <> hole1 -> par i <> hole1 ->
                keyat key v1 (par i) <= keyat key v1 i)
  /\ (forall i, (0 < i < len)%nat -> par i = hole1 -> (0 < hole1)%nat ->
                keyat key v1 (par hole1) <= keyat key v1 i).
Proof.
  revert v hole. induction fuel as [|fuel IH]; intros v hole Heq Hf Hh Hlen D1 D2;
    cbn [adjust_heap_loop] in Heq; [lia|].
  destruct (Nat.ltb_spec hole ((len - 1) / 2)) as [Hc|Hc];
    [|injection Heq as <- <-; repeat split; auto].
  destruct (lookup_lt_is_Some_2 v (2 * (hole + 1))%nat) as [r Hr]; [lia|].
  destruct (lookup_lt_is_Some_2 v (2 * (hole + 1) - 1)%nat) as [l Hl]; [lia|].
  rewrite Hr, Hl in Heq.
  pose proof (keyat_lookup _ _ _ Hr) as Kr. pose proof (keyat_lookup _ _ _ Hl) as Kl.
  assert (Hkids : forall i, (0 < i)%nat -> par i = hole ->
                            i = (2 * (hole + 1))%nat \/ i = (2 * (hole + 1) - 1)%nat) by lia.
  unfold greater_key at 1 in Heq.
  destruct (Z.gtb_spec (key r) (key l)) as [Hgt|Hle].
  - destruct (sink_step_ordered v hole (2 * (hole + 1) - 1) len l) as [D1' D2'];
      try assumption; try lia.
    { intros i Hi Hpi. destruct (Hkids i) as [->| ->]; lia. }
    apply IH in Heq; try assumption; try lia. rewrite length_insert. lia.
  - destruct (sink_step_ordered v hole (2 * (hole + 1)) len r) as [D1' D2'];
      try assumption; try lia.
    { intros i Hi Hpi. destruct (Hkids i) as [->| ->]; lia. }
    apply IH in Heq; try assumption; try lia. rewrite length_insert. lia.
Qed.

Lemma adjust_heap_shape (v : list A) (len : nat) (value : A) :
  (0 < len <= length v)%nat ->
  length (adjust_heap comp v 0 len value) = length v
  /\ (forall j, (len <= j)%nat -> adjust_heap comp v 0 len value !! j = v !! j)
  /\ adjust_heap comp v 0 len value ≡ₚ <[0%nat := value]> v.
Proof.
  intros Hlen. unfold adjust_heap, push_heap_from.
  destruct (adjust_heap_loop comp len v 0 len) as [v1 hole1] eqn:Hloop.
  apply adjust_heap_loop_shape in Hloop as (L1 & _ & B1 & B1' & F1 & P1); [|lia ..].
  match goal with
  | |- context [let '(_, _) := ?ph in _] => remember ph as phase2 eqn:E
  end.
  assert (Hphase2 :
      length (fst phase2) = length v /\ (snd phase2 < len)%nat
      /\ (forall j, (len <= j)%nat -> fst phase2 !! j = v !! j)
      /\ (forall x, <[snd phase2 := x]> (fst phase2) ≡ₚ <[0%nat := x]> v)).
  { destruct phase2 as [v2 hole2]. cbn [fst snd]. symmetry in E.
    destruct (Nat.even len) eqn:Heven; cbn [andb] in E;
      [|injection E as <- <-; repeat split; auto; lia].
    destruct (Nat.leb_spec 2 len) as [H2|H2]; cbn [andb] in E;
      [|injection E as <- <-; repeat split; auto; lia].
    destruct (Nat.eqb_spec hole1 ((len - 2) / 2)) as [Hh|Hh];
      [|injection E as <- <-; repeat split; auto; lia].
    apply Nat.even_spec in Heven as [k Hk].
    destruct (v1 !! (2 * (hole1 + 1) - 1)%nat) as [l|] eqn:Hl;
      [|injection E as <- <-; repeat split; auto; lia].
    injection E as <- <-. rewrite length_insert. repeat split; try lia.
    - intros j Hj. rewrite list_lookup_insert_ne by lia. apply F1, Hj.
    - intros x. rewrite <- P1. apply insert_swap_perm; [lia | lia | exact Hl]. }
  clear E. destruct phase2 as [v2 hole2]. cbn [fst snd] in Hphase2.
  destruct Hphase2 as (L2 & B2 & F2 & P2).
  split; [rewrite push_heap_loop_length; exact L2|]. split.
  - intros j Hj. rewrite push_heap_loop_frame by lia. apply F2, Hj.
  - rewrite push_heap_loop_perm by lia. apply P2.
Qed.

Lemma adjust_heap_ordered (v : list A) (len : nat) (value : A) :
  (0 < len <= length v)%nat -> heap_ordered key len v ->
  heap_ordered key len (adjust_heap comp v 0 len value).
Proof.
  intros Hlen Hheap. unfold adjust_heap, push_heap_from.
  destruct (adjust_heap_loop comp len v 0 len) as [v1 hole1] eqn:Hloop.
  pose proof Hloop as Hshape.
  apply adjust_heap_loop_shape in Hshape as (L1 & _ & _ & B1 & _ & _); [|lia ..].
  apply adjust_heap_loop_ordered in Hloop as (Hbottom & D1 & D2);
    [|lia | lia | lia | intros; apply Hheap; lia | intros; lia].
  match goal with
  | |- context [let '(_, _) := ?ph in _] => remember ph as phase2 eqn:E
  end.
  assert (Hphase2 :
      (len <= length (fst phase2))%nat /\ (snd phase2 < len)%nat
      /\ (forall i, (0 < i < len)%nat -> par i <> snd phase2)
      /\ (forall i, (0 < i < len)%nat -> i <> snd phase2 ->
                    keyat key (fst phase2) (par i) <= keyat key (fst phase2) i)).
  { destruct phase2 as [v2 hole2]. cbn [fst snd]. symmetry in E.
    destruct (Nat.even len) eqn:Heven; cbn [andb] in E.
    2:{ injection E as <- <-.
        assert (Hodd : Nat.odd len = true) by (rewrite <- Nat.negb_even, Heven; reflexivity).
        apply Nat.odd_spec in Hodd as [k Hk].
        assert (Hleaf : forall i, (0 < i < len)%nat -> par i <> hole1) by lia.
        repeat split; try lia. intros i Hi Hne. apply D1; auto. }
    apply Nat.even_spec in Heven as [k Hk].
    destruct (Nat.leb_spec 2 len) as [H2|H2]; cbn [andb] in E; [|lia].
    destruct (Nat.eqb_spec hole1 ((len - 2) / 2)) as [Hh|Hh].
    2:{ injection E as <- <-.
        assert (Hleaf : forall i, (0 < i < len)%nat -> par i <> hole1) by lia.
        repeat split; try lia. intros i Hi Hne. apply D1; auto. }
    destruct (lookup_lt_is_Some_2 v1 (2 * (hole1 + 1) - 1)%nat) as [l Hl]; [lia|].
    rewrite Hl in E. injection E as <- <-.
    destruct (sink_step_ordered v1 hole1 (2 * (hole1 + 1) - 1) len l) as [D1' D2'];
      try assumption; try lia.
    { intros i Hi Hpi. assert (i = (2 * (hole1 + 1) - 1)%nat) as -> by lia.
      rewrite (keyat_lookup _ _ _ Hl). lia. }
    rewrite length_insert.
    assert (Hleaf : forall i, (0 < i < len)%nat -> par i <> (2 * (hole1 + 1) - 1)%nat) by lia.
    repeat split; try lia. intros i Hi Hne. apply D1'; auto. }
  clear E. destruct phase2 as [v2 hole2]. cbn [fst snd] in Hphase2.
  destruct Hphase2 as (L2 & B2 & Hleaf & Hord).
  apply push_heap_loop_ordered; try lia; try assumption.
  - intros c Hc Hpc. exfalso. exact (Hleaf c Hc Hpc).
  - intros c Hc Hpc. exfalso. exact (Hleaf c Hc Hpc).
Qed.

(** *** [priority_queue::push] and [priority_queue::pop] *)

Lemma pq_push_length (v : list A) (x : A) : length (pq_push comp v x) = S (length v).
Proof.
  unfold pq_push, push_heap, push_heap_from. rewrite last_snoc.
  rewrite push_heap_loop_length, length_app. cbn. lia.
Qed.

Lemma pq_push_perm (v : list A) (x : A) : pq_push comp v x ≡ₚ x :: v.
Proof.
  unfold pq_push, push_heap, push_heap_from. rewrite last_snoc.
  rewrite length_app. cbn [length]. replace (length v + 1 - 1)%nat with (length v) by lia.
  rewrite push_heap_loop_perm by (rewrite length_app; cbn; lia).
  rewrite list_insert_id by (rewrite lookup_app_r, Nat.sub_diag by lia; reflexivity).
  symmetry. apply Permutation_cons_append.
Qed.

Lemma pq_push_ordered (v : list A) (x : A) :
  heap_ordered key (length v) v ->
  heap_ordered key (length (pq_push comp v x)) (pq_push comp v x).
Proof.
  intros Hheap. rewrite pq_push_length.
  unfold pq_push, push_heap, push_heap_from. rewrite last_snoc.
  rewrite length_app. cbn [length]. replace (length v + 1 - 1)%nat with (length v) by lia.
  apply push_heap_loop_ordered; try lia.
  - rewrite length_app. cbn. lia.
  - intros i Hi Hne. unfold keyat. rewrite !lookup_app_l by lia. apply Hheap. lia.
Qed.

Lemma removelast_lookup_last (l : list A) (n : nat) (x : A) :
  length l = S n -> l !! n = Some x -> removelast l ++ [x] = l.
Proof.
  revert n. induction l as [|y l IH]; intros n Hlen Hn; [discriminate|].
  destruct l as [|z l].
  - cbn in Hlen. assert (n = 0)%nat as -> by lia. cbn in *. congruence.
  - destruct n as [|n]; [cbn in Hlen; lia|].
    change (removelast (y :: z :: l)) with (y :: removelast (z :: l)).
    cbn [app]. f_equal. apply (IH n); [cbn in *; lia | exact Hn].
Qed.

Lemma pop_heap_shape (v : list A) (top : A) :
  head v = Some top ->
  length (pop_heap comp v) = length v
  /\ pop_heap comp v !! (length v - 1)%nat = Some top
  /\ pop_heap comp v ≡ₚ v.
Proof.
  intros Htop. unfold pop_heap.
  assert (H0 : v !! 0%nat = Some top) by (rewrite <- head_lookup; exact Htop).
  pose proof (lookup_lt_Some _ _ _ H0) as Hpos.
  destruct (Nat.ltb_spec 1 (length v)) as [Hlen|Hlen].
  - rewrite Htop.
    destruct (last v) as [value|] eqn:Hlast;
      [|apply last_None in Hlast; subst v; discriminate].
    rewrite last_lookup in Hlast.
    replace (Init.Nat.pred (length v)) with (length v - 1)%nat in Hlast by lia.
    set (n := (length v - 1)%nat) in *.
    destruct (adjust_heap_shape (<[n := top]> v) n value) as (L & F & P).
    { rewrite length_insert. lia. }
    rewrite length_insert in L. split; [exact L|]. split.
    + rewrite F by lia. apply list_lookup_insert_eq. lia.
    + rewrite P. rewrite insert_swap_perm by (first [lia | exact H0]).
      rewrite list_insert_id by exact Hlast. reflexivity.
  - split; [reflexivity|]. split; [|reflexivity].
    replace (length v - 1)%nat with 0%nat by lia. exact H0.
Qed.

Lemma pq_pop_perm (v : list A) (top : A) :
  head v = Some top -> top :: pq_pop comp v ≡ₚ v.
Proof.
  intros Htop. unfold pq_pop.
  destruct (pop_heap_shape v top Htop) as (L & Hn & P).
  assert (Hpos : (0 < length v)%nat) by (destruct v; [discriminate | cbn; lia]).
  rewrite <- P at 2.
  rewrite <- (removelast_lookup_last (pop_heap comp v) (length v - 1) top) at 2
    by (first [lia | exact Hn]).
  apply Permutation_cons_append.
Qed.

Lemma pq_pop_ordered (v : list A) :
  heap_ordered key (length v) v ->
  heap_ordered key (length (pq_pop comp v)) (pq_pop comp v).
Proof.
  intros Hheap. destruct (head v) as [top|] eqn:Htop.
  2:{ apply head_None in Htop. subst v. intros i Hi. cbn in Hi. lia. }
  destruct (pop_heap_shape v top Htop) as (L & Hn & _).
  assert (H0 : v !! 0%nat = Some top) by (rewrite <- head_lookup; exact Htop).
  pose proof (lookup_lt_Some _ _ _ H0) as Hpos.
  pose proof (removelast_lookup_last (pop_heap comp v) (length v - 1) top
                ltac:(lia) Hn) as Hsplit.
  assert (Hlen : length (pq_pop comp v) = (length v - 1)%nat).
  { unfold pq_pop. apply (f_equal (@length A)) in Hsplit.
    rewrite length_app in Hsplit. cbn in Hsplit. lia. }
  rewrite Hlen.
  assert (Hord : heap_ordered key (length v - 1) (pop_heap comp v)).
  { unfold pop_heap. destruct (Nat.ltb_spec 1 (length v)) as [H1|H1];
      [|intros i Hi; lia].
    rewrite Htop. destruct (last v) as [value|]; [|intros i Hi; apply Hheap; lia].
    apply adjust_heap_ordered.
    - rewrite length_insert. lia.
    - intros i Hi. rewrite !keyat_insert_ne by lia. apply Hheap. lia. }
  intros i Hi. specialize (Hord i Hi). unfold pq_pop.
  unfold keyat in *. rewrite <- Hsplit in Hord.
  rewrite !lookup_app_l in Hord by (fold (pq_pop comp v); lia). exact Hord.
Qed.

Lemma heap_top_least (v : list A) (top : A) :
  heap_ordered key (length v) v -> head v = Some top ->
  Forall (fun x => key top <= key x) v.
Proof.
  intros Hheap Htop.
  assert (H0 : keyat key v 0 = key top).
  { apply keyat_lookup. rewrite <- head_lookup. exact Htop. }
  assert (Hall : forall i, (i < length v)%nat -> key top <= keyat key v i).
  { intros i. induction i as [i IH] using lt_wf_ind. intros Hi.
    destruct (Nat.eq_dec i 0%nat) as [->|Hne]; [lia|].
    assert (key top <= keyat key v (par i)) by (apply IH; lia).
    assert (keyat key v (par i) <= keyat key v i) by (apply Hheap; lia). lia. }
  apply Forall_lookup. intros i x Hx.
  rewrite <- (keyat_lookup _ _ _ Hx). apply Hall. eapply lookup_lt_Some, Hx.
Qed.

Lemma is_heap_ordered (v : list A) :
  is_heap key v = true -> heap_ordered key (length v) v.
Proof.
  unfold is_heap. rewrite forallb_forall. intros H i Hi.
  apply Z.leb_le, H, in_seq. lia.
Qed.

End HeapFacts.

(** ** Orders *)

Lemma price_at_spec (ticks : list Tick) (fill_ts : Z) (order_price : float) :
  spec_fill_price ticks fill_ts order_price (Backtester.price_at ticks fill_ts order_price).
Proof.
  induction ticks as [|t ticks IH]; cbn [Backtester.price_at].
  - right. split; [constructor | reflexivity].
  - destruct (Z.geb_spec (timestamp_us t) fill_ts) as [Hge|Hlt].
    + left. exists [], t, ticks. repeat split; [constructor | lia].
    + destruct IH as [(before & tick & after & -> & Hb & Ht & Hp) | [Hall Hp]].
      * left. exists (t :: before), tick, after. repeat split; auto.
      * right. split; [constructor; auto | assumption].
Qed.

Lemma double_to_int64_Z_of_float (f : float) (z : Z) :
  double_to_int64 f = Some z -> Z_of_float f = z.
Proof.
  unfold double_to_int64, Z_of_float.
  destruct (Prim2SF f) as [s| | |s m e]; try discriminate.
  - intros [= <-]. reflexivity.
  - cbv zeta. destruct (Int64.in_rangeb _); [|discriminate]. intros [= <-].
    destruct (Z.leb_spec 0 e) as [Hle|Hlt].
    + rewrite Z.shiftl_mul_pow2 by lia.
      rewrite (Z.max_l e 0), (Z.max_r (- e) 0) by lia.
      rewrite Z.pow_0_r, Z.div_1_r. reflexivity.
    + rewrite Z.shiftr_div_pow2 by lia.
      rewrite (Z.max_r e 0), (Z.max_l (- e) 0) by lia.
      rewrite Z.pow_0_r, Z.mul_1_r. reflexivity.
Qed.

Lemma push_event_queue_perm (b : Backtester.t) (e : Event) :
  Backtester.event_queue_ (Backtester.push_event b e) ≡ₚ e :: Backtester.event_queue_ b.
Proof.
  unfold Backtester.push_event. cbn [Backtester.event_queue_ Backtester.set_event_queue].
  apply (pq_push_perm getTimestamp).
Qed.

(** C8.  Processing an order enqueues exactly one more event, a fill, and
    changes nothing else.  The fill is stamped with the order's timestamp
    plus [latency_ms * 1000.0] converted to [int64_t], it carries the
    order's symbol, direction and quantity, its price is that of the first
    tick of the symbol at or after the fill timestamp (the order price when
    there is none), and its commission is [fill_price * quantity * 0.0001].
    The conversion and the sum must be defined: a finite product within
    [int64_t], a sum within [int64_t].  The tick array need not be sorted. *)
Theorem order_event_fill (b : Backtester.t) (ts : Z) (symbol : string)
    (direction : Direction) (quantity order_price : float) (latency : Z) :
  double_to_int64 (Backtester.latency_ms_ b * 1000)%float = Some latency ->
  Int64.in_range (ts + latency) ->
  exists fill_price,
    spec_fill_price (ticks_of b symbol) (ts + latency) order_price fill_price
    /\ Backtester.event_queue_
         (Backtester.processOrderEvent b ts symbol direction quantity order_price)
       ≡ₚ FillEvent (ts + latency) symbol direction quantity fill_price
            (fill_price * quantity * 0.0001)%float
          :: Backtester.event_queue_ b
    /\ Backtester.set_event_queue
         (Backtester.processOrderEvent b ts symbol direction quantity order_price)
         (Backtester.event_queue_ b)
       = b.
Proof.
  intros Hcast Hrange.
  assert (Hlat : Backtester.latency_us b = latency)
    by (apply double_to_int64_Z_of_float; exact Hcast).
  exists (from_option (fun ticks => Backtester.price_at ticks (ts + latency) order_price)
            order_price (StdMap.find symbol (Backtester.tick_data_ b))).
  split; [|split].
  - unfold ticks_of.
    destruct (StdMap.find symbol (Backtester.tick_data_ b)) as [ticks|]; cbn [from_option id].
    + apply price_at_spec.
    + right. split; [constructor | reflexivity].
  - unfold Backtester.processOrderEvent. rewrite push_event_queue_perm.
    unfold Backtester.fill_of_order, Backtester.applyLatency, Int64.add.
    rewrite Hlat, (Int64_wrap_in_range _ Hrange).
    destruct (StdMap.find symbol (Backtester.tick_data_ b)); reflexivity.
  - destruct b. reflexivity.
Qed.

Lemma order_event_fill_witness :
  exists fill_price,
    spec_fill_price (ticks_of (Backtester.engine (Scenario.world Scenario.rally)) "TICKER")
      2200000 130 fill_price
    /\ Backtester.event_queue_
         (Backtester.processOrderEvent (Backtester.engine (Scenario.world Scenario.rally))
            2000000 "TICKER" LONG 150 130)
       ≡ₚ FillEvent 2200000 "TICKER" LONG 150 fill_price (fill_price * 150 * 0.0001)%float
          :: Backtester.event_queue_ (Backtester.engine (Scenario.world Scenario.rally))
    /\ Backtester.set_event_queue
         (Backtester.processOrderEvent (Backtester.engine (Scenario.world Scenario.rally))
            2000000 "TICKER" LONG 150 130)
         (Backtester.event_queue_ (Backtester.engine (Scenario.world Scenario.rally)))
       = Backtester.engine (Scenario.world Scenario.rally).
Proof.
  apply (order_event_fill (Backtester.engine (Scenario.world Scenario.rally))
           2000000 "TICKER" LONG 150 130 200000).
  - vm_compute. reflexivity.
  - vm_compute. split; discriminate.
Defined.

(** The order of the witness, placed at the twentieth tick, is filled 200 ms
    later at the price of the twenty-second. *)
Lemma order_event_fill_example :
  Backtester.fill_of_order (Backtester.engine (Scenario.world Scenario.rally))
    2000000 "TICKER" LONG 150 130
  = FillEvent 2200000 "TICKER" LONG 150 220 (220 * 150 * 0.0001)%float.
Proof. vm_compute. reflexivity. Qed.

(** ** The association-list map *)

Section StdMapFacts.

Context {V : Type} (P : V -> Prop).

Lemma StdMap_find_all (m : StdMap.t V) (k : string) (v : V) :
  all_values P m -> StdMap.find k m = Some v -> P v.
Proof.
  unfold all_values. induction m as [|[k' v'] m IH]; cbn [StdMap.find]; [discriminate|].
  intros Hall. apply Forall_cons in Hall as [Hv Hm].
  destruct (String.eqb k k'); [intros [= <-]; exact Hv | apply IH, Hm].
Qed.

Lemma StdMap_insert_all (m : StdMap.t V) (k : string) (v : V) :
  all_values P m -> P v -> all_values P (StdMap.insert k v m).
Proof.
  unfold all_values. intros Hall Hv.
  induction m as [|[k' v'] m IH]; cbn [StdMap.insert].
  - constructor; [exact Hv | constructor].
  - apply Forall_cons in Hall as [Hv' Hm].
    destruct (String.compare k k').
    + constructor; assumption.
    + constructor; [exact Hv | constructor; assumption].
    + constructor; [exact Hv' | apply IH, Hm].
Qed.

Lemma StdMap_index_all (m m' : StdMap.t V) (d v : V) (k : string) :
  all_values P m -> P d -> StdMap.index d k m = (v, m') -> P v /\ all_values P m'.
Proof.
  intros Hall Hd. unfold StdMap.index.
  destruct (StdMap.find k m) as [v0|] eqn:E; intros [= <- <-].
  - split; [eapply StdMap_find_all; eassumption | exact Hall].
  - split; [exact Hd | apply StdMap_insert_all; assumption].
Qed.

End StdMapFacts.

Lemma queue_weight_perm (q q' : list Event) :
  q ≡ₚ q' -> Backtester.queue_weight q = Backtester.queue_weight q'.
Proof.
  unfold Backtester.queue_weight. induction 1; cbn [fold_right] in *; lia.
Qed.

Lemma all_started_by_mono (t t' : Z) (m : StdMap.t Position.t) :
  t <= t' -> all_values (position_started_by t) m -> all_values (position_started_by t') m.
Proof.
  intros Ht. unfold all_values. intros Hall. eapply Forall_impl; [exact Hall|].
  intros [k p] H Hq. cbn in *. specialize (H Hq). lia.
Qed.

Lemma push_event_inv (t : Z) (b : Backtester.t) (e : Event) :
  loop_inv t b -> t <= getTimestamp e ->
  event_in_range (Backtester.latency_us b) e = true ->
  loop_inv t (Backtester.push_event b e)
  /\ Backtester.queue_weight (Backtester.event_queue_ (Backtester.push_event b e))
     = (Backtester.event_weight e + Backtester.queue_weight (Backtester.event_queue_ b))%nat.
Proof.
  intros (HL & [Hheap Hrange] & Hlb & Hpos & Hlog) Ht He.
  unfold Backtester.push_event.
  pose proof (pq_push_perm getTimestamp (Backtester.event_queue_ b) e) as Hperm.
  change (greater_key getTimestamp) with EventComparator in Hperm.
  split.
  - split; [exact HL|]. split; [split|].
    + apply (pq_push_ordered getTimestamp), Hheap.
    + cbn [Backtester.event_queue_ Backtester.set_event_queue].
      eapply Permutation_Forall; [symmetry; exact Hperm|]. constructor; assumption.
    + split; [|split; assumption].
      cbn [Backtester.event_queue_ Backtester.set_event_queue].
      eapply Permutation_Forall; [symmetry; exact Hperm|]. constructor; assumption.
  - cbn [Backtester.event_queue_ Backtester.set_event_queue].
    rewrite (queue_weight_perm _ _ Hperm). reflexivity.
Qed.

(** *** Fills *)

Lemma closePosition_inv (t : Z) (b : Backtester.t) (symbol : string) (exit_price : float)
    (ts : Z) :
  all_values (position_started_by t) (Backtester.positions_ b) ->
  Forall record_ordered (Backtester.trade_log_ b) ->
  t <= ts ->
  let b' := Backtester.closePosition b symbol exit_price ts in
  all_values (position_started_by t) (Backtester.positions_ b')
  /\ Forall record_ordered (Backtester.trade_log_ b')
  /\ Backtester.event_queue_ b' = Backtester.event_queue_ b
  /\ Backtester.latency_ms_ b' = Backtester.latency_ms_ b
  /\ Backtester.tick_data_ b' = Backtester.tick_data_ b.
Proof.
  intros Hpos Hlog Ht. unfold Backtester.closePosition.
  destruct (StdMap.find symbol (Backtester.positions_ b)) as [position|] eqn:Hfind;
    [|repeat split; assumption].
  destruct (PrimFloat.eqb (Position.quantity position) 0) eqn:Hq;
    [repeat split; assumption|].
  pose proof (StdMap_find_all _ _ _ _ Hpos Hfind Hq) as Hstart.
  cbn. repeat split.
  - apply StdMap_insert_all; [exact Hpos|]. intros Hopen. cbn in Hopen. discriminate.
  - apply Forall_app. split; [exact Hlog|]. constructor; [|constructor].
    unfold record_ordered. cbn. lia.
Qed.

Lemma updatePosition_inv (t : Z) (b : Backtester.t) (ts : Z) (symbol : string)
    (direction : Direction) (quantity fill_price : float) :
  all_values (position_started_by t) (Backtester.positions_ b) ->
  Forall record_ordered (Backtester.trade_log_ b) ->
  t <= ts ->
  let b' := Backtester.updatePosition b ts symbol direction quantity fill_price in
  all_values (position_started_by ts) (Backtester.positions_ b')
  /\ Forall record_ordered (Backtester.trade_log_ b')
  /\ Backtester.event_queue_ b' = Backtester.event_queue_ b
  /\ Backtester.latency_ms_ b' = Backtester.latency_ms_ b
  /\ Backtester.tick_data_ b' = Backtester.tick_data_ b.
Proof.
  intros Hpos Hlog Ht. unfold Backtester.updatePosition.
  apply (all_started_by_mono t ts _ Ht) in Hpos.
  destruct (StdMap.index (Backtester.new_position symbol) symbol (Backtester.positions_ b))
    as [position positions] eqn:Hindex.
  apply (StdMap_index_all (position_started_by ts)) in Hindex as [Hp Hps];
    [|exact Hpos|intros H; cbn in H; discriminate].
  destruct direction.
  - destruct (PrimFloat.eqb (Position.quantity position) 0) eqn:Hq; cbn.
    + repeat split; try assumption. apply StdMap_insert_all; [exact Hps|].
      intros _. cbn. lia.
    + repeat split; try assumption. apply StdMap_insert_all; [exact Hps|].
      intros _. cbn. apply Hp. exact Hq.
  - cbn. repeat split; assumption.
  - destruct (PrimFloat.eqb (Position.quantity position) 0) eqn:Hq; cbn [negb].
    + cbn. repeat split; assumption.
    + destruct (closePosition_inv ts (Backtester.set_positions b positions)
                  symbol fill_price ts) as (H1 & H2 & H3 & H4 & H5);
        [exact Hps | exact Hlog | lia |].
      repeat split; assumption.
Qed.

(** *** Market updates, signals and orders *)

Lemma processMarketUpdate_signals_shape (s : Strategy.NewsMomentumStrategy)
    (store : ClassifierStore) (ts : Z) (tick : Tick) :
  let signals := snd (Strategy.processMarketUpdate s store ts tick) in
  signals = [] \/ exists symbol d q p, signals = [SignalEvent ts symbol d q p].
Proof.
  unfold Strategy.processMarketUpdate.
  set (store1 := match Strategy.regime_classifier_ s with Some _ => _ | None => _ end).
  set (s1 := Strategy.set_indicators s _).
  destruct (Strategy.checkEntryConditions s1 store1 tick) as [entry s2].
  repeat match goal with
         | |- context [if ?c then _ else _] => destruct c
         end; cbn [snd]; eauto 6.
Qed.

Lemma in_range_latency_le (latency ts : Z) (e : Event) :
  0 <= latency -> Int64.in_rangeb (ts + latency) = true ->
  ts <= Int64.add ts latency.
Proof.
  intros HL Hr. apply Int64_in_rangeb_spec in Hr.
  unfold Int64.add. rewrite (Int64_wrap_in_range _ Hr). lia.
Qed.

Lemma processEvent_inv (w : Backtester.World) (e : Event) :
  loop_inv (getTimestamp e) (Backtester.engine w) ->
  event_in_range (Backtester.latency_us (Backtester.engine w)) e = true ->
  let w' := Backtester.processEvent w e in
  loop_inv (getTimestamp e) (Backtester.engine w')
  /\ Backtester.latency_ms_ (Backtester.engine w') = Backtester.latency_ms_ (Backtester.engine w)
  /\ (Backtester.queue_weight (Backtester.event_queue_ (Backtester.engine w')) + 1
      <= Backtester.queue_weight (Backtester.event_queue_ (Backtester.engine w))
         + Backtester.event_weight e)%nat.
Proof.
  intros Hinv Hrange. cbv zeta.
  destruct e as [ts tick|ts sym d q p|ts sym d q p|ts sym d q p c];
    cbn [Backtester.processEvent getTimestamp Backtester.event_weight] in *.
  - (* market update *)
    unfold Backtester.processMarketUpdate.
    destruct (Backtester.string_empty _); [split; [exact Hinv | split; [reflexivity | lia]]|].
    destruct (StdMap.find _ _) as [strategy|];
      [|split; [exact Hinv | split; [reflexivity | lia]]].
    pose proof (processMarketUpdate_signals_shape strategy (Backtester.classifiers w) ts tick)
      as Hshape.
    destruct (Strategy.processMarketUpdate strategy (Backtester.classifiers w) ts tick)
      as [[strategy' store'] signals].
    cbn [snd] in Hshape. cbn [Backtester.engine].
    destruct Hshape as [-> | (symbol & d & q & p & ->)]; cbn [fold_left].
    + split; [exact Hinv | split; [reflexivity|]].
      cbn [Backtester.event_queue_ Backtester.set_strategies]. lia.
    + match goal with
      | |- context [Backtester.push_event ?b1 ?sig] =>
          destruct (push_event_inv ts b1 sig) as [Hi Hw]
      end; [exact Hinv | cbn; lia | exact Hrange |].
      split; [exact Hi|]. split; [reflexivity|]. rewrite Hw.
      cbn [Backtester.event_queue_ Backtester.set_strategies Backtester.event_weight]. lia.
  - (* signal *)
    unfold Backtester.processSignalEvent. cbn [Backtester.engine].
    destruct (push_event_inv ts (Backtester.engine w) (OrderEvent ts sym d q p))
      as [Hi Hw]; [exact Hinv | cbn; lia | exact Hrange |].
    split; [exact Hi|]. split; [reflexivity|]. rewrite Hw.
    cbn [Backtester.event_weight]. lia.
  - (* order *)
    unfold Backtester.processOrderEvent. cbn [Backtester.engine].
    set (b := Backtester.engine w) in *.
    assert (HL : 0 <= Backtester.latency_us b) by apply Hinv.
    apply andb_prop in Hrange as [_ Hr].
    destruct (push_event_inv ts b (Backtester.fill_of_order b ts sym d q p)) as [Hi Hw];
      [exact Hinv
      |unfold Backtester.fill_of_order, Backtester.applyLatency; cbn [getTimestamp];
       apply (in_range_latency_le _ _ (OrderEvent ts sym d q p)); assumption
      |reflexivity|].
    split; [exact Hi|]. split; [reflexivity|]. rewrite Hw.
    unfold Backtester.fill_of_order. cbn [Backtester.event_weight]. lia.
  - (* fill *)
    unfold Backtester.processFillEvent. cbn [Backtester.engine].
    set (b := Backtester.engine w) in *.
    destruct Hinv as (HL & [Hheap Hr] & Hlb & Hpos & Hlog).
    destruct (updatePosition_inv ts b ts sym d q p) as (H1 & H2 & H3 & H4 & H5);
      [exact Hpos | exact Hlog | lia |].
    unfold loop_inv, queue_inv, Backtester.latency_us. rewrite H3, H4.
    repeat split; try assumption. lia.
Qed.

Lemma dispatch_inv (t : Z) (w w' : Backtester.World) (e : Event) :
  loop_inv t (Backtester.engine w) ->
  Backtester.dispatch w = Some (e, w') ->
  t <= getTimestamp e
  /\ loop_inv (getTimestamp e) (Backtester.engine w')
  /\ Backtester.latency_ms_ (Backtester.engine w') = Backtester.latency_ms_ (Backtester.engine w)
  /\ (Backtester.queue_weight (Backtester.event_queue_ (Backtester.engine w'))
      < Backtester.queue_weight (Backtester.event_queue_ (Backtester.engine w)))%nat.
Proof.
  intros (HL & [Hheap Hrange] & Hlb & Hpos & Hlog). unfold Backtester.dispatch, pq_top.
  set (b := Backtester.engine w) in *.
  destruct (head (Backtester.event_queue_ b)) as [top|] eqn:Htop; [|discriminate].
  intros [= <- <-].
  pose proof (pq_pop_perm getTimestamp _ _ Htop) as Hperm.
  change (greater_key getTimestamp) with EventComparator in Hperm.
  pose proof (heap_top_least getTimestamp _ _ Hheap Htop) as Hleast.
  assert (Hin : forall (P : Event -> Prop), Forall P (Backtester.event_queue_ b) ->
                  P top /\ Forall P (pq_pop EventComparator (Backtester.event_queue_ b))).
  { intros P HP. apply (Permutation_Forall (Permutation_sym Hperm)) in HP.
    apply Forall_cons in HP. exact HP. }
  destruct (Hin _ Hlb) as [Ht _]. destruct (Hin _ Hrange) as [Hrt Hrq].
  destruct (Hin _ Hleast) as [_ Hlq].
  split; [exact Ht|].
  match goal with
  | |- context [Backtester.processEvent ?w1 top] =>
      destruct (processEvent_inv w1 top) as (Hi & Hl & Hw)
  end.
  - cbn [Backtester.engine]. split; [exact HL|]. split; [split|].
    + apply (pq_pop_ordered getTimestamp), Hheap.
    + exact Hrq.
    + split; [exact Hlq|]. split; [|exact Hlog].
      apply (all_started_by_mono t); [exact Ht | exact Hpos].
  - exact Hrt.
  - split; [exact Hi|]. split; [exact Hl|].
    cbn [Backtester.engine Backtester.event_queue_ Backtester.set_event_queue
           Backtester.set_current_time_us] in Hw.
    rewrite <- (queue_weight_perm _ _ Hperm).
    cbn [Backtester.queue_weight fold_right]. fold (Backtester.queue_weight).
    unfold Backtester.queue_weight in *. lia.
Qed.

Lemma StdMap_find_insert_other {V : Type} (m : StdMap.t V) (k k' : string) (v : V) :
  k' <> k -> StdMap.find k' (StdMap.insert k v m) = StdMap.find k' m.
Proof.
  intros Hne. apply String.eqb_neq in Hne.
  induction m as [|[k0 v0] m IH]; cbn [StdMap.insert StdMap.find].
  - rewrite Hne. reflexivity.
  - destruct (String.compare k k0) eqn:E; cbn [StdMap.find].
    + apply String.compare_eq_iff in E. subst k0. rewrite Hne. reflexivity.
    + rewrite Hne. reflexivity.
    + rewrite IH. reflexivity.
Qed.

(** *** The loop *)

Lemma queue_weight_zero (q : list Event) : Backtester.queue_weight q = 0%nat -> q = [].
Proof.
  destruct q as [|e q]; [reflexivity|]. cbn. destruct e; cbn; lia.
Qed.

Lemma event_loop_inv (fuel : nat) (w : Backtester.World) (t : Z) :
  loop_inv t (Backtester.engine w) ->
  (exists t', t <= t' /\ loop_inv t' (Backtester.engine (fst (Backtester.event_loop fuel w))))
  /\ Forall (fun e => t <= getTimestamp e) (snd (Backtester.event_loop fuel w))
  /\ nondecreasing (snd (Backtester.event_loop fuel w))
  /\ ((Backtester.queue_weight (Backtester.event_queue_ (Backtester.engine w)) <= fuel)%nat ->
      Backtester.event_queue_ (Backtester.engine (fst (Backtester.event_loop fuel w))) = []).
Proof.
  revert w t. induction fuel as [|fuel IH]; intros w t Hinv; cbn [Backtester.event_loop].
  - cbn [fst snd]. split; [exists t; split; [lia | exact Hinv]|].
    split; [constructor|]. split; [constructor|].
    intros Hw. apply queue_weight_zero. lia.
  - destruct (Backtester.dispatch w) as [[e w']|] eqn:Hd.
    + destruct (dispatch_inv t w w' e Hinv Hd) as (Ht & Hinv' & _ & Hw).
      destruct (IH w' (getTimestamp e) Hinv') as ((t' & Ht' & Hfinal) & Hall & Hsorted & Hdrain).
      destruct (Backtester.event_loop fuel w') as [w'' trace]. cbn [fst snd] in *.
      split; [exists t'; split; [lia | exact Hfinal]|]. split.
      * constructor; [exact Ht|]. eapply Forall_impl; [exact Hall|]. cbn. intros; lia.
      * split; [constructor; assumption|]. intros Hfuel. apply Hdrain. lia.
    + cbn [fst snd]. split; [exists t; split; [lia | exact Hinv]|].
      split; [constructor|]. split; [constructor|]. intros _.
      unfold Backtester.dispatch, pq_top in Hd.
      destruct (Backtester.event_queue_ (Backtester.engine w)); [reflexivity | discriminate].
Qed.

Lemma queue_ok_inv (b : Backtester.t) : queue_ok b = true -> queue_inv b.
Proof.
  unfold queue_ok, queue_inv. intros H. apply andb_prop in H as [Hh Hr]. split.
  - apply is_heap_ordered, Hh.
  - apply List.Forall_forall. rewrite forallb_forall in Hr. exact Hr.
Qed.

(** Before the first turn of the loop the invariant holds at the timestamp
    of the top of the queue. *)
Lemma initial_loop_inv (b : Backtester.t) :
  0 <= Backtester.latency_us b -> queue_inv b ->
  Backtester.positions_ b = [] -> Backtester.trade_log_ b = [] ->
  exists t, loop_inv t b.
Proof.
  intros HL [Hheap Hrange] Hpos Hlog.
  destruct (head (Backtester.event_queue_ b)) as [top|] eqn:Htop.
  - exists (getTimestamp top). split; [exact HL|]. split; [split; assumption|]. split.
    + apply (heap_top_least getTimestamp); assumption.
    + rewrite Hpos, Hlog. split; constructor.
  - exists 0. apply head_None in Htop. split; [exact HL|]. split; [split; assumption|].
    rewrite Htop, Hpos, Hlog. repeat split; constructor.
Qed.

(** *** The set-up calls *)

Lemma push_event_queue_inv (b : Backtester.t) (e : Event) :
  queue_inv b -> event_in_range (Backtester.latency_us b) e = true ->
  queue_inv (Backtester.push_event b e).
Proof.
  intros [Hheap Hrange] He. unfold Backtester.push_event. split.
  - apply (pq_push_ordered getTimestamp), Hheap.
  - cbn [Backtester.event_queue_ Backtester.set_event_queue].
    pose proof (pq_push_perm getTimestamp (Backtester.event_queue_ b) e) as Hperm.
    eapply Permutation_Forall; [symmetry; exact Hperm|]. constructor; assumption.
Qed.

Lemma push_ticks_fresh (latency_ms : float) (ticks : list Tick) (b : Backtester.t) :
  fresh_engine latency_ms b ->
  forallb (tick_in_range (Backtester.latency_us b)) ticks = true ->
  fresh_engine latency_ms
    (fold_left (fun b tick => Backtester.push_event b (MarketUpdateEvent (timestamp_us tick) tick))
       ticks b).
Proof.
  revert b. induction ticks as [|tick ticks IH]; intros b Hf Hr; cbn [fold_left];
    [exact Hf|].
  cbn [forallb] in Hr. apply andb_prop in Hr as [Ht Hr].
  apply IH; [|exact Hr]. destruct Hf as (Hl & Hq & Hp & Hg).
  split; [exact Hl|]. split; [|split; assumption].
  apply push_event_queue_inv; [exact Hq | exact Ht].
Qed.

Lemma setup_fresh (latency_ms : float) (calls : list ApiCall) :
  forallb (call_in_range (Z_of_float (latency_ms * 1000))) calls = true ->
  fresh_engine latency_ms (setup latency_ms calls).
Proof.
  unfold setup.
  assert (H0 : fresh_engine latency_ms (Backtester.ctor latency_ms)).
  { split; [reflexivity|]. split; [|split; reflexivity].
    split; [intros i Hi; cbn in Hi; lia | constructor]. }
  revert H0. generalize (Backtester.ctor latency_ms) as b.
  induction calls as [|c calls IH]; intros b Hf Hr; cbn [fold_left]; [exact Hf|].
  cbn [forallb] in Hr. apply andb_prop in Hr as [Hc Hr].
  apply IH; [|exact Hr]. destruct c as [ticks symbol | symbol strategy]; cbn [api_call].
  - unfold Backtester.loadTickData. destruct ticks as [|tick ticks]; [exact Hf|].
    cbn [snd]. apply push_ticks_fresh.
    + destruct Hf as (Hl & Hq & Hp & Hg). repeat split; try assumption; apply Hq.
    + destruct Hf as (Hl & _). unfold Backtester.latency_us.
      cbn [Backtester.latency_ms_ Backtester.set_tick_data]. rewrite Hl. exact Hc.
  - exact Hf.
Qed.

(** *** Termination of the loop: the queue weighs less after every turn *)

Lemma push_event_weight (b : Backtester.t) (e : Event) :
  Backtester.queue_weight (Backtester.event_queue_ (Backtester.push_event b e))
  = (Backtester.event_weight e + Backtester.queue_weight (Backtester.event_queue_ b))%nat.
Proof.
  unfold Backtester.push_event. cbn [Backtester.event_queue_ Backtester.set_event_queue].
  pose proof (pq_push_perm getTimestamp (Backtester.event_queue_ b) e) as Hperm.
  change (greater_key getTimestamp) with EventComparator in Hperm.
  rewrite (queue_weight_perm _ _ Hperm). reflexivity.
Qed.

Lemma closePosition_queue (b : Backtester.t) (symbol : string) (exit_price : float) (ts : Z) :
  Backtester.event_queue_ (Backtester.closePosition b symbol exit_price ts)
  = Backtester.event_queue_ b.
Proof.
  unfold Backtester.closePosition.
  destruct (StdMap.find _ _); [|reflexivity]. destruct (PrimFloat.eqb _ _); reflexivity.
Qed.

Lemma updatePosition_queue (b : Backtester.t) (ts : Z) (symbol : string)
    (direction : Direction) (quantity fill_price : float) :
  Backtester.event_queue_ (Backtester.updatePosition b ts symbol direction quantity fill_price)
  = Backtester.event_queue_ b.
Proof.
  unfold Backtester.updatePosition.
  destruct (StdMap.index _ _ _) as [position positions].
  destruct direction; try reflexivity.
  - destruct (PrimFloat.eqb _ _); reflexivity.
  - destruct (PrimFloat.eqb _ _); cbn [negb]; [reflexivity|].
    rewrite closePosition_queue. reflexivity.
Qed.

Lemma processEvent_weight (w : Backtester.World) (e : Event) :
  (Backtester.queue_weight (Backtester.event_queue_ (Backtester.engine (Backtester.processEvent w e)))
   + 1
   <= Backtester.queue_weight (Backtester.event_queue_ (Backtester.engine w))
      + Backtester.event_weight e)%nat.
Proof.
  destruct e as [ts tick|ts sym d q p|ts sym d q p|ts sym d q p c];
    cbn [Backtester.processEvent Backtester.event_weight Backtester.engine].
  - unfold Backtester.processMarketUpdate.
    destruct (Backtester.string_empty _); [lia|].
    destruct (StdMap.find _ _) as [strategy|]; [|lia].
    pose proof (processMarketUpdate_signals_shape strategy (Backtester.classifiers w) ts tick)
      as Hshape.
    destruct (Strategy.processMarketUpdate strategy (Backtester.classifiers w) ts tick)
      as [[strategy' store'] signals].
    cbn [snd] in Hshape. cbn [Backtester.engine].
    destruct Hshape as [-> | (symbol & d & q & p & ->)]; cbn [fold_left].
    + cbn [Backtester.event_queue_ Backtester.set_strategies]. lia.
    + rewrite push_event_weight.
      cbn [Backtester.event_queue_ Backtester.set_strategies Backtester.event_weight]. lia.
  - unfold Backtester.processSignalEvent. rewrite push_event_weight.
    cbn [Backtester.event_weight]. lia.
  - unfold Backtester.processOrderEvent, Backtester.fill_of_order. rewrite push_event_weight.
    cbn [Backtester.event_weight]. lia.
  - unfold Backtester.processFillEvent. rewrite updatePosition_queue. lia.
Qed.

Lemma dispatch_weight (w w' : Backtester.World) (e : Event) :
  Backtester.dispatch w = Some (e, w') ->
  (Backtester.queue_weight (Backtester.event_queue_ (Backtester.engine w'))
   < Backtester.queue_weight (Backtester.event_queue_ (Backtester.engine w)))%nat.
Proof.
  unfold Backtester.dispatch, pq_top.
  destruct (head (Backtester.event_queue_ (Backtester.engine w))) as [top|] eqn:Htop;
    [|discriminate].
  intros [= <- <-].
  pose proof (pq_pop_perm getTimestamp _ _ Htop) as Hperm.
  change (greater_key getTimestamp) with EventComparator in Hperm.
  match goal with
  | |- context [Backtester.processEvent ?w1 top] =>
      pose proof (processEvent_weight w1 top) as Hw
  end.
  cbn [Backtester.engine Backtester.event_queue_ Backtester.set_event_queue
         Backtester.set_current_time_us] in Hw.
  rewrite <- (queue_weight_perm _ _ Hperm).
  unfold Backtester.queue_weight in *. cbn [fold_right]. lia.
Qed.

(** The loop of [run()] ends, and it ends on an empty queue. *)
Lemma run_loop_drains (w : Backtester.World) :
  Backtester.event_queue_ (Backtester.engine (fst (Backtester.run_loop w))) = [].
Proof.
  unfold Backtester.run_loop.
  assert (H : forall fuel w,
             (Backtester.queue_weight (Backtester.event_queue_ (Backtester.engine w)) <= fuel)%nat ->
             Backtester.event_queue_ (Backtester.engine (fst (Backtester.event_loop fuel w))) = []).
  { clear w. induction fuel as [|fuel IH]; intros w Hw; cbn [Backtester.event_loop].
    - apply queue_weight_zero. cbn [fst]. lia.
    - destruct (Backtester.dispatch w) as [[e w']|] eqn:Hd.
      + pose proof (dispatch_weight _ _ _ Hd) as Hlt.
        specialize (IH w' ltac:(lia)).
        destruct (Backtester.event_loop fuel w') as [w'' trace]. exact IH.
      + cbn [fst]. unfold Backtester.dispatch, pq_top in Hd.
        destruct (Backtester.event_queue_ (Backtester.engine w)); [reflexivity | discriminate]. }
  apply H. lia.
Qed.

(** *** The forced close at the end of the stream *)

Lemma closePosition_log (b : Backtester.t) (symbol : string) (exit_price : float) (ts : Z) :
  let b' := Backtester.closePosition b symbol exit_price ts in
  Backtester.tick_data_ b' = Backtester.tick_data_ b
  /\ (Backtester.trade_log_ b' = Backtester.trade_log_ b
      \/ exists r, Backtester.trade_log_ b' = Backtester.trade_log_ b ++ [r]
                   /\ TradeRecord.symbol r = symbol
                   /\ TradeRecord.exit_timestamp_us r = ts
                   /\ TradeRecord.exit_price r = exit_price).
Proof.
  unfold Backtester.closePosition.
  destruct (StdMap.find _ _) as [position|]; [|split; [reflexivity | left; reflexivity]].
  destruct (PrimFloat.eqb _ _); [split; [reflexivity | left; reflexivity]|].
  split; [reflexivity|]. right. eexists. split; [reflexivity|]. repeat split.
Qed.

Lemma closed_at_last_tick_insert (b : Backtester.t) (symbol : string) (r : TradeRecord.t) :
  StdMap.find symbol (Backtester.tick_data_ b) = None ->
  closed_at_last_tick b r ->
  closed_at_last_tick
    (Backtester.set_tick_data b (StdMap.insert symbol [] (Backtester.tick_data_ b))) r.
Proof.
  intros Hnone (ticks & last_tick & Hfind & Hrest).
  exists ticks, last_tick. split; [|exact Hrest].
  cbn [Backtester.tick_data_ Backtester.set_tick_data].
  rewrite StdMap_find_insert_other; [exact Hfind|]. congruence.
Qed.

Lemma close_if_open_log (b0 : Backtester.t) (symbol : string)
    (log closed0 : list TradeRecord.t) :
  Backtester.trade_log_ b0 = log ++ closed0 ->
  Forall (closed_at_last_tick b0) closed0 ->
  exists closed1,
    Backtester.trade_log_ (Backtester.close_if_open b0 symbol) = log ++ closed1
    /\ Forall (closed_at_last_tick (Backtester.close_if_open b0 symbol)) closed1.
Proof.
  intros Hlog Hclosed. unfold Backtester.close_if_open.
  destruct (StdMap.find symbol (Backtester.positions_ b0)) as [position|];
    [|exists closed0; split; assumption].
  destruct (PrimFloat.eqb (Position.quantity position) 0); cbn [negb];
    [exists closed0; split; assumption|].
  unfold StdMap.index.
  destruct (StdMap.find symbol (Backtester.tick_data_ b0)) as [ticks|] eqn:Hticks.
  - destruct (last ticks) as [last_tick|] eqn:Hlast;
      [|exists closed0; split; assumption].
    match goal with
    | |- context [Backtester.closePosition ?b1 symbol ?p ?ts] =>
        destruct (closePosition_log b1 symbol p ts) as [Hdata [Hsame|(r & Hr & Hs & Ht & Hp)]]
    end.
    + exists closed0. split; [rewrite Hsame; exact Hlog|].
      eapply Forall_impl; [exact Hclosed|]. intros r (tk & lt & Hf & Hrest).
      exists tk, lt. rewrite Hdata. split; assumption.
    + exists (closed0 ++ [r]). split.
      * rewrite Hr. cbn [Backtester.trade_log_ Backtester.set_tick_data].
        rewrite Hlog, <- app_assoc. reflexivity.
      * apply Forall_app. split.
        -- eapply Forall_impl; [exact Hclosed|]. intros r' (tk & lt & Hf & Hrest).
           exists tk, lt. rewrite Hdata. split; assumption.
        -- constructor; [|constructor]. exists ticks, last_tick.
           rewrite Hdata, Hs. cbn [Backtester.tick_data_ Backtester.set_tick_data].
           repeat split; assumption.
  - cbn [last]. exists closed0. split; [exact Hlog|].
    eapply Forall_impl; [exact Hclosed|]. intros r Hr.
    apply closed_at_last_tick_insert; assumption.
Qed.

Lemma close_remaining_log (b : Backtester.t) :
  exists closed,
    Backtester.trade_log_ (Backtester.close_remaining b) = Backtester.trade_log_ b ++ closed
    /\ Forall (closed_at_last_tick (Backtester.close_remaining b)) closed.
Proof.
  unfold Backtester.close_remaining.
  assert (H : forall (ps : StdMap.t Position.t) (b0 : Backtester.t),
             (exists closed0,
                 Backtester.trade_log_ b0 = Backtester.trade_log_ b ++ closed0
                 /\ Forall (closed_at_last_tick b0) closed0) ->
             exists closed,
               Backtester.trade_log_
                 (fold_left (fun b1 sp => Backtester.close_if_open b1 (fst sp)) ps b0)
               = Backtester.trade_log_ b ++ closed
               /\ Forall (closed_at_last_tick
                            (fold_left (fun b1 sp => Backtester.close_if_open b1 (fst sp)) ps b0))
                    closed).
  { induction ps as [|[symbol p0] ps IH]; intros b0 (closed0 & Hlog & Hclosed);
      cbn [fold_left].
    - exists closed0. split; assumption.
    - apply IH. cbn [fst]. eapply close_if_open_log; eassumption. }
  apply H. exists []. split; [rewrite app_nil_r; reflexivity | constructor].
Qed.

(** ** The runs of the engine *)

(** C3, amended.  With a non-negative latency and tick timestamps that can
    take it without leaving [int64_t], a run dispatches its events in
    non-decreasing order of timestamp, and the loop ends on an empty queue.
    Nothing is said about the order among equal timestamps. *)
Theorem dispatch_order_nondecreasing (latency_ms : float) (calls : list ApiCall)
    (store : ClassifierStore) :
  0 <= Z_of_float (latency_ms * 1000) ->
  forallb (call_in_range (Z_of_float (latency_ms * 1000))) calls = true ->
  let w := Backtester.mkWorld (setup latency_ms calls) store in
  nondecreasing (Backtester.dispatch_trace w)
  /\ Backtester.event_queue_ (Backtester.engine (fst (Backtester.run_loop w))) = [].
Proof.
  intros HL Hcalls w.
  destruct (setup_fresh latency_ms calls Hcalls) as (Hl & Hq & Hp & Hg).
  assert (HL' : 0 <= Backtester.latency_us (Backtester.engine w)).
  { unfold Backtester.latency_us. cbn [Backtester.engine w]. rewrite Hl. exact HL. }
  destruct (initial_loop_inv (Backtester.engine w) HL' Hq Hp Hg) as [t Hinv].
  destruct (event_loop_inv
              (Backtester.queue_weight (Backtester.event_queue_ (Backtester.engine w))) w t Hinv)
    as (_ & _ & Hsorted & _).
  split; [exact Hsorted | apply run_loop_drains].
Qed.

Lemma dispatch_order_nondecreasing_witness :
  let w := Scenario.world Scenario.rally in
  nondecreasing (Backtester.dispatch_trace w)
  /\ Backtester.event_queue_ (Backtester.engine (fst (Backtester.run_loop w))) = [].
Proof.
  apply (dispatch_order_nondecreasing 200%float
           [LoadTickData Scenario.rally "TICKER";
            RegisterStrategy "TICKER" Scenario.strategy] Scenario.classifiers).
  - vm_compute. discriminate.
  - vm_compute. reflexivity.
Defined.

(** C3, as stated, fails: four market updates with one timestamp, pushed in
    the order of their volumes 1, 2, 3, 4, leave the queue in the order
    1, 3, 2, 4. *)
Lemma simultaneous_ticks_not_fifo :
  let enqueued :=
    map (fun t => MarketUpdateEvent (timestamp_us t) t) Scenario.simultaneous in
  let trace := Backtester.dispatch_trace (Scenario.world Scenario.simultaneous) in
  map getTimestamp trace = [5; 5; 5; 5]
  /\ map (fun e => match e with MarketUpdateEvent _ t => volume t | _ => 0 end) trace
     = [1; 3; 2; 4]
  /\ ~ fifo_among_ties enqueued trace.
Proof.
  cbv zeta. split; [vm_compute; reflexivity|]. split; [vm_compute; reflexivity|].
  intros Hfifo.
  destruct (Hfifo 1%nat 2%nat
              (MarketUpdateEvent 5 (mkTick 5 1 2 1 1))
              (MarketUpdateEvent 5 (mkTick 5 1 3 1 1)))
    as (i' & j' & Hi & Hj & Hlt); [lia | reflexivity | reflexivity | reflexivity |].
  assert (Htrace : Backtester.dispatch_trace (Scenario.world Scenario.simultaneous)
                   = [MarketUpdateEvent 5 (mkTick 5 1 1 1 1);
                      MarketUpdateEvent 5 (mkTick 5 1 3 1 1);
                      MarketUpdateEvent 5 (mkTick 5 1 2 1 1);
                      MarketUpdateEvent 5 (mkTick 5 1 4 1 1)]) by (vm_compute; reflexivity).
  rewrite Htrace in Hi, Hj.
  clear Hfifo Htrace.
  destruct i' as [|[|[|[|i']]]]; cbn [lookup list_lookup] in Hi; try discriminate Hi;
    destruct j' as [|[|[|[|j']]]]; cbn [lookup list_lookup] in Hj; try discriminate Hj; lia.
Qed.



(** The round trip of the witness does close a trade in the loop, 500 ms
    after the entry fill. *)
Lemma round_trip_record :
  map (fun r => (TradeRecord.entry_timestamp_us r, TradeRecord.exit_timestamp_us r))
      (Backtester.trade_log_ (Backtester.engine (fst (Backtester.run_loop Scenario.round_trip))))
  = [(200000, 700000)].
Proof. vm_compute. reflexivity. Qed.


(** C1: the code adds to an open position.  In the run of [main] on the
    ticks of [rally] the strategy signals LONG on two consecutive ticks; when
    the second LONG fill comes to the top of the queue the position holds 150,
    and the fill raises it to 300. *)
Lemma second_long_fill_adds_to_open_position :
  let w := Scenario.world Scenario.rally in
  List.filter (fun e => match e with SignalEvent _ _ _ _ _ => true | _ => false end)
         (Backtester.dispatch_trace w)
  = [SignalEvent 2100000 "TICKER" LONG 150 169; SignalEvent 2200000 "TICKER" LONG 150 220]
  /\ pq_top (Backtester.event_queue_ (Backtester.engine (dispatch_n 27 w)))
     = Some (FillEvent 2400000 "TICKER" LONG 150 220 (220 * 150 * 0.0001)%float)
  /\ option_map Position.quantity (position_of (Backtester.engine (dispatch_n 27 w)) "TICKER")
     = Some 150%float
  /\ option_map Position.quantity (position_of (Backtester.engine (dispatch_n 28 w)) "TICKER")
     = Some 300%float.
Proof. cbv zeta. repeat split; vm_compute; reflexivity. Qed.

(** C5: the regime recorded at entry is not read from the classifier.  In
    the run of [main] on the ticks of [spike] the LONG fill is dispatched when
    the strategy's classifier reports CHOPPY, and the position it opens
    records TRENDING. *)
Lemma entry_regime_ignores_classifier :
  let w := Scenario.world Scenario.spike in
  let before := dispatch_n 24 w in
  let after := dispatch_n 25 w in
  pq_top (Backtester.event_queue_ (Backtester.engine before))
  = Some (FillEvent 2300000 "TICKER" LONG 150 169 (169 * 150 * 0.0001)%float)
  /\ position_of (Backtester.engine before) "TICKER" = None
  /\ regime_label (RegimeClassifier.getCurrentRegime (Backtester.classifiers before 0%nat))
     = "CHOPPY"%string
  /\ regime_label (RegimeClassifier.getCurrentRegime (Backtester.classifiers after 0%nat))
     = "CHOPPY"%string
  /\ option_map Position.entry_regime (position_of (Backtester.engine after) "TICKER")
     = Some "TRENDING"%string
  /\ option_map Position.quantity (position_of (Backtester.engine after) "TICKER")
     = Some 150%float.
Proof. cbv zeta. repeat split; vm_compute; reflexivity. Qed.

(* ===================================================================== *)
(** * Further properties of the indicator engine *)
(* ===================================================================== *)

(** ** Bounded histories *)

Lemma tl_skipn {A : Type} (k : nat) (l : list A) : tl (skipn k l) = skipn (S k) l.
Proof.
  revert l. induction k as [|k IH]; intros l.
  - destruct l; reflexivity.
  - destruct l as [|y l]; [reflexivity|]. cbn [skipn]. apply IH.
Qed.

Lemma push_bounded_suffix {A : Type} (cap : nat) (all : list A) (x : A) :
  push_bounded cap (skipn (length all - cap) all) x
  = skipn (length (all ++ [x]) - cap) (all ++ [x]).
Proof.
  unfold push_bounded. rewrite !length_app, length_skipn. cbn [length].
  assert (Happ : skipn (length all - cap) all ++ [x]
                 = skipn (length all - cap) (all ++ [x])).
  { rewrite skipn_app. replace (length all - cap - length all)%nat with 0%nat by lia.
    reflexivity. }
  rewrite Happ.
  destruct (Nat.ltb_spec cap (length all - (length all - cap) + 1)) as [Hfull|Hroom].
  - rewrite tl_skipn. f_equal. lia.
  - f_equal. lia.
Qed.

Lemma fold_push_bounded {A : Type} (cap : nat) (xs : list A) :
  fold_left (push_bounded cap) xs [] = skipn (length xs - cap) xs.
Proof.
  induction xs as [|x xs IH] using rev_ind; [reflexivity|].
  rewrite fold_left_app. cbn [fold_left]. rewrite IH. apply push_bounded_suffix.
Qed.

Section IndicatorHistories.

Context {F : Type} `{DoubleArith F}.

Lemma volume_calls_snoc (entries : list (Z * Z)) (tv : Z * Z) :
  volume_history_ (volume_calls (entries ++ [tv]))
  = push_bounded 20 (volume_history_ (volume_calls (F := F) entries)) tv.
Proof.
  unfold volume_calls. rewrite fold_left_app. cbn [fold_left].
  unfold updateVolume at 1. cbn [volume_history_]. destruct tv; reflexivity.
Qed.

(** X1.  After any sequence of [updateVolume] calls on a fresh engine the
    volume history holds exactly the last 20 (timestamp, volume) pairs, in
    call order; all of them while there are at most 20. *)
Theorem volume_history_last_20 (entries : list (Z * Z)) :
  volume_history_ (volume_calls (F := F) entries) = skipn (length entries - 20) entries
  /\ (length (volume_history_ (volume_calls (F := F) entries)) <= 20)%nat.
Proof.
  assert (E : volume_history_ (volume_calls (F := F) entries)
              = skipn (length entries - 20) entries).
  { induction entries as [|tv entries IH] using rev_ind; [reflexivity|].
    rewrite volume_calls_snoc, IH. apply push_bounded_suffix. }
  split; [exact E|]. rewrite E, length_skipn. lia.
Qed.

Lemma macd_calls_length_snoc (prices : list F) (p : F) :
  length (macd_histogram_history_ (macd_calls (prices ++ [p])))
  = length (push_bounded 10 (macd_histogram_history_ (macd_calls prices)) p).
Proof.
  unfold macd_calls. rewrite fold_left_app. cbn [fold_left].
  unfold updateMACD at 1. cbn [macd_histogram_history_].
  unfold push_bounded. rewrite !length_app. cbn [length].
  destruct (_ <? _)%nat.
  - match goal with |- length (tl ?a) = length (tl ?b) =>
      assert (length a = length b) as E by (rewrite !length_app; reflexivity);
      destruct a, b; cbn in *; lia end.
  - rewrite !length_app. reflexivity.
Qed.

(** X2.  After [n] calls of [updateMACD] on a fresh engine the histogram
    history holds [min n 10] values: one per call up to ten, and never
    more than the last ten. *)
Theorem macd_history_length (prices : list F) :
  length (macd_histogram_history_ (macd_calls prices)) = Nat.min (length prices) 10.
Proof.
  induction prices as [|p prices IH] using rev_ind; [reflexivity|].
  rewrite macd_calls_length_snoc. unfold push_bounded.
  rewrite !length_app. cbn [length]. rewrite IH.
  destruct (Nat.ltb_spec 10 (Nat.min (length prices) 10 + 1)) as [Hf|Hr].
  - match goal with |- length (tl ?a) = _ =>
      assert (length a = (Nat.min (length prices) 10 + 1)%nat) as E
        by (rewrite length_app, IH; reflexivity);
      destruct a; cbn in *; lia end.
  - rewrite length_app, IH. cbn [length]. lia.
Qed.

(** ** Prices *)

Lemma price_calls_snoc (prices : list F) (p : F) :
  price_calls (prices ++ [p]) = updatePrice (price_calls prices) p.
Proof. unfold price_calls. rewrite fold_left_app. reflexivity. Qed.

(** X3.  After the prices [first :: rest] have been passed to
    [updatePrice] on a fresh engine, [open_price_] is the first price,
    [current_price_] the last one and [prev_close_] the price before the
    last (the first price itself after a single call): the "previous close"
    is the previous tick, not a session close. *)
Theorem price_tracking (first : F) (rest : list F) :
  let i := price_calls (first :: rest) in
  open_price_ i = first
  /\ current_price_ i = List.last (first :: rest) first
  /\ prev_close_ i = List.last (removelast (first :: rest)) first
  /\ is_first_tick_ i = false.
Proof.
  cbv zeta. induction rest as [|p rest IH] using rev_ind.
  - cbn. repeat split; reflexivity.
  - destruct IH as (Ho & Hc & Hp & Hf).
    change (first :: rest ++ [p]) with ((first :: rest) ++ [p]).
    rewrite price_calls_snoc. unfold updatePrice. rewrite Hf.
    cbn [open_price_ current_price_ prev_close_ is_first_tick_].
    rewrite List.last_last, removelast_last. repeat split; assumption.
Qed.

End IndicatorHistories.

(** ** EMA per period *)

Section EMAPeriods.

Context {F : Type} `{DoubleArith F}.

(** X4.  The periods of the EMA map are independent, and each follows the
    textbook recurrence: after any interleaving of [updateEMA] calls on a
    fresh engine, [getEMA(p)] is the recurrence over the prices passed for
    [p] alone, with [alpha = 2 / (p + 1)]; it is 0 when none was passed. *)
Theorem getEMA_recurrence (calls : list (F * N)) (p : N) :
  getEMA (ema_calls calls) p = ema_recurrence p (prices_seen p calls).
Proof.
  unfold getEMA. rewrite ema_calls_lookup.
  destruct (prices_seen p calls); reflexivity.
Qed.

End EMAPeriods.

(** ** Resets *)

Section Resets.

Context {F : Type} `{DoubleArith F}.

Lemma updateVWAP_sums (i j : Indicators F) (price : F) (volume timestamp_us : Z) :
  cumulative_price_volume_ i = cumulative_price_volume_ j ->
  cumulative_volume_ i = cumulative_volume_ j ->
  vwap_session_start_us_ i = vwap_session_start_us_ j ->
  cumulative_price_volume_ (updateVWAP i price volume timestamp_us)
  = cumulative_price_volume_ (updateVWAP j price volume timestamp_us)
  /\ cumulative_volume_ (updateVWAP i price volume timestamp_us)
     = cumulative_volume_ (updateVWAP j price volume timestamp_us)
  /\ vwap_session_start_us_ (updateVWAP i price volume timestamp_us)
     = vwap_session_start_us_ (updateVWAP j price volume timestamp_us).
Proof.
  intros Hp Hv Hs. unfold updateVWAP.
  cbn [cumulative_price_volume_ cumulative_volume_ vwap_session_start_us_].
  rewrite Hp, Hv, Hs. repeat split; reflexivity.
Qed.

(** X6.  [reset] restores the freshly constructed engine whatever was
    fed before; [resetVWAP] does so for the VWAP alone: after it, any
    sequence of [updateVWAP] calls gives the VWAP that a new engine would
    give, while the EMAs and the histories are kept. *)
Theorem resets_restore_fresh_state (i : Indicators F) (updates : list (F * Z * Z)) :
  reset i = Indicators_ctor
  /\ getVWAP (fold_left (fun i u => updateVWAP i (fst (fst u)) (snd (fst u)) (snd u))
                updates (resetVWAP i))
     = getVWAP (vwap_calls updates)
  /\ emas_ (resetVWAP i) = emas_ i
  /\ macd_histogram_history_ (resetVWAP i) = macd_histogram_history_ i
  /\ volume_history_ (resetVWAP i) = volume_history_ i.
Proof.
  split; [reflexivity|]. split; [|repeat split; reflexivity].
  unfold vwap_calls.
  assert (Hsame : forall a b : Indicators F,
             cumulative_price_volume_ a = cumulative_price_volume_ b ->
             cumulative_volume_ a = cumulative_volume_ b ->
             vwap_session_start_us_ a = vwap_session_start_us_ b ->
             getVWAP (fold_left (fun i u => updateVWAP i (fst (fst u)) (snd (fst u)) (snd u))
                        updates a)
             = getVWAP (fold_left (fun i u => updateVWAP i (fst (fst u)) (snd (fst u)) (snd u))
                          updates b)).
  { induction updates as [|u updates IH]; intros a b Hp Hv Hs; cbn [fold_left].
    - unfold getVWAP. rewrite Hp, Hv. reflexivity.
    - destruct (updateVWAP_sums a b (fst (fst u)) (snd (fst u)) (snd u) Hp Hv Hs)
        as (Hp' & Hv' & Hs').
      apply IH; assumption. }
  apply Hsame; reflexivity.
Qed.

Lemma vwap_calls_snoc (updates : list (F * Z * Z)) (u : F * Z * Z) :
  vwap_calls (updates ++ [u])
  = updateVWAP (vwap_calls updates) (fst (fst u)) (snd (fst u)) (snd u).
Proof. unfold vwap_calls. rewrite fold_left_app. reflexivity. Qed.

(** X7.  The VWAP session never restarts on its own: once an update
    with a non-zero timestamp has opened the session, every later update
    accumulates into it, so that for timestamps that are all non-zero the
    session start is the first timestamp and the cumulated volume is the
    (wrapping) sum of all volumes passed, across days. *)
Theorem vwap_session_never_restarts (first : F * Z * Z) (rest : list (F * Z * Z)) :
  Forall (fun u => snd u <> 0) (first :: rest) ->
  vwap_session_start_us_ (vwap_calls (first :: rest)) = snd first
  /\ cumulative_volume_ (vwap_calls (first :: rest))
     = fold_left Int64.add (map (fun u => snd (fst u)) (first :: rest)) 0.
Proof.
  induction rest as [|u rest IH] using rev_ind; intros Hall.
  - cbn. split; reflexivity.
  - change (first :: rest ++ [u]) with ((first :: rest) ++ [u]) in *.
    apply Forall_app in Hall as [Hall Hu]. destruct (IH Hall) as [IHs IHv].
    apply Forall_cons in Hall as [Hfirst _].
    rewrite vwap_calls_snoc. unfold updateVWAP.
    cbn [vwap_session_start_us_ cumulative_volume_].
    rewrite IHs. destruct (Z.eqb_spec (snd first) 0) as [|_]; [contradiction|].
    split; [reflexivity|].
    rewrite IHv, map_app, fold_left_app. reflexivity.
Qed.

End Resets.

Lemma vwap_session_never_restarts_witness :
  vwap_session_start_us_
    (vwap_calls (F := float) [(10%float, 100, 5); (12%float, 300, 86400000005)]) = 5
  /\ cumulative_volume_
       (vwap_calls (F := float) [(10%float, 100, 5); (12%float, 300, 86400000005)])
     = fold_left Int64.add
         (map (fun u => snd (fst u)) [(10%float, 100, 5); (12%float, 300, 86400000005)]) 0.
Proof.
  apply (vwap_session_never_restarts (F := float) (10%float, 100, 5)
           [(12%float, 300, 86400000005)]).
  repeat constructor; discriminate.
Defined.

(** ** Further properties of the regime classifier *)

Lemma updateAndClassify_history (rc : RegimeClassifier.t) (tick : Tick) :
  RegimeClassifier.tick_history_ (RegimeClassifier.updateAndClassify rc tick)
  = push_bounded (RegimeClassifier.lookback_ rc) (RegimeClassifier.tick_history_ rc) tick.
Proof.
  unfold RegimeClassifier.updateAndClassify, push_bounded.
  destruct (length _ <? 20)%nat; reflexivity.
Qed.

Lemma updateAndClassify_params (rc : RegimeClassifier.t) (tick : Tick) :
  RegimeClassifier.lookback_ (RegimeClassifier.updateAndClassify rc tick)
  = RegimeClassifier.lookback_ rc
  /\ RegimeClassifier.num_clusters_ (RegimeClassifier.updateAndClassify rc tick)
     = RegimeClassifier.num_clusters_ rc.
Proof.
  unfold RegimeClassifier.updateAndClassify.
  destruct (length _ <? 20)%nat; split; reflexivity.
Qed.

Lemma classify_all_lookback (rc : RegimeClassifier.t) (ticks : list Tick) :
  RegimeClassifier.lookback_ (fold_left RegimeClassifier.updateAndClassify ticks rc)
  = RegimeClassifier.lookback_ rc.
Proof.
  induction ticks as [|t ticks IH] using rev_ind; [reflexivity|].
  rewrite fold_left_app. cbn [fold_left].
  rewrite (proj1 (updateAndClassify_params _ _)). exact IH.
Qed.

Lemma fresh_classifier_history (lookback num_clusters : nat) (ticks : list Tick) :
  RegimeClassifier.tick_history_
    (fold_left RegimeClassifier.updateAndClassify ticks
       (RegimeClassifier.ctor lookback num_clusters))
  = skipn (length ticks - lookback) ticks.
Proof.
  induction ticks as [|t ticks IH] using rev_ind; [reflexivity|].
  rewrite fold_left_app. cbn [fold_left].
  rewrite updateAndClassify_history, classify_all_lookback, IH.
  cbn [RegimeClassifier.ctor RegimeClassifier.lookback_].
  apply push_bounded_suffix.
Qed.

(** X8.  The classifier's tick history is a sliding window: after any
    ticks have been fed to a fresh classifier it holds exactly the last
    [lookback] of them, in order (all of them while there are at most
    [lookback]), so it never holds more than [lookback] ticks. *)
Theorem tick_history_sliding_window (lookback num_clusters : nat) (ticks : list Tick) :
  RegimeClassifier.tick_history_
    (fold_left RegimeClassifier.updateAndClassify ticks
       (RegimeClassifier.ctor lookback num_clusters))
  = skipn (length ticks - lookback) ticks
  /\ (length (RegimeClassifier.tick_history_
                (fold_left RegimeClassifier.updateAndClassify ticks
                   (RegimeClassifier.ctor lookback num_clusters)))
      <= lookback)%nat.
Proof.
  rewrite fresh_classifier_history. split; [reflexivity|].
  rewrite length_skipn. lia.
Qed.

(** X9.  A classifier built with a lookback below 20 never leaves CHOPPY:
    its window never reaches the 20 ticks that classification needs, however
    many ticks are fed. *)
Theorem short_lookback_always_choppy (lookback num_clusters : nat) (ticks : list Tick) :
  (lookback < 20)%nat ->
  RegimeClassifier.getCurrentRegime
    (fold_left RegimeClassifier.updateAndClassify ticks
       (RegimeClassifier.ctor lookback num_clusters))
  = RegimeClassifier.CHOPPY.
Proof.
  intros Hlb. destruct ticks as [|t ticks _] using rev_ind; [reflexivity|].
  pose proof (fresh_classifier_history lookback num_clusters (ticks ++ [t])) as Hw.
  rewrite fold_left_app in *. cbn [fold_left] in *.
  set (rc := fold_left _ ticks _) in *.
  assert (Hlen : (length (RegimeClassifier.tick_history_
                            (RegimeClassifier.updateAndClassify rc t)) < 20)%nat).
  { rewrite Hw, length_skipn. lia. }
  revert Hlen. unfold RegimeClassifier.updateAndClassify, RegimeClassifier.getCurrentRegime.
  destruct (Nat.ltb_spec
              (length (if (RegimeClassifier.lookback_ rc
                           <? length (RegimeClassifier.tick_history_ rc ++ [t]))%nat
                       then tl (RegimeClassifier.tick_history_ rc ++ [t])
                       else RegimeClassifier.tick_history_ rc ++ [t])) 20) as [_|Hge].
  - reflexivity.
  - cbn [RegimeClassifier.tick_history_]. lia.
Qed.

Lemma short_lookback_always_choppy_witness :
  RegimeClassifier.getCurrentRegime
    (fold_left RegimeClassifier.updateAndClassify Scenario.spike
       (RegimeClassifier.ctor 19 2))
  = RegimeClassifier.CHOPPY.
Proof. apply (short_lookback_always_choppy 19 2 Scenario.spike). lia. Defined.

(** X10.  Once the window holds 20 ticks, a window whose volatility
    exceeds 0.02 and whose directional strength exceeds 0.01 is classified
    TRENDING whatever the clustering returns: the nearest centroid only
    matters below the thresholds. *)
Theorem thresholds_force_trending (rc : RegimeClassifier.t) (tick : Tick) :
  (20 <= length (RegimeClassifier.tick_history_ (RegimeClassifier.updateAndClassify rc tick)))%nat ->
  PrimFloat.ltb 0.02
    (RegimeClassifier.calculateVolatility
       (RegimeClassifier.tick_history_ (RegimeClassifier.updateAndClassify rc tick))) = true ->
  PrimFloat.ltb 0.01
    (RegimeClassifier.calculateDirection
       (RegimeClassifier.tick_history_ (RegimeClassifier.updateAndClassify rc tick))) = true ->
  RegimeClassifier.getCurrentRegime (RegimeClassifier.updateAndClassify rc tick)
  = RegimeClassifier.TRENDING.
Proof.
  rewrite updateAndClassify_history.
  unfold RegimeClassifier.updateAndClassify, RegimeClassifier.getCurrentRegime.
  fold (push_bounded (RegimeClassifier.lookback_ rc) (RegimeClassifier.tick_history_ rc) tick).
  set (history := push_bounded _ _ _).
  intros Hlen Hvol Hdir.
  destruct (Nat.ltb_spec (length history) 20) as [Hlt|_]; [lia|].
  destruct (Nat.leb_spec 2 (length history)) as [_|Hlt]; [|lia].
  cbn [RegimeClassifier.current_regime_ RegimeClassifier.volatility
       RegimeClassifier.direction].
  rewrite Hvol, Hdir. destruct (_ =? 0)%nat; reflexivity.
Qed.

Lemma thresholds_force_trending_witness :
  RegimeClassifier.getCurrentRegime
    (RegimeClassifier.updateAndClassify
       (fold_left RegimeClassifier.updateAndClassify (firstn 20 Scenario.rally)
          (RegimeClassifier.ctor 100 2))
       Scenario.tick21)
  = RegimeClassifier.TRENDING.
Proof.
  apply (thresholds_force_trending
           (fold_left RegimeClassifier.updateAndClassify (firstn 20 Scenario.rally)
              (RegimeClassifier.ctor 100 2))
           Scenario.tick21).
  - vm_compute. lia.
  - vm_compute. reflexivity.
  - vm_compute. reflexivity.
Defined.

(** ** Features and clusters *)

(** X11.  [extractFeatures] returns no feature for fewer than two ticks,
    one feature (from the entire history) for 2 to 10 ticks, and one per
    complete window of 11 ticks, that is [n - 10], beyond that. *)
Theorem extractFeatures_count (ticks : list Tick) :
  length (RegimeClassifier.extractFeatures ticks)
  = if (length ticks <? 2)%nat then 0%nat
    else if (length ticks <=? 10)%nat then 1%nat
    else (length ticks - 10)%nat.
Proof.
  unfold RegimeClassifier.extractFeatures, RegimeClassifier.window_size.
  destruct (Nat.ltb_spec (length ticks) 2) as [|Hge]; [reflexivity|].
  destruct (Nat.leb_spec (length ticks) 10) as [Hle|Hgt].
  - replace (length ticks - 10)%nat with 0%nat by lia. reflexivity.
  - destruct (length ticks - 10)%nat as [|m] eqn:E; [lia|].
    cbn [seq map]. cbn [length]. rewrite length_map, length_seq. reflexivity.
Qed.

Lemma nearest_centroid_loop_bound (f : RegimeClassifier.Feature)
    (l : list (nat * RegimeClassifier.Feature)) (st : float * nat) (bound : nat) :
  (snd st < bound)%nat -> Forall (fun ic => (fst ic < bound)%nat) l ->
  (snd (fold_left
          (fun st ic =>
             let dist := RegimeClassifier.calculateDistance f (snd ic) in
             if PrimFloat.ltb dist (fst st) then (dist, fst ic) else st)
          l st) < bound)%nat.
Proof.
  revert st. induction l as [|ic l IH]; intros st Hst Hall; cbn [fold_left]; [exact Hst|].
  apply Forall_cons in Hall as [Hic Hall]. apply IH; [|exact Hall].
  cbv zeta. destruct (PrimFloat.ltb _ _); assumption.
Qed.

Lemma nearest_centroid_bound (centroids : list RegimeClassifier.Feature)
    (f : RegimeClassifier.Feature) :
  centroids <> [] ->
  (RegimeClassifier.nearest_centroid centroids f < length centroids)%nat.
Proof.
  intros Hne. unfold RegimeClassifier.nearest_centroid.
  apply nearest_centroid_loop_bound.
  - cbn. destruct centroids; [congruence | cbn; lia].
  - apply List.Forall_forall. intros [i c] Hin. cbn.
    apply in_combine_l in Hin. apply in_seq in Hin. lia.
Qed.

(** X12.  The index that the nearest-centroid search returns is a valid
    index into a non-empty centroid vector, whatever the distances are
    (NaN included, where the search answers 0). *)
Theorem nearest_centroid_in_bounds (centroids : list RegimeClassifier.Feature)
    (f : RegimeClassifier.Feature) :
  centroids <> [] ->
  (RegimeClassifier.nearest_centroid centroids f < length centroids)%nat.
Proof.
  intros Hne. unfold RegimeClassifier.nearest_centroid.
  apply nearest_centroid_loop_bound; cbn [snd].
  - destruct centroids; [congruence | cbn; lia].
  - apply List.Forall_forall. intros [i c] Hin. cbn [fst].
    apply in_combine_l in Hin. apply in_seq in Hin. lia.
Qed.

Lemma nearest_centroid_in_bounds_witness :
  (RegimeClassifier.nearest_centroid
     [RegimeClassifier.mkFeature 0 0 0; RegimeClassifier.mkFeature 1 1 1]
     (RegimeClassifier.mkFeature 1 1 0.5)
   < length [RegimeClassifier.mkFeature 0 0 0; RegimeClassifier.mkFeature 1 1 1])%nat.
Proof.
  apply (nearest_centroid_in_bounds
           [RegimeClassifier.mkFeature 0 0 0; RegimeClassifier.mkFeature 1 1 1]
           (RegimeClassifier.mkFeature 1 1 0.5)).
  discriminate.
Defined.

Lemma concat_alter_snoc {A : Type} (clusters : list (list A)) (i : nat) (x : A) :
  (i < length clusters)%nat ->
  Permutation (concat (alter (fun c => c ++ [x]) i clusters)) (x :: concat clusters).
Proof.
  revert i. induction clusters as [|c clusters IH]; intros i Hi; cbn in Hi; [lia|].
  destruct i as [|i]; cbn [alter list_alter concat].
  - rewrite <- app_assoc. cbn [app].
    symmetry. apply Permutation_middle.
  - rewrite (IH i) by lia. symmetry. apply Permutation_middle.
Qed.

(** X13.  One assignment step of k-means partitions the features: with
    as many centroids as clusters (at least one), every feature lands in
    exactly one of the [k] clusters. *)
Theorem assign_clusters_partition (centroids features : list RegimeClassifier.Feature)
    (k : nat) :
  (0 < k)%nat -> length centroids = k ->
  length (RegimeClassifier.assign_clusters centroids features k) = k
  /\ Permutation (concat (RegimeClassifier.assign_clusters centroids features k)) features.
Proof.
  intros Hk Hlen. unfold RegimeClassifier.assign_clusters.
  induction features as [|f features [IHl IHp]] using rev_ind.
  - cbn [fold_left]. rewrite repeat_length. split; [reflexivity|].
    clear. induction k; cbn; [constructor | assumption].
  - rewrite fold_left_app. cbn [fold_left].
    set (clusters := fold_left _ features _) in *.
    split.
    + rewrite length_alter. exact IHl.
    + rewrite concat_alter_snoc.
      * rewrite IHp. apply Permutation_cons_append.
      * rewrite IHl, <- Hlen. apply nearest_centroid_bound.
        destruct centroids; [cbn in Hlen; lia | discriminate].
Qed.

Lemma assign_clusters_partition_witness :
  length (RegimeClassifier.assign_clusters
            [RegimeClassifier.mkFeature 0 0 0; RegimeClassifier.mkFeature 1 1 1]
            [RegimeClassifier.mkFeature 1 1 0.5; RegimeClassifier.mkFeature 0.25 0 0] 2) = 2%nat
  /\ Permutation
       (concat (RegimeClassifier.assign_clusters
                  [RegimeClassifier.mkFeature 0 0 0; RegimeClassifier.mkFeature 1 1 1]
                  [RegimeClassifier.mkFeature 1 1 0.5; RegimeClassifier.mkFeature 0.25 0 0] 2))
       [RegimeClassifier.mkFeature 1 1 0.5; RegimeClassifier.mkFeature 0.25 0 0].
Proof.
  apply (assign_clusters_partition
           [RegimeClassifier.mkFeature 0 0 0; RegimeClassifier.mkFeature 1 1 1]
           [RegimeClassifier.mkFeature 1 1 0.5; RegimeClassifier.mkFeature 0.25 0 0] 2).
  - lia.
  - reflexivity.
Defined.

Lemma update_centroids_length (centroids : list RegimeClassifier.Feature)
    (clusters : list (list RegimeClassifier.Feature)) (k : nat) :
  length (fst (RegimeClassifier.update_centroids centroids clusters k)) = length centroids.
Proof.
  unfold RegimeClassifier.update_centroids.
  generalize (seq 0 k) as l. generalize true as b. revert centroids.
  intros centroids b l. revert centroids b.
  induction l as [|i l IH]; intros centroids b; cbn [fold_left]; [reflexivity|].
  destruct (clusters !! i) as [[|c cluster]|]; try apply IH.
  rewrite IH. cbn [fst]. apply length_insert.
Qed.

Lemma kmeans_iterate_length (iterations : nat)
    (centroids features : list RegimeClassifier.Feature) (k : nat) :
  length (RegimeClassifier.kmeans_iterate iterations centroids features k) = length centroids.
Proof.
  revert centroids. induction iterations as [|n IH]; intros centroids; cbn; [reflexivity|].
  pose proof (update_centroids_length centroids
                (RegimeClassifier.assign_clusters centroids features k) k) as Hu.
  destruct (RegimeClassifier.update_centroids _ _ _) as [centroids' converged].
  cbn [fst] in Hu. destruct converged; [exact Hu|]. rewrite IH. exact Hu.
Qed.

Lemma performKMeans_length (rc : RegimeClassifier.t)
    (features : list RegimeClassifier.Feature) :
  (1 <= RegimeClassifier.num_clusters_ rc)%nat ->
  length (RegimeClassifier.centroids_ rc) = RegimeClassifier.num_clusters_ rc ->
  length (RegimeClassifier.performKMeans rc features)
  = length (RegimeClassifier.centroids_ rc).
Proof.
  intros Hk Hlen.
  unfold RegimeClassifier.performKMeans. destruct features as [|f features]; [reflexivity|].
  cbv zeta. rewrite kmeans_iterate_length.
  destruct (1 <? RegimeClassifier.num_clusters_ rc)%nat; rewrite ?length_insert; reflexivity.
Qed.

(** X14.  The centroid vector keeps the size the constructor gave it: for
    a classifier constructed with at least one cluster, after any ticks
    have been fed there are exactly [num_clusters] centroids, and
    [num_clusters] itself is unchanged.  (With no cluster at all the
    source writes [centroids_[0]] of an empty vector.) *)
Theorem centroids_keep_size (lookback num_clusters : nat) (ticks : list Tick) :
  (1 <= num_clusters)%nat ->
  length (RegimeClassifier.centroids_
            (fold_left RegimeClassifier.updateAndClassify ticks
               (RegimeClassifier.ctor lookback num_clusters)))
  = num_clusters
  /\ RegimeClassifier.num_clusters_
       (fold_left RegimeClassifier.updateAndClassify ticks
          (RegimeClassifier.ctor lookback num_clusters))
     = num_clusters.
Proof.
  intros Hk. induction ticks as [|t ticks [IHc IHn]] using rev_ind.
  - cbn. rewrite repeat_length. split; reflexivity.
  - rewrite fold_left_app. cbn [fold_left].
    set (rc := fold_left _ ticks _) in *.
    split; [|rewrite (proj2 (updateAndClassify_params rc t)); exact IHn].
    unfold RegimeClassifier.updateAndClassify.
    destruct (length _ <? 20)%nat; cbn [RegimeClassifier.centroids_]; [exact IHc|].
    rewrite performKMeans_length;
      cbn [RegimeClassifier.centroids_ RegimeClassifier.num_clusters_]; lia.
Qed.

Lemma centroids_keep_size_witness :
  length (RegimeClassifier.centroids_
            (fold_left RegimeClassifier.updateAndClassify Scenario.rally
               (RegimeClassifier.ctor 100 2)))
  = 2%nat
  /\ RegimeClassifier.num_clusters_
       (fold_left RegimeClassifier.updateAndClassify Scenario.rally
          (RegimeClassifier.ctor 100 2))
     = 2%nat.
Proof. apply (centroids_keep_size 100 2 Scenario.rally). lia. Defined.

(** ** Further properties of the strategy *)

Lemma checkEntryConditions_keeps (s : Strategy.NewsMomentumStrategy)
    (store : ClassifierStore) (tick : Tick) :
  Strategy.symbol_ (snd (Strategy.checkEntryConditions s store tick)) = Strategy.symbol_ s
  /\ Strategy.base_position_size_ (snd (Strategy.checkEntryConditions s store tick))
     = Strategy.base_position_size_ s
  /\ Strategy.regime_classifier_ (snd (Strategy.checkEntryConditions s store tick))
     = Strategy.regime_classifier_ s
  /\ Strategy.position_ (snd (Strategy.checkEntryConditions s store tick))
     = Strategy.position_ s.
Proof.
  unfold Strategy.checkEntryConditions.
  assert (Hc : Strategy.symbol_ (snd (Strategy.checkEMACrossover s)) = Strategy.symbol_ s
               /\ Strategy.base_position_size_ (snd (Strategy.checkEMACrossover s))
                  = Strategy.base_position_size_ s
               /\ Strategy.regime_classifier_ (snd (Strategy.checkEMACrossover s))
                  = Strategy.regime_classifier_ s
               /\ Strategy.position_ (snd (Strategy.checkEMACrossover s))
                  = Strategy.position_ s).
  { unfold Strategy.checkEMACrossover. destruct (_ || _); cbn; repeat split; reflexivity. }
  destruct (Strategy.checkEMACrossover s) as [crossed s1]. cbn [snd] in Hc.
  repeat match goal with
         | |- context [if ?c then _ else _] => destruct c
         end; cbn [snd]; auto; repeat split; reflexivity.
Qed.

Lemma processMarketUpdate_keeps (s : Strategy.NewsMomentumStrategy)
    (store : ClassifierStore) (ts : Z) (tick : Tick) :
  Strategy.regime_classifier_ (fst (fst (Strategy.processMarketUpdate s store ts tick)))
  = Strategy.regime_classifier_ s
  /\ Strategy.position_ (fst (fst (Strategy.processMarketUpdate s store ts tick)))
     = Strategy.position_ s.
Proof.
  unfold Strategy.processMarketUpdate.
  set (store1 := match Strategy.regime_classifier_ s with Some _ => _ | None => _ end).
  set (s1 := Strategy.set_indicators s _).
  pose proof (checkEntryConditions_keeps s1 store1 tick) as (_ & _ & Hr & Hp).
  destruct (Strategy.checkEntryConditions s1 store1 tick) as [entry s2]. cbn [snd] in Hr, Hp.
  repeat match goal with
         | |- context [if ?c then _ else _] => destruct c
         end;
    cbn [fst Strategy.regime_classifier_ Strategy.position_ Strategy.set_entry_timestamp_us];
    split; assumption || reflexivity.
Qed.

Lemma flat_after_indicators (s : Strategy.NewsMomentumStrategy) (i : Indicators float) :
  Strategy.position_ s = 0%float ->
  Strategy.hasPosition (Strategy.set_indicators s i) = false.
Proof.
  intros Hflat. unfold Strategy.hasPosition.
  cbn [Strategy.position_ Strategy.set_indicators]. rewrite Hflat. reflexivity.
Qed.

(** What [checkEntryConditions] has checked when it answers true. *)
Lemma checkEntryConditions_regime (s s' : Strategy.NewsMomentumStrategy)
    (store : ClassifierStore) (tick : Tick) :
  Strategy.checkEntryConditions s store tick = (true, s') ->
  Strategy.regime_not_trending s' store = false
  /\ Strategy.checkMACD s' = true
  /\ Strategy.checkOrderBookImbalance s' tick = true
  /\ Strategy.checkEMATrend s (price tick) = true
  /\ Strategy.indicators_ s' = Strategy.indicators_ s.
Proof.
  unfold Strategy.checkEntryConditions.
  assert (Hi : Strategy.indicators_ (snd (Strategy.checkEMACrossover s))
               = Strategy.indicators_ s).
  { unfold Strategy.checkEMACrossover. destruct (_ || _); reflexivity. }
  destruct (negb (Strategy.checkVolumeSpike s) || negb (Strategy.checkGapUp s));
    [discriminate|].
  destruct (Strategy.checkEMATrend s (price tick)); [|discriminate]. cbn [negb].
  destruct (Strategy.checkEMACrossover s) as [crossed s1]. cbn [snd] in Hi.
  destruct crossed; [|discriminate]. cbn [negb].
  destruct (Strategy.checkVWAP s1 (price tick)); [|discriminate]. cbn [negb].
  destruct (Strategy.checkMACD s1) eqn:Hm; [|discriminate]. cbn [negb].
  destruct (Strategy.checkOrderBookImbalance s1 tick) eqn:Ho; [|discriminate]. cbn [negb].
  destruct (Strategy.regime_not_trending s1 store) eqn:Hr; [discriminate|].
  intros [= <-]. repeat split; assumption.
Qed.

(** X15.  A flat strategy emits at most one signal per market update, and
    it is fully determined: a LONG signal stamped with the event's time,
    for the strategy's symbol, at the tick's price, for the base position
    size (times 1.5 when the strategy has a classifier, since entry
    requires TRENDING); the size is positive. *)
Theorem entry_signal_shape (s : Strategy.NewsMomentumStrategy)
    (store : ClassifierStore) (ts : Z) (tick : Tick) (e : Event) :
  Strategy.position_ s = 0%float ->
  In e (snd (Strategy.processMarketUpdate s store ts tick)) ->
  snd (Strategy.processMarketUpdate s store ts tick)
  = [SignalEvent ts (Strategy.symbol_ s) LONG (long_quantity s) (price tick)]
  /\ PrimFloat.ltb 0 (long_quantity s) = true.
Proof.
  intros Hflat. unfold Strategy.processMarketUpdate.
  set (store1 := match Strategy.regime_classifier_ s with Some _ => _ | None => _ end).
  set (s1 := Strategy.set_indicators s _).
  assert (Hno : Strategy.hasPosition s1 = false)
    by (apply flat_after_indicators; exact Hflat).
  rewrite Hno.
  pose proof (checkEntryConditions_keeps s1 store1 tick) as (Hsym & Hbase & Hrc & _).
  destruct (Strategy.checkEntryConditions s1 store1 tick) as [entry s2] eqn:Hentry.
  cbn [snd] in Hsym, Hbase, Hrc.
  destruct entry; [|intros []].
  apply checkEntryConditions_regime in Hentry as (Hreg & _).
  assert (Hsize : Strategy.calculatePositionSize s2 store1 = long_quantity s).
  { clearbody store1.
    change (Strategy.regime_classifier_ s1) with (Strategy.regime_classifier_ s) in Hrc.
    change (Strategy.base_position_size_ s1) with (Strategy.base_position_size_ s) in Hbase.
    unfold Strategy.calculatePositionSize, long_quantity, Strategy.regime_not_trending in *.
    rewrite Hrc in *. rewrite Hbase.
    destruct (Strategy.regime_classifier_ s) as [p|]; [|reflexivity].
    unfold RegimeClassifier.getPositionMultiplier, RegimeClassifier.getCurrentRegime in *.
    destruct (RegimeClassifier.current_regime_ (store1 p)); [discriminate|]. reflexivity. }
  rewrite Hsize.
  destruct (PrimFloat.ltb 0 (long_quantity s)) eqn:Hpos; [|intros []].
  intros _. cbn [snd]. rewrite Hsym. split; reflexivity.
Qed.

Lemma entry_signal_shape_witness :
  snd (Strategy.processMarketUpdate (fst (fst Scenario.warmed_up)) (snd (fst Scenario.warmed_up))
         (timestamp_us Scenario.tick21) Scenario.tick21)
  = [SignalEvent (timestamp_us Scenario.tick21)
       (Strategy.symbol_ (fst (fst Scenario.warmed_up))) LONG
       (long_quantity (fst (fst Scenario.warmed_up))) (price Scenario.tick21)]
  /\ PrimFloat.ltb 0 (long_quantity (fst (fst Scenario.warmed_up))) = true.
Proof.
  apply (entry_signal_shape (fst (fst Scenario.warmed_up)) (snd (fst Scenario.warmed_up))
           (timestamp_us Scenario.tick21) Scenario.tick21
           (SignalEvent 2100000 "TICKER" LONG 150 169)).
  - vm_compute. reflexivity.
  - vm_compute. left. reflexivity.
Defined.

(** X16.  A flat strategy never signals on a degenerate tick: a tick whose
    price or whose ask size compares equal to 0.0 yields no signal,
    whatever the indicators and the regime say. *)
Theorem no_signal_on_degenerate_tick (s : Strategy.NewsMomentumStrategy)
    (store : ClassifierStore) (ts : Z) (tick : Tick) :
  Strategy.position_ s = 0%float ->
  PrimFloat.eqb (price tick) 0 = true \/ PrimFloat.eqb (ask_size tick) 0 = true ->
  snd (Strategy.processMarketUpdate s store ts tick) = [].
Proof.
  intros Hflat Hdeg. unfold Strategy.processMarketUpdate.
  set (store1 := match Strategy.regime_classifier_ s with Some _ => _ | None => _ end).
  set (s1 := Strategy.set_indicators s _).
  assert (Hno : Strategy.hasPosition s1 = false)
    by (apply flat_after_indicators; exact Hflat).
  rewrite Hno.
  destruct (Strategy.checkEntryConditions s1 store1 tick) as [entry s2] eqn:Hentry.
  destruct entry; [|reflexivity].
  apply checkEntryConditions_regime in Hentry as (_ & _ & Hbook & Htrend & _).
  unfold Strategy.checkOrderBookImbalance in Hbook. unfold Strategy.checkEMATrend in Htrend.
  destruct Hdeg as [Hz|Hz]; rewrite Hz in *; discriminate.
Qed.

Lemma no_signal_on_degenerate_tick_witness :
  snd (Strategy.processMarketUpdate (fst (fst Scenario.warmed_up)) (snd (fst Scenario.warmed_up))
         2100000 (mkTick 2100000 169 1000 2 0)) = [].
Proof.
  apply (no_signal_on_degenerate_tick (fst (fst Scenario.warmed_up))
           (snd (fst Scenario.warmed_up)) 2100000 (mkTick 2100000 169 1000 2 0)).
  - vm_compute. reflexivity.
  - right. vm_compute. reflexivity.
Defined.

Lemma updateEMA_macd_history (i : Indicators float) (x : float) (p : N) :
  macd_histogram_history_ (updateEMA i x p) = macd_histogram_history_ i.
Proof. unfold updateEMA. destruct (emas_ i !! p) as [[v a]|]; reflexivity. Qed.

Lemma update_indicators_macd_history (i : Indicators float) (tick : Tick) (ts : Z) :
  exists h : float,
    macd_histogram_history_ (Strategy.update_indicators i tick ts)
    = push_bounded 10 (macd_histogram_history_ i) h.
Proof.
  unfold Strategy.update_indicators. cbv zeta.
  unfold updateVolume, updateVWAP. cbn [macd_histogram_history_].
  unfold updateMACD at 1. cbn [macd_histogram_history_].
  rewrite !updateEMA_macd_history. eexists. reflexivity.
Qed.

(** X17.  The first market update never yields a signal: a flat strategy
    whose MACD histogram history is still empty emits nothing, whatever
    the tick and the thresholds are, because after one update the
    histogram cannot be said to expand. *)
Theorem no_signal_on_first_update (s : Strategy.NewsMomentumStrategy)
    (store : ClassifierStore) (ts : Z) (tick : Tick) :
  Strategy.position_ s = 0%float ->
  macd_histogram_history_ (Strategy.indicators_ s) = [] ->
  snd (Strategy.processMarketUpdate s store ts tick) = [].
Proof.
  intros Hflat Hempty. unfold Strategy.processMarketUpdate.
  set (store1 := match Strategy.regime_classifier_ s with Some _ => _ | None => _ end).
  set (s1 := Strategy.set_indicators s _).
  assert (Hno : Strategy.hasPosition s1 = false)
    by (apply flat_after_indicators; exact Hflat).
  rewrite Hno.
  destruct (Strategy.checkEntryConditions s1 store1 tick) as [entry s2] eqn:Hentry.
  destruct entry; [|reflexivity].
  apply checkEntryConditions_regime in Hentry as (_ & Hmacd & _ & _ & Hind).
  unfold Strategy.checkMACD in Hmacd. rewrite Hind in Hmacd.
  cbn [Strategy.indicators_ Strategy.set_indicators s1] in Hmacd.
  unfold s1 in Hmacd. cbn [Strategy.indicators_ Strategy.set_indicators] in Hmacd.
  destruct (update_indicators_macd_history (Strategy.indicators_ s) tick ts) as [h Hh].
  unfold isMACDHistogramExpanding in Hmacd. rewrite Hh, Hempty in Hmacd.
  discriminate Hmacd.
Qed.

Lemma no_signal_on_first_update_witness :
  snd (Strategy.processMarketUpdate Scenario.strategy Scenario.classifiers
         (timestamp_us Scenario.tick21) Scenario.tick21) = [].
Proof.
  apply (no_signal_on_first_update Scenario.strategy Scenario.classifiers
           (timestamp_us Scenario.tick21) Scenario.tick21); reflexivity.
Defined.

Lemma processMarketUpdate_warmup (s : Strategy.NewsMomentumStrategy)
    (store : ClassifierStore) (ts : Z) (tick : Tick) (p : nat) :
  Strategy.position_ s = 0%float ->
  Strategy.regime_classifier_ s = Some p ->
  (S (length (RegimeClassifier.tick_history_ (store p))) < 20)%nat ->
  snd (Strategy.processMarketUpdate s store ts tick) = []
  /\ (length (RegimeClassifier.tick_history_
                (snd (fst (Strategy.processMarketUpdate s store ts tick)) p))
      <= S (length (RegimeClassifier.tick_history_ (store p))))%nat.
Proof.
  intros Hflat Hrc Hlen.
  pose proof (updateAndClassify_warmup (store p) tick Hlen) as Hchoppy.
  pose proof (updateAndClassify_history_length (store p) tick) as Hhist.
  unfold Strategy.processMarketUpdate. rewrite Hrc.
  set (store1 := store_update store p _).
  assert (Hat : store1 p = RegimeClassifier.updateAndClassify (store p) tick).
  { unfold store1, store_update. rewrite Nat.eqb_refl. reflexivity. }
  clearbody store1.
  set (s1 := Strategy.set_indicators s _).
  assert (Hno : Strategy.hasPosition s1 = false)
    by (apply flat_after_indicators; exact Hflat).
  rewrite Hno.
  pose proof (checkEntryConditions_keeps s1 store1 tick) as (_ & _ & Hrc2 & _).
  destruct (Strategy.checkEntryConditions s1 store1 tick) as [entry s2] eqn:Hentry.
  cbn [snd] in Hrc2.
  destruct entry.
  - apply checkEntryConditions_regime in Hentry as (Hreg & _).
    unfold Strategy.regime_not_trending in Hreg. rewrite Hrc2 in Hreg.
    change (Strategy.regime_classifier_ s1) with (Strategy.regime_classifier_ s) in Hreg.
    rewrite Hrc, Hat, Hchoppy in Hreg. discriminate Hreg.
  - cbn [fst snd]. rewrite Hat. split; [reflexivity | exact Hhist].
Qed.

(** X18.  A strategy with a classifier stays silent while the classifier
    warms up: if the classifier has seen [h] ticks and [h] plus the number
    of market updates fed is below 20, a flat strategy emits no signal at
    all, whatever the prices and volumes are. *)
Theorem no_signal_during_classifier_warmup (s : Strategy.NewsMomentumStrategy)
    (store : ClassifierStore) (events : list (Z * Tick)) (p : nat) :
  Strategy.position_ s = 0%float ->
  Strategy.regime_classifier_ s = Some p ->
  (length (RegimeClassifier.tick_history_ (store p)) + length events < 20)%nat ->
  snd (feed s store events) = [].
Proof.
  intros Hflat Hrc Hlen.
  assert (Hinv : snd (feed s store events) = []
                 /\ Strategy.position_ (fst (fst (feed s store events))) = 0%float
                 /\ Strategy.regime_classifier_ (fst (fst (feed s store events))) = Some p
                 /\ (length (RegimeClassifier.tick_history_
                               (snd (fst (feed s store events)) p))
                     <= length (RegimeClassifier.tick_history_ (store p)) + length events)%nat);
    [|exact (proj1 Hinv)].
  induction events as [|ev events IH] using rev_ind.
  - cbn. repeat split; try assumption. lia.
  - rewrite length_app in Hlen |- *. cbn [length] in Hlen |- *.
    destruct IH as (He & Hp & Hr & Hl); [lia|].
    rewrite feed_snoc.
    destruct (feed s store events) as [[s1 store1] emitted]. cbn [fst snd] in *.
    pose proof (processMarketUpdate_keeps s1 store1 (fst ev) (snd ev)) as (Hr2 & Hp2).
    destruct (processMarketUpdate_warmup s1 store1 (fst ev) (snd ev) p Hp Hr) as (Hs & Hh);
      [lia|].
    destruct (Strategy.processMarketUpdate s1 store1 (fst ev) (snd ev)) as [[s2 store2] signals].
    cbn [fst snd] in *. subst emitted signals.
    repeat split; [congruence | congruence | lia].
Qed.

Lemma no_signal_during_classifier_warmup_witness :
  snd (feed Scenario.strategy Scenario.classifiers (Scenario.as_events Scenario.quiet)) = [].
Proof.
  apply (no_signal_during_classifier_warmup Scenario.strategy Scenario.classifiers
           (Scenario.as_events Scenario.quiet) 0%nat).
  - reflexivity.
  - reflexivity.
  - vm_compute. lia.
Defined.

(** ** The crossover state *)

Lemma checkEntryConditions_flag (s : Strategy.NewsMomentumStrategy) (flag : bool)
    (store : ClassifierStore) (tick : Tick) :
  fst (Strategy.checkEntryConditions (Strategy.set_was_long_ema_above_short s flag) store tick)
  = fst (Strategy.checkEntryConditions s store tick).
Proof.
  unfold Strategy.checkEntryConditions, Strategy.checkEMACrossover.
  change (Strategy.checkVolumeSpike (Strategy.set_was_long_ema_above_short s flag))
    with (Strategy.checkVolumeSpike s).
  change (Strategy.checkGapUp (Strategy.set_was_long_ema_above_short s flag))
    with (Strategy.checkGapUp s).
  change (Strategy.checkEMATrend (Strategy.set_was_long_ema_above_short s flag) (price tick))
    with (Strategy.checkEMATrend s (price tick)).
  change (Strategy.indicators_ (Strategy.set_was_long_ema_above_short s flag))
    with (Strategy.indicators_ s).
  destruct (negb (Strategy.checkVolumeSpike s) || negb (Strategy.checkGapUp s));
    [reflexivity|].
  destruct (negb (Strategy.checkEMATrend s (price tick))); [reflexivity|].
  destruct ((getEMA (Strategy.indicators_ s) 9 =? 0)%float
            || (getEMA (Strategy.indicators_ s) 90 =? 0)%float); [reflexivity|].
  destruct (PrimFloat.ltb (getEMA (Strategy.indicators_ s) 90)
              (getEMA (Strategy.indicators_ s) 9)) eqn:Habove.
  - rewrite !orb_true_r. cbn [negb].
    set (s1 := Strategy.set_was_long_ema_above_short
                 (Strategy.set_was_long_ema_above_short s flag) true).
    set (s2 := Strategy.set_was_long_ema_above_short s true).
    change (Strategy.checkVWAP s1 (price tick)) with (Strategy.checkVWAP s2 (price tick)).
    change (Strategy.checkMACD s1) with (Strategy.checkMACD s2).
    change (Strategy.checkOrderBookImbalance s1 tick)
      with (Strategy.checkOrderBookImbalance s2 tick).
    change (Strategy.regime_not_trending s1 store)
      with (Strategy.regime_not_trending s2 store).
    repeat match goal with
           | |- context [if ?c then _ else _] => destruct c
           end; reflexivity.
  - cbn [andb orb negb fst]. reflexivity.
Qed.

(** X19.  The crossover state has no effect on the entry decision:
    [checkEMACrossover] answers [crossover || current_long_above], which
    is just "the 9-EMA is above the 90-EMA" (both being non-zero), so
    [checkEntryConditions] decides the same whatever
    [was_long_ema_above_short_] holds. *)
Theorem entry_ignores_crossover_state (s : Strategy.NewsMomentumStrategy) (flag : bool)
    (store : ClassifierStore) (tick : Tick) :
  fst (Strategy.checkEMACrossover s)
  = negb ((getEMA (Strategy.indicators_ s) 9 =? 0)%float
          || (getEMA (Strategy.indicators_ s) 90 =? 0)%float)
    && PrimFloat.ltb (getEMA (Strategy.indicators_ s) 90) (getEMA (Strategy.indicators_ s) 9)
  /\ fst (Strategy.checkEntryConditions (Strategy.set_was_long_ema_above_short s flag)
            store tick)
     = fst (Strategy.checkEntryConditions s store tick).
Proof.
  split; [|apply checkEntryConditions_flag].
  unfold Strategy.checkEMACrossover.
  destruct (_ || _); [reflexivity|]. cbn [fst negb andb].
  destruct (PrimFloat.ltb _ _); [apply orb_true_r | reflexivity].
Qed.

(** ** Further properties of the engine *)

Lemma event_loop_invariant (I : Backtester.World -> Prop) :
  (forall w e w', I w -> Backtester.dispatch w = Some (e, w') -> I w') ->
  forall fuel w, I w -> I (fst (Backtester.event_loop fuel w)).
Proof.
  intros Hstep. induction fuel as [|fuel IH]; intros w Hw; cbn; [exact Hw|].
  destruct (Backtester.dispatch w) as [[e w']|] eqn:Hd; [|exact Hw].
  specialize (IH w' (Hstep _ _ _ Hw Hd)).
  destruct (Backtester.event_loop fuel w') as [w'' trace]. exact IH.
Qed.

Lemma dispatch_popped (w w' : Backtester.World) (e : Event) :
  Backtester.dispatch w = Some (e, w') ->
  e :: pq_pop EventComparator (Backtester.event_queue_ (Backtester.engine w))
    ≡ₚ Backtester.event_queue_ (Backtester.engine w)
  /\ w' = Backtester.processEvent
            (Backtester.mkWorld
               (Backtester.set_current_time_us
                  (Backtester.set_event_queue (Backtester.engine w)
                     (pq_pop EventComparator (Backtester.event_queue_ (Backtester.engine w))))
                  (getTimestamp e))
               (Backtester.classifiers w)) e.
Proof.
  unfold Backtester.dispatch, pq_top.
  destruct (head (Backtester.event_queue_ (Backtester.engine w))) as [top|] eqn:Hh;
    [|discriminate].
  intros [= <- <-]. split; [|reflexivity].
  apply (pq_pop_perm getTimestamp). exact Hh.
Qed.

Lemma push_events_perm (signals : list Event) (b : Backtester.t) :
  Backtester.event_queue_ (fold_left Backtester.push_event signals b)
    ≡ₚ signals ++ Backtester.event_queue_ b.
Proof.
  revert b. induction signals as [|e signals IH]; intros b; cbn [fold_left app]; [reflexivity|].
  rewrite IH. unfold Backtester.push_event at 1. cbn [Backtester.event_queue_ Backtester.set_event_queue].
  pose proof (pq_push_perm getTimestamp (Backtester.event_queue_ b) e) as Hp.
  change (greater_key getTimestamp) with EventComparator in Hp.
  rewrite Hp. symmetry. apply Permutation_middle.
Qed.

Lemma push_events_frame (signals : list Event) (b : Backtester.t) :
  Backtester.strategies_ (fold_left Backtester.push_event signals b) = Backtester.strategies_ b
  /\ Backtester.tick_data_ (fold_left Backtester.push_event signals b) = Backtester.tick_data_ b
  /\ Backtester.positions_ (fold_left Backtester.push_event signals b) = Backtester.positions_ b
  /\ Backtester.trade_log_ (fold_left Backtester.push_event signals b) = Backtester.trade_log_ b
  /\ Backtester.latency_ms_ (fold_left Backtester.push_event signals b) = Backtester.latency_ms_ b.
Proof.
  revert b. induction signals as [|e signals IH]; intros b; cbn [fold_left];
    [repeat split; reflexivity|].
  destruct (IH (Backtester.push_event b e)) as (H1 & H2 & H3 & H4 & H5).
  repeat split; assumption.
Qed.

(** What processing an event does to the queue. *)
Lemma processEvent_queue (w : Backtester.World) (e : Event) :
  Backtester.event_queue_ (Backtester.engine (Backtester.processEvent w e))
    ≡ₚ emitted w e ++ Backtester.event_queue_ (Backtester.engine w).
Proof.
  destruct e as [ts tick|ts sym d q p|ts sym d q p|ts sym d q p c];
    cbn [Backtester.processEvent emitted Backtester.engine].
  - unfold Backtester.processMarketUpdate.
    destruct (Backtester.string_empty _); [reflexivity|].
    destruct (StdMap.find _ _) as [strategy|]; [|reflexivity].
    destruct (Strategy.processMarketUpdate strategy (Backtester.classifiers w) ts tick)
      as [[strategy' store'] signals].
    cbn [Backtester.engine snd]. rewrite push_events_perm. reflexivity.
  - unfold Backtester.processSignalEvent.
    apply (push_events_perm [_] (Backtester.engine w)).
  - unfold Backtester.processOrderEvent.
    apply (push_events_perm [_] (Backtester.engine w)).
  - unfold Backtester.processFillEvent. rewrite updatePosition_queue. reflexivity.
Qed.

Lemma dispatch_queue (w w' : Backtester.World) (e : Event) :
  Backtester.dispatch w = Some (e, w') ->
  exists popped pushes,
    Backtester.event_queue_ (Backtester.engine w) ≡ₚ e :: popped
    /\ Backtester.event_queue_ (Backtester.engine w') ≡ₚ pushes ++ popped
    /\ match e with
       | MarketUpdateEvent ts _ =>
           pushes = [] \/ exists symbol d q p, pushes = [SignalEvent ts symbol d q p]
       | SignalEvent ts symbol d q p => pushes = [OrderEvent ts symbol d q p]
       | OrderEvent _ symbol d q _ => exists ts' p' c, pushes = [FillEvent ts' symbol d q p' c]
       | FillEvent _ _ _ _ _ _ => pushes = []
       end.
Proof.
  intros Hd. apply dispatch_popped in Hd as [Hperm ->].
  set (w0 := Backtester.mkWorld _ _).
  exists (pq_pop EventComparator (Backtester.event_queue_ (Backtester.engine w))),
         (emitted w0 e).
  split; [symmetry; exact Hperm|]. split; [apply processEvent_queue|].
  destruct e as [ts tick|ts sym d q p|ts sym d q p|ts sym d q p c]; cbn [emitted].
  - destruct (Backtester.string_empty _); [left; reflexivity|].
    destruct (StdMap.find _ _) as [strategy|]; [|left; reflexivity].
    apply processMarketUpdate_signals_shape.
  - reflexivity.
  - unfold Backtester.fill_of_order. eauto.
  - reflexivity.
Qed.

Lemma count_events_perm (kind : Event -> bool) (l l' : list Event) :
  l ≡ₚ l' -> count_events kind l = count_events kind l'.
Proof.
  unfold count_events. induction 1; cbn; try destruct (kind x); try destruct (kind y);
    cbn; congruence.
Qed.

Lemma count_events_app (kind : Event -> bool) (l l' : list Event) :
  count_events kind (l ++ l') = (count_events kind l + count_events kind l')%nat.
Proof. unfold count_events. rewrite List.filter_app, length_app. reflexivity. Qed.

(** X20.  Whatever state [run()] starts from, its loop ends, and it ends
    on an empty queue: the weight of the queue (4 for a market update, 3
    for a signal, 2 for an order, 1 for a fill) bounds the number of
    turns, as every event causes at most one event of the next kind. *)
Theorem run_terminates_with_empty_queue (w : Backtester.World) :
  Backtester.dispatch (fst (Backtester.run_loop w)) = None
  /\ (length (Backtester.dispatch_trace w)
      <= Backtester.queue_weight (Backtester.event_queue_ (Backtester.engine w)))%nat.
Proof.
  split.
  - unfold Backtester.dispatch. rewrite run_loop_drains. reflexivity.
  - unfold Backtester.dispatch_trace, Backtester.run_loop.
    generalize (Backtester.queue_weight (Backtester.event_queue_ (Backtester.engine w))).
    intros fuel. revert w. induction fuel as [|fuel IH]; intros w; cbn; [lia|].
    destruct (Backtester.dispatch w) as [[e w']|]; [|cbn; lia].
    specialize (IH w'). destruct (Backtester.event_loop fuel w') as [w'' trace].
    cbn in *. lia.
Qed.

Lemma event_loop_counts (fuel : nat) (w : Backtester.World) :
  (Backtester.queue_weight (Backtester.event_queue_ (Backtester.engine w)) <= fuel)%nat ->
  let queue := Backtester.event_queue_ (Backtester.engine w) in
  let trace := snd (Backtester.event_loop fuel w) in
  count_events is_market_update trace = count_events is_market_update queue
  /\ (count_events is_signal trace
      <= count_events is_signal queue + count_events is_market_update queue)%nat
  /\ count_events is_order trace
     = (count_events is_order queue + count_events is_signal trace)%nat
  /\ count_events is_fill trace
     = (count_events is_fill queue + count_events is_order trace)%nat.
Proof.
  cbv zeta. revert w. induction fuel as [|fuel IH]; intros w Hfuel.
  - assert (Hq : Backtester.event_queue_ (Backtester.engine w) = [])
      by (apply queue_weight_zero; lia).
    rewrite Hq. cbn. repeat split; lia.
  - cbn [Backtester.event_loop].
    destruct (Backtester.dispatch w) as [[e w']|] eqn:Hd.
    + pose proof (dispatch_weight w w' e Hd) as Hw.
      specialize (IH w' ltac:(lia)).
      destruct (dispatch_queue w w' e Hd) as (popped & pushes & Hq & Hq' & Hpushes).
      destruct (Backtester.event_loop fuel w') as [w'' trace]. cbn [snd] in *.
      rewrite !(count_events_perm _ _ _ Hq).
      rewrite !(count_events_perm _ _ _ Hq'), !count_events_app in IH.
      destruct IH as (Hmu & Hsig & Hord & Hfill).
      change (e :: trace) with ([e] ++ trace). change (e :: popped) with ([e] ++ popped).
      rewrite !count_events_app.
      destruct e as [ts tick|ts sym d q p|ts sym d q p|ts sym d q p c].
      * destruct Hpushes as [->|(sym & d & q & p & ->)];
          cbn in *; repeat split; lia.
      * subst pushes. cbn in *. repeat split; lia.
      * destruct Hpushes as (ts' & p' & c & ->). cbn in *. repeat split; lia.
      * subst pushes. cbn in *. repeat split; lia.
    + unfold Backtester.dispatch, pq_top in Hd.
      destruct (Backtester.event_queue_ (Backtester.engine w)) as [|x q]; [|discriminate].
      cbn. repeat split; lia.
Qed.


(** ** The queue after the set-up *)

Lemma push_ticks_as_events (ticks : list Tick) (b : Backtester.t) :
  fold_left (fun b tick => Backtester.push_event b (MarketUpdateEvent (timestamp_us tick) tick))
    ticks b
  = fold_left Backtester.push_event
      (map (fun t => MarketUpdateEvent (timestamp_us t) t) ticks) b.
Proof.
  revert b. induction ticks as [|t ticks IH]; intros b; cbn [fold_left map]; [reflexivity|].
  apply IH.
Qed.

Lemma push_events_ordered (events : list Event) (b : Backtester.t) :
  heap_ordered getTimestamp (length (Backtester.event_queue_ b)) (Backtester.event_queue_ b) ->
  heap_ordered getTimestamp
    (length (Backtester.event_queue_ (fold_left Backtester.push_event events b)))
    (Backtester.event_queue_ (fold_left Backtester.push_event events b)).
Proof.
  revert b. induction events as [|e events IH]; intros b Hb; cbn [fold_left]; [exact Hb|].
  apply IH. unfold Backtester.push_event.
  cbn [Backtester.event_queue_ Backtester.set_event_queue].
  apply (pq_push_ordered getTimestamp). exact Hb.
Qed.

Lemma api_call_queue (b : Backtester.t) (c : ApiCall) :
  heap_ordered getTimestamp (length (Backtester.event_queue_ b)) (Backtester.event_queue_ b) ->
  heap_ordered getTimestamp (length (Backtester.event_queue_ (api_call b c)))
    (Backtester.event_queue_ (api_call b c))
  /\ Backtester.event_queue_ (api_call b c)
       ≡ₚ Backtester.event_queue_ b ++ loaded_updates [c].
Proof.
  intros Hb. destruct c as [ticks symbol|symbol strategy]; cbn [api_call loaded_updates flat_map].
  - rewrite app_nil_r. unfold Backtester.loadTickData.
    destruct ticks as [|t ticks]; [cbn [snd map]; rewrite app_nil_r; split; [exact Hb | reflexivity]|].
    cbn [snd]. rewrite push_ticks_as_events. split.
    + apply push_events_ordered. exact Hb.
    + rewrite push_events_perm. apply Permutation_app_comm.
  - cbn [app]. rewrite app_nil_r. split; [exact Hb | reflexivity].
Qed.

Lemma loaded_updates_market (calls : list ApiCall) :
  count_events is_market_update (loaded_updates calls) = length (loaded_updates calls)
  /\ count_events is_signal (loaded_updates calls) = 0%nat
  /\ count_events is_order (loaded_updates calls) = 0%nat
  /\ count_events is_fill (loaded_updates calls) = 0%nat.
Proof.
  unfold loaded_updates. induction calls as [|c calls IH]; [cbn; auto|].
  cbn [flat_map]. rewrite !count_events_app, length_app.
  destruct IH as (-> & -> & -> & ->).
  destruct c as [ticks symbol|symbol strategy]; [|cbn; auto].
  unfold count_events.
  induction ticks as [|t ticks (H1 & H2 & H3 & H4)]; cbn in *; [auto|].
  repeat split; lia.
Qed.


(** ** Exits, positions and the trade log *)

Lemma closePosition_frame (b : Backtester.t) (symbol : string) (exit_price : float) (ts : Z) :
  Backtester.strategies_ (Backtester.closePosition b symbol exit_price ts)
  = Backtester.strategies_ b.
Proof.
  unfold Backtester.closePosition.
  destruct (StdMap.find symbol (Backtester.positions_ b)) as [position|]; [|reflexivity].
  destruct (PrimFloat.eqb _ _); reflexivity.
Qed.

(** A fill that is not an exit leaves the trade log alone. *)
Lemma updatePosition_no_exit (b : Backtester.t) (ts : Z) (symbol : string)
    (direction : Direction) (quantity fill_price : float) :
  Direction_eqb direction EXIT = false ->
  Backtester.trade_log_ (Backtester.updatePosition b ts symbol direction quantity fill_price)
  = Backtester.trade_log_ b
  /\ Backtester.strategies_ (Backtester.updatePosition b ts symbol direction quantity fill_price)
     = Backtester.strategies_ b.
Proof.
  intros Hd. unfold Backtester.updatePosition.
  destruct (StdMap.index _ _ _) as [position positions].
  destruct direction; try discriminate Hd.
  - destruct (PrimFloat.eqb _ _); split; reflexivity.
  - split; reflexivity.
Qed.

(** The state that forbids exits: flat strategies, and no exit queued. *)
Lemma dispatch_no_exit (w w' : Backtester.World) (e : Event) :
  strategies_flat (Backtester.engine w) ->
  Forall (fun e => no_exit e = true) (Backtester.event_queue_ (Backtester.engine w)) ->
  Backtester.dispatch w = Some (e, w') ->
  strategies_flat (Backtester.engine w')
  /\ Forall (fun e => no_exit e = true) (Backtester.event_queue_ (Backtester.engine w'))
  /\ Backtester.trade_log_ (Backtester.engine w') = Backtester.trade_log_ (Backtester.engine w).
Proof.
  intros Hflat Hq Hd. apply dispatch_popped in Hd as [Hperm ->].
  set (popped := pq_pop EventComparator (Backtester.event_queue_ (Backtester.engine w))) in *.
  rewrite <- Hperm in Hq. apply Forall_cons in Hq as [He Hpopped].
  set (b0 := Backtester.set_current_time_us _ _).
  assert (Hflat0 : strategies_flat b0) by exact Hflat.
  assert (Hq0 : Backtester.event_queue_ b0 = popped) by reflexivity.
  assert (Hlog0 : Backtester.trade_log_ b0 = Backtester.trade_log_ (Backtester.engine w))
    by reflexivity.
  clearbody b0. rewrite <- Hlog0. clear Hlog0 Hflat Hperm.
  set (w0 := Backtester.mkWorld b0 (Backtester.classifiers w)).
  assert (Hqueue : Forall (fun e => no_exit e = true) (emitted w0 e) ->
                   Forall (fun e => no_exit e = true)
                     (Backtester.event_queue_ (Backtester.engine (Backtester.processEvent w0 e)))).
  { intros Hem. rewrite (processEvent_queue w0 e). apply Forall_app. split; [exact Hem|].
    cbn [Backtester.engine w0]. rewrite Hq0. exact Hpopped. }
  destruct e as [ts tick|ts sym d q p|ts sym d q p|ts sym d q p c].
  - cbn [emitted Backtester.processEvent] in *. unfold Backtester.processMarketUpdate in *.
    cbn [Backtester.engine Backtester.classifiers w0] in *.
    destruct (Backtester.string_empty _);
      [repeat split; [exact Hflat0 | apply Hqueue; constructor]|].
    destruct (StdMap.find _ (Backtester.strategies_ b0)) as [strategy|] eqn:Hfind;
      [|repeat split; [exact Hflat0 | apply Hqueue; constructor]].
    assert (Hs : Strategy.position_ strategy = 0%float)
      by exact (StdMap_find_all _ _ _ _ Hflat0 Hfind).
    pose proof (processMarketUpdate_position strategy (Backtester.classifiers w) ts tick) as Hpos.
    pose proof (processMarketUpdate_signals_long strategy (Backtester.classifiers w) ts tick Hs)
      as Hlong.
    destruct (Strategy.processMarketUpdate strategy (Backtester.classifiers w) ts tick)
      as [[strategy' store'] signals]. cbn [fst snd Backtester.engine] in *.
    destruct (push_events_frame signals
                (Backtester.set_strategies b0
                   (StdMap.insert (Backtester.resolve_symbol b0 tick) strategy'
                      (Backtester.strategies_ b0)))) as (Hst & _ & _ & Hlog & _).
    split; [|split].
    + unfold strategies_flat. rewrite Hst. cbn [Backtester.strategies_ Backtester.set_strategies].
      apply StdMap_insert_all; [exact Hflat0 | congruence].
    + apply Hqueue. eapply Forall_impl; [exact Hlong|].
      intros [| ? ? d ? ? | |] Hd; cbn in Hd; try contradiction. subst d. reflexivity.
    + rewrite Hlog. reflexivity.
  - cbn [Backtester.processEvent Backtester.engine w0 Backtester.classifiers] in *.
    split; [exact Hflat0|]. split; [|reflexivity].
    apply Hqueue. cbn [emitted]. repeat constructor. exact He.
  - cbn [Backtester.processEvent Backtester.engine w0 Backtester.classifiers] in *.
    split; [exact Hflat0|]. split; [|reflexivity].
    apply Hqueue. cbn [emitted]. repeat constructor. exact He.
  - cbn [Backtester.processEvent Backtester.engine w0 Backtester.classifiers] in *.
    unfold Backtester.processFillEvent in *.
    cbn [no_exit] in He. apply negb_true_iff in He.
    destruct (updatePosition_no_exit b0 ts sym d q p He) as [Hlog Hst].
    split; [unfold strategies_flat; rewrite Hst; exact Hflat0|].
    split; [apply Hqueue; constructor | exact Hlog].
Qed.

Lemma close_remaining_frame (b : Backtester.t) :
  Backtester.event_queue_ (Backtester.close_remaining b) = Backtester.event_queue_ b.
Proof.
  unfold Backtester.close_remaining.
  generalize (Backtester.positions_ b) as l. intros l. revert b.
  induction l as [|sp l IH]; intros b; cbn [fold_left]; [reflexivity|].
  rewrite IH. unfold Backtester.close_if_open.
  destruct (StdMap.find _ _) as [position|]; [|reflexivity].
  destruct (negb _); [|reflexivity].
  destruct (StdMap.index _ _ _) as [ticks data].
  destruct (last ticks); [|reflexivity].
  rewrite closePosition_queue. reflexivity.
Qed.

(** X23.  The engine never records a strategy-driven exit.  From a state
    whose registered strategies are flat and whose queue holds no exit
    (as after any set-up through the public interface), the event loop
    leaves the trade log untouched, so that every record [run()] adds is a
    forced close stamped with the last tick of its symbol. *)
Theorem trades_are_forced_closes (w : Backtester.World) :
  strategies_flat (Backtester.engine w) ->
  Forall (fun e => no_exit e = true) (Backtester.event_queue_ (Backtester.engine w)) ->
  Backtester.trade_log_ (Backtester.engine (fst (Backtester.run_loop w)))
  = Backtester.trade_log_ (Backtester.engine w)
  /\ exists closed,
       Backtester.trade_log_ (Backtester.engine (Backtester.run w))
       = Backtester.trade_log_ (Backtester.engine w) ++ closed
       /\ Forall (closed_at_last_tick (Backtester.engine (Backtester.run w))) closed.
Proof.
  intros Hflat Hq.
  assert (Hloop : Backtester.trade_log_ (Backtester.engine (fst (Backtester.run_loop w)))
                  = Backtester.trade_log_ (Backtester.engine w)).
  { unfold Backtester.run_loop.
    apply (event_loop_invariant
             (fun w' => strategies_flat (Backtester.engine w')
                        /\ Forall (fun e => no_exit e = true)
                             (Backtester.event_queue_ (Backtester.engine w'))
                        /\ Backtester.trade_log_ (Backtester.engine w')
                           = Backtester.trade_log_ (Backtester.engine w))).
    - intros w1 e w2 (H1 & H2 & H3) Hd.
      destruct (dispatch_no_exit w1 w2 e H1 H2 Hd) as (H1' & H2' & H3').
      repeat split; [assumption | assumption | congruence].
    - repeat split; assumption. }
  split; [exact Hloop|].
  unfold Backtester.run. cbn [Backtester.engine].
  destruct (close_remaining_log (Backtester.engine (fst (Backtester.run_loop w))))
    as (closed & Hlog & Hclosed).
  exists closed. rewrite Hlog, Hloop. split; [reflexivity | exact Hclosed].
Qed.

Lemma trades_are_forced_closes_witness :
  Backtester.trade_log_ (Backtester.engine (fst (Backtester.run_loop (Scenario.world Scenario.rally))))
  = Backtester.trade_log_ (Backtester.engine (Scenario.world Scenario.rally))
  /\ exists closed,
       Backtester.trade_log_ (Backtester.engine (Backtester.run (Scenario.world Scenario.rally)))
       = Backtester.trade_log_ (Backtester.engine (Scenario.world Scenario.rally)) ++ closed
       /\ Forall (closed_at_last_tick
                    (Backtester.engine (Backtester.run (Scenario.world Scenario.rally)))) closed.
Proof.
  apply (trades_are_forced_closes (Scenario.world Scenario.rally)).
  - repeat constructor.
  - apply List.Forall_forall. apply forallb_forall. vm_compute. reflexivity.
Defined.

(** ** Long only *)

Lemma closePosition_long (b : Backtester.t) (symbol : string) (exit_price : float) (ts : Z) :
  positions_long b -> Forall long_pnl (Backtester.trade_log_ b) ->
  positions_long (Backtester.closePosition b symbol exit_price ts)
  /\ Forall long_pnl (Backtester.trade_log_ (Backtester.closePosition b symbol exit_price ts)).
Proof.
  intros Hlong Hlog. unfold Backtester.closePosition.
  destruct (StdMap.find symbol (Backtester.positions_ b)) as [position|] eqn:Hfind;
    [|split; assumption].
  destruct (PrimFloat.eqb _ _); [split; assumption|].
  pose proof (StdMap_find_all _ _ _ _ Hlong Hfind) as Hdir. cbn beta in Hdir.
  split.
  - unfold positions_long. cbn [Backtester.positions_ Backtester.set_positions].
    apply StdMap_insert_all; [exact Hlong | exact Hdir].
  - cbn [Backtester.trade_log_ Backtester.set_positions Backtester.set_trade_log].
    apply Forall_app. split; [exact Hlog|]. constructor; [|constructor].
    unfold long_pnl. rewrite Hdir. reflexivity.
Qed.

Lemma updatePosition_long (b : Backtester.t) (ts : Z) (symbol : string)
    (direction : Direction) (quantity fill_price : float) :
  positions_long b -> Forall long_pnl (Backtester.trade_log_ b) ->
  positions_long (Backtester.updatePosition b ts symbol direction quantity fill_price)
  /\ Forall long_pnl
       (Backtester.trade_log_
          (Backtester.updatePosition b ts symbol direction quantity fill_price)).
Proof.
  intros Hlong Hlog. unfold Backtester.updatePosition.
  destruct (StdMap.index (Backtester.new_position symbol) symbol (Backtester.positions_ b))
    as [position positions] eqn:Hindex.
  assert (Hnew : Position.direction (Backtester.new_position symbol) = LONG) by reflexivity.
  destruct (StdMap_index_all (fun p => Position.direction p = LONG) _ _ _ _ _ Hlong
              Hnew Hindex) as [Hdir Hall].
  destruct direction.
  - destruct (PrimFloat.eqb _ _); (split; [|exact Hlog]);
      unfold positions_long; cbn [Backtester.positions_ Backtester.set_positions];
      apply StdMap_insert_all; try exact Hall; [reflexivity | exact Hdir].
  - split; [exact Hall | exact Hlog].
  - destruct (negb _); [|split; [exact Hall | exact Hlog]].
    apply closePosition_long; [exact Hall | exact Hlog].
Qed.

Lemma dispatch_long (w w' : Backtester.World) (e : Event) :
  positions_long (Backtester.engine w) ->
  Forall long_pnl (Backtester.trade_log_ (Backtester.engine w)) ->
  Backtester.dispatch w = Some (e, w') ->
  positions_long (Backtester.engine w')
  /\ Forall long_pnl (Backtester.trade_log_ (Backtester.engine w')).
Proof.
  intros Hlong Hlog Hd. apply dispatch_popped in Hd as [_ ->].
  set (b0 := Backtester.set_current_time_us _ _).
  assert (Hlong0 : positions_long b0) by exact Hlong.
  assert (Hlog0 : Forall long_pnl (Backtester.trade_log_ b0)) by exact Hlog.
  clearbody b0.
  destruct e as [ts tick|ts sym d q p|ts sym d q p|ts sym d q p c];
    cbn [Backtester.processEvent Backtester.engine Backtester.classifiers].
  - unfold Backtester.processMarketUpdate.
    cbn [Backtester.engine Backtester.classifiers].
    destruct (Backtester.string_empty _); [split; assumption|].
    destruct (StdMap.find _ (Backtester.strategies_ b0)) as [strategy|]; [|split; assumption].
    destruct (Strategy.processMarketUpdate strategy (Backtester.classifiers w) ts tick)
      as [[strategy' store'] signals]. cbn [Backtester.engine].
    destruct (push_events_frame signals
                (Backtester.set_strategies b0
                   (StdMap.insert (Backtester.resolve_symbol b0 tick) strategy'
                      (Backtester.strategies_ b0)))) as (_ & _ & Hpos & Hl & _).
    unfold positions_long. rewrite Hpos, Hl. split; assumption.
  - split; assumption.
  - split; assumption.
  - apply updatePosition_long; assumption.
Qed.

Lemma close_all_long (l : list (string * Position.t)) (b : Backtester.t) :
  positions_long b -> Forall long_pnl (Backtester.trade_log_ b) ->
  positions_long (fold_left (fun b sp => Backtester.close_if_open b (fst sp)) l b)
  /\ Forall long_pnl
       (Backtester.trade_log_
          (fold_left (fun b sp => Backtester.close_if_open b (fst sp)) l b)).
Proof.
  revert b.
  induction l as [|sp l IH]; intros b Hlong Hlog; cbn [fold_left]; [split; assumption|].
  apply IH; unfold Backtester.close_if_open;
    (destruct (StdMap.find _ _) as [position|]; [|assumption]);
    (destruct (negb _); [|assumption]);
    destruct (StdMap.index _ _ _) as [ticks data];
    (destruct (last ticks); [|assumption]);
    apply closePosition_long; assumption.
Qed.

(** X24.  The engine is long-only.  SHORT fills are ignored and no code
    path stores another direction, so from a state whose positions are
    all LONG (the empty one in particular) a run ends with only LONG
    positions, and the profit of every trade it records is
    [(exit_price - entry_price) * quantity]: the short branch of the PnL
    computation is never taken. *)
Theorem engine_is_long_only (w : Backtester.World) :
  positions_long (Backtester.engine w) ->
  Forall long_pnl (Backtester.trade_log_ (Backtester.engine w)) ->
  positions_long (Backtester.engine (Backtester.run w))
  /\ Forall long_pnl (Backtester.trade_log_ (Backtester.engine (Backtester.run w))).
Proof.
  intros Hlong Hlog. unfold Backtester.run, Backtester.close_remaining.
  cbn [Backtester.engine].
  apply close_all_long;
    apply (event_loop_invariant
             (fun w' => positions_long (Backtester.engine w')
                        /\ Forall long_pnl (Backtester.trade_log_ (Backtester.engine w'))));
    try (split; assumption);
    intros w1 e w2 [H1 H2] Hd; exact (dispatch_long w1 w2 e H1 H2 Hd).
Qed.

Lemma engine_is_long_only_witness :
  positions_long (Backtester.engine (Backtester.run Scenario.round_trip))
  /\ Forall long_pnl (Backtester.trade_log_ (Backtester.engine (Backtester.run Scenario.round_trip))).
Proof.
  apply (engine_is_long_only Scenario.round_trip); constructor.
Defined.

(** ** Routing of market updates *)

(** X25.  With exactly one symbol loaded, every market update is routed
    to that symbol, whatever its timestamp is and whether or not the
    time-window heuristic matches. *)
Theorem single_symbol_routing (b : Backtester.t) (symbol : string) (ticks : list Tick)
    (event_tick : Tick) :
  Backtester.tick_data_ b = [(symbol, ticks)] ->
  Backtester.resolve_symbol b event_tick = symbol.
Proof.
  intros Hdata. unfold Backtester.resolve_symbol. rewrite Hdata.
  cbn [Backtester.match_symbol length Nat.eqb negb].
  destruct ticks as [|first_tick rest].
  - reflexivity.
  - destruct ((timestamp_us event_tick >=? timestamp_us first_tick)
              && (timestamp_us event_tick
                  <=? Int64.add (timestamp_us first_tick) 1000000000)).
    + destruct symbol; reflexivity.
    + reflexivity.
Qed.

Lemma single_symbol_routing_witness :
  Backtester.resolve_symbol
    (setup 200 [LoadTickData Scenario.quiet "TICKER"])
    (Scenario.tick_at 99999999 1 1)
  = "TICKER"%string.
Proof.
  apply (single_symbol_routing (setup 200 [LoadTickData Scenario.quiet "TICKER"])
           "TICKER" Scenario.quiet (Scenario.tick_at 99999999 1 1)).
  reflexivity.
Defined.

(** X26.  Market updates carry no symbol and are routed by time alone:
    an update whose timestamp lies within 1000 seconds after the first
    tick of the first symbol in key order goes to that symbol, whichever
    file the tick was loaded from. *)
Theorem market_update_routed_by_time (b : Backtester.t) (symbol : string)
    (first_tick : Tick) (rest : list Tick) (others : StdMap.t (list Tick))
    (event_tick : Tick) :
  Backtester.tick_data_ b = (symbol, first_tick :: rest) :: others ->
  symbol <> EmptyString ->
  timestamp_us first_tick <= timestamp_us event_tick
    <= Int64.add (timestamp_us first_tick) 1000000000 ->
  Backtester.resolve_symbol b event_tick = symbol.
Proof.
  intros Hdata Hsym [Hlo Hhi]. unfold Backtester.resolve_symbol. rewrite Hdata.
  cbn [Backtester.match_symbol].
  destruct (Z.geb_spec (timestamp_us event_tick) (timestamp_us first_tick)) as [_|]; [|lia].
  destruct (Z.leb_spec (timestamp_us event_tick)
              (Int64.add (timestamp_us first_tick) 1000000000)) as [_|]; [|lia].
  cbn [andb]. destruct symbol; [congruence | reflexivity].
Qed.

Lemma market_update_routed_by_time_witness :
  Backtester.resolve_symbol Scenario.two_symbols (Scenario.tick_at 2 500 1) = "AAA"%string.
Proof.
  apply (market_update_routed_by_time Scenario.two_symbols "AAA"
           (Scenario.tick_at 1 10 1) [Scenario.tick_at 3 11 1]
           [("BBB"%string, [Scenario.tick_at 2 500 1; Scenario.tick_at 4 510 1])]
           (Scenario.tick_at 2 500 1)).
  - vm_compute. reflexivity.
  - discriminate.
  - vm_compute. split; discriminate.
Defined.

(** ** Closing a position *)

Lemma StdMap_find_insert_same {V : Type} (m : StdMap.t V) (k : string) (v : V) :
  StdMap.find k (StdMap.insert k v m) = Some v.
Proof.
  induction m as [|[k' v'] m IH]; cbn [StdMap.insert StdMap.find].
  - rewrite String.eqb_refl. reflexivity.
  - destruct (String.compare k k') eqn:Hc; cbn [StdMap.find].
    + rewrite String.eqb_refl. reflexivity.
    + rewrite String.eqb_refl. reflexivity.
    + destruct (String.eqb_spec k k') as [->|Hne]; [|exact IH].
      pose proof (String.compare_antisym k' k') as Ha. rewrite Hc in Ha. discriminate Ha.
Qed.

(** X27.  Closing an open position books it once: the call appends
    exactly one record, built from the position (entry time, average
    price, quantity, entry regime) and from the exit, adds the record's
    profit to [getTotalPnL], and leaves the symbol flat, so that closing
    the same symbol again changes nothing. *)
Theorem closePosition_books_once (b : Backtester.t) (symbol : string)
    (position : Position.t) (exit_price : float) (ts : Z)
    (exit_price' : float) (ts' : Z) :
  position_of b symbol = Some position ->
  PrimFloat.eqb (Position.quantity position) 0 = false ->
  let b' := Backtester.closePosition b symbol exit_price ts in
  (exists r,
      Backtester.getTradeLog b' = Backtester.getTradeLog b ++ [r]
      /\ Backtester.getTotalPnL b' = (Backtester.getTotalPnL b + TradeRecord.pnl r)%float
      /\ TradeRecord.symbol r = symbol
      /\ TradeRecord.entry_timestamp_us r = Position.entry_timestamp_us position
      /\ TradeRecord.exit_timestamp_us r = ts
      /\ TradeRecord.entry_price r = Position.avg_price position
      /\ TradeRecord.exit_price r = exit_price
      /\ TradeRecord.quantity r = Position.quantity position
      /\ TradeRecord.regime r = Position.entry_regime position)
  /\ option_map Position.quantity (position_of b' symbol) = Some 0%float
  /\ Backtester.closePosition b' symbol exit_price' ts' = b'.
Proof.
  unfold position_of. intros Hfind Hopen. cbv zeta.
  assert (Hclose : exists r,
             Backtester.closePosition b symbol exit_price ts
             = Backtester.set_positions
                 (Backtester.set_trade_log b (Backtester.trade_log_ b ++ [r]))
                 (StdMap.insert symbol
                    (Position.mk (Position.symbol position) 0 0
                       (Position.direction position) 0 (Position.entry_regime position))
                    (Backtester.positions_ b))
             /\ TradeRecord.symbol r = symbol
             /\ TradeRecord.entry_timestamp_us r = Position.entry_timestamp_us position
             /\ TradeRecord.exit_timestamp_us r = ts
             /\ TradeRecord.entry_price r = Position.avg_price position
             /\ TradeRecord.exit_price r = exit_price
             /\ TradeRecord.quantity r = Position.quantity position
             /\ TradeRecord.regime r = Position.entry_regime position).
  { unfold Backtester.closePosition. rewrite Hfind, Hopen.
    eexists. split; [reflexivity|]. repeat split; reflexivity. }
  destruct Hclose as (r & -> & Hr).
  set (b' := Backtester.set_positions _ _).
  assert (Hfind' : StdMap.find symbol (Backtester.positions_ b')
                   = Some (Position.mk (Position.symbol position) 0 0
                             (Position.direction position) 0
                             (Position.entry_regime position))).
  { unfold b'. cbn [Backtester.positions_ Backtester.set_positions].
    apply StdMap_find_insert_same. }
  split; [|split].
  - exists r. unfold Backtester.getTradeLog, Backtester.getTotalPnL.
    cbn [Backtester.trade_log_ Backtester.set_positions Backtester.set_trade_log b'].
    rewrite fold_left_app. split; [reflexivity|]. split; [reflexivity | exact Hr].
  - rewrite Hfind'. reflexivity.
  - unfold Backtester.closePosition. rewrite Hfind'. reflexivity.
Qed.

Lemma closePosition_books_once_witness :
  let b := Backtester.engine (fst (Backtester.run_loop (Scenario.world Scenario.rally))) in
  let b' := Backtester.closePosition b "TICKER" 220 2200000 in
  (exists r,
      Backtester.getTradeLog b' = Backtester.getTradeLog b ++ [r]
      /\ Backtester.getTotalPnL b' = (Backtester.getTotalPnL b + TradeRecord.pnl r)%float
      /\ TradeRecord.symbol r = "TICKER"%string
      /\ TradeRecord.entry_timestamp_us r = 2300000
      /\ TradeRecord.exit_timestamp_us r = 2200000
      /\ TradeRecord.entry_price r = 194.5%float
      /\ TradeRecord.exit_price r = 220%float
      /\ TradeRecord.quantity r = 300%float
      /\ TradeRecord.regime r = "TRENDING"%string)
  /\ option_map Position.quantity (position_of b' "TICKER") = Some 0%float
  /\ Backtester.closePosition b' "TICKER" 1 1 = b'.
Proof.
  apply (closePosition_books_once
           (Backtester.engine (fst (Backtester.run_loop (Scenario.world Scenario.rally))))
           "TICKER" (Position.mk "TICKER" 300 194.5 LONG 2300000 "TRENDING") 220 2200000 1 1).
  - vm_compute. reflexivity.
  - vm_compute. reflexivity.
Defined.

(** ** What the loop leaves alone *)

Lemma closePosition_keeps (b : Backtester.t) (symbol : string) (exit_price : float) (ts : Z) :
  Backtester.tick_data_ (Backtester.closePosition b symbol exit_price ts)
  = Backtester.tick_data_ b
  /\ Backtester.latency_ms_ (Backtester.closePosition b symbol exit_price ts)
     = Backtester.latency_ms_ b
  /\ Backtester.current_time_us_ (Backtester.closePosition b symbol exit_price ts)
     = Backtester.current_time_us_ b.
Proof.
  unfold Backtester.closePosition.
  destruct (StdMap.find symbol (Backtester.positions_ b)) as [position|];
    [|repeat split; reflexivity].
  destruct (PrimFloat.eqb _ _); repeat split; reflexivity.
Qed.

Lemma updatePosition_keeps (b : Backtester.t) (ts : Z) (symbol : string)
    (direction : Direction) (quantity fill_price : float) :
  Backtester.tick_data_ (Backtester.updatePosition b ts symbol direction quantity fill_price)
  = Backtester.tick_data_ b
  /\ Backtester.latency_ms_ (Backtester.updatePosition b ts symbol direction quantity fill_price)
     = Backtester.latency_ms_ b
  /\ Backtester.current_time_us_
       (Backtester.updatePosition b ts symbol direction quantity fill_price)
     = Backtester.current_time_us_ b.
Proof.
  unfold Backtester.updatePosition.
  destruct (StdMap.index _ _ _) as [position positions].
  destruct direction.
  - destruct (PrimFloat.eqb _ _); repeat split; reflexivity.
  - repeat split; reflexivity.
  - destruct (negb _); [|repeat split; reflexivity].
    apply (closePosition_keeps (Backtester.set_positions b positions)).
Qed.

Lemma push_events_clock (signals : list Event) (b : Backtester.t) :
  Backtester.current_time_us_ (fold_left Backtester.push_event signals b)
  = Backtester.current_time_us_ b.
Proof.
  revert b. induction signals as [|e signals IH]; intros b; cbn [fold_left]; [reflexivity|].
  rewrite IH. reflexivity.
Qed.

Lemma processEvent_keeps (w : Backtester.World) (e : Event) :
  Backtester.tick_data_ (Backtester.engine (Backtester.processEvent w e))
  = Backtester.tick_data_ (Backtester.engine w)
  /\ Backtester.latency_ms_ (Backtester.engine (Backtester.processEvent w e))
     = Backtester.latency_ms_ (Backtester.engine w)
  /\ Backtester.current_time_us_ (Backtester.engine (Backtester.processEvent w e))
     = Backtester.current_time_us_ (Backtester.engine w).
Proof.
  destruct e as [ts tick|ts sym d q p|ts sym d q p|ts sym d q p c];
    cbn [Backtester.processEvent Backtester.engine].
  - unfold Backtester.processMarketUpdate.
    destruct (Backtester.string_empty _); [repeat split; reflexivity|].
    destruct (StdMap.find _ _) as [strategy|]; [|repeat split; reflexivity].
    destruct (Strategy.processMarketUpdate strategy (Backtester.classifiers w) ts tick)
      as [[strategy' store'] signals]. cbn [Backtester.engine].
    rewrite push_events_clock.
    destruct (push_events_frame signals
                (Backtester.set_strategies (Backtester.engine w)
                   (StdMap.insert (Backtester.resolve_symbol (Backtester.engine w) tick)
                      strategy' (Backtester.strategies_ (Backtester.engine w)))))
      as (_ & Ht & _ & _ & Hl).
    rewrite Ht, Hl. repeat split; reflexivity.
  - repeat split; reflexivity.
  - repeat split; reflexivity.
  - apply updatePosition_keeps.
Qed.

(** X28.  The event loop only reads the loaded ticks and the latency, and
    its clock is the time of the event dispatched last: after the loop,
    [tick_data_] and [latency_ms_] are what they were, and
    [current_time_us_] is the timestamp of the last event of the trace
    (unchanged when nothing was queued). *)
Theorem loop_clock_and_frame (w : Backtester.World) :
  Backtester.tick_data_ (Backtester.engine (fst (Backtester.run_loop w)))
  = Backtester.tick_data_ (Backtester.engine w)
  /\ Backtester.latency_ms_ (Backtester.engine (fst (Backtester.run_loop w)))
     = Backtester.latency_ms_ (Backtester.engine w)
  /\ Backtester.current_time_us_ (Backtester.engine (fst (Backtester.run_loop w)))
     = from_option getTimestamp (Backtester.current_time_us_ (Backtester.engine w))
         (last (Backtester.dispatch_trace w)).
Proof.
  unfold Backtester.run_loop, Backtester.dispatch_trace, Backtester.run_loop.
  generalize (Backtester.queue_weight (Backtester.event_queue_ (Backtester.engine w))).
  intros fuel.
  revert w. induction fuel as [|fuel IH]; intros w; cbn [Backtester.event_loop];
    [repeat split; reflexivity|].
  destruct (Backtester.dispatch w) as [[e w']|] eqn:Hd; [|repeat split; reflexivity].
  specialize (IH w'). apply dispatch_popped in Hd as [_ Hw'].
  destruct (processEvent_keeps
              (Backtester.mkWorld
                 (Backtester.set_current_time_us
                    (Backtester.set_event_queue (Backtester.engine w)
                       (pq_pop EventComparator (Backtester.event_queue_ (Backtester.engine w))))
                    (getTimestamp e))
                 (Backtester.classifiers w)) e) as (Ht & Hl & Hc).
  rewrite <- Hw' in Ht, Hl, Hc.
  cbn [Backtester.engine Backtester.tick_data_ Backtester.latency_ms_
       Backtester.current_time_us_ Backtester.set_current_time_us
       Backtester.set_event_queue] in Ht, Hl, Hc.
  destruct (Backtester.event_loop fuel w') as [w'' trace]. cbn [fst snd] in *.
  destruct IH as (IHt & IHl & IHc).
  split; [congruence|]. split; [congruence|].
  rewrite IHc, Hc.
  destruct trace as [|e' trace]; [reflexivity|].
  change (e :: e' :: trace) with ([e] ++ e' :: trace).
  rewrite last_app. destruct (last (e' :: trace)) eqn:Hlast; [reflexivity|].
  apply last_None in Hlast. discriminate Hlast.
Qed.
